(** * Rule-based task breakdown: the fallback decomposer of the
      [api.task-breakdown] route

    The route handler first asks a language model for a list of subtasks
    and, whenever that fails, calls [fallbackBreakdown], a cascade of
    regular-expression passes over the prompt.  This development embeds
    [fallbackBreakdown] together with the parts of the ECMAScript string
    and regular-expression semantics it relies on, and proves the
    properties of the cascade.

    A JavaScript string is a sequence of 16-bit code units; it is modelled
    as a list of [N].  Loops whose termination depends on the data (the
    [while ((m = re.exec(s)) !== null)] idiom, [String.prototype.split]
    and the chunking [for] loop) carry fuel and return [None] when it runs
    out, so that every statement about a result also states that the
    result is produced. *)

From Stdlib Require Import List NArith Arith Bool Lia.
From Stdlib Require Strings.String Strings.Ascii DecimalNat.
Import ListNotations.
Import String.StringSyntax.

Delimit Scope string_scope with string.

(* ================================================================== *)
(** ** Code units and strings *)

Definition code_unit := N.
Definition jsstring := list code_unit.

(** String literals of the development: one code unit per ASCII character. *)
Definition js (s : String.string) : jsstring :=
  map Ascii.N_of_ascii (String.list_ascii_of_string s).

Definition cu (s : String.string) : code_unit :=
  match s with
  | String.String a _ => Ascii.N_of_ascii a
  | String.EmptyString => 0%N
  end.

Arguments js s%_string.
Arguments cu s%_string.

(** U+000A LINE FEED and U+0020 SPACE. *)
Definition LF : code_unit := 10%N.
Definition SP : code_unit := 32%N.

Fixpoint jsstring_eqb (a b : jsstring) : bool :=
  match a, b with
  | [], [] => true
  | x :: a', y :: b' => N.eqb x y && jsstring_eqb a' b'
  | _, _ => false
  end.

(** *** White space

    ECMAScript [WhiteSpace] and [LineTerminator]: the code units removed by
    [String.prototype.trim] and matched by the class escape [\s]. *)

Definition lineTerminators : list code_unit := [10; 13; 8232; 8233]%N.

Definition whiteSpaceUnits : list code_unit :=
  [9; 10; 11; 12; 13; 32; 160; 5760;
   8192; 8193; 8194; 8195; 8196; 8197; 8198; 8199; 8200; 8201; 8202;
   8232; 8233; 8239; 8287; 12288; 65279]%N.

Definition decimalDigits : list code_unit :=
  [48; 49; 50; 51; 52; 53; 54; 55; 56; 57]%N.

Definition mem (c : code_unit) (l : list code_unit) : bool :=
  existsb (N.eqb c) l.

Definition isWhiteSpace (c : code_unit) : bool := mem c whiteSpaceUnits.
Definition isLineTerminator (c : code_unit) : bool := mem c lineTerminators.

Arguments isWhiteSpace c : simpl never.
Arguments isLineTerminator c : simpl never.

(** *** [String.prototype.trim] *)

Fixpoint trimStart (s : jsstring) : jsstring :=
  match s with
  | c :: s' => if isWhiteSpace c then trimStart s' else s
  | [] => []
  end.

Definition trimEnd (s : jsstring) : jsstring := rev (trimStart (rev s)).

Definition trim (s : jsstring) : jsstring := trimEnd (trimStart s).

(** A string is truthy when it is not empty. *)
Definition truthy (s : jsstring) : bool :=
  match s with [] => false | _ :: _ => true end.

(** *** [substring], [slice], [charAt], [indexOf], [includes], [join] *)

(** [s.substring(a, b)]; [b = None] stands for an omitted or [undefined]
    end.  Both indices are clamped to the length and swapped when out of
    order. *)
Definition substring (s : jsstring) (a : nat) (b : option nat) : jsstring :=
  let len := length s in
  let a' := Nat.min a len in
  let b' := match b with Some b => Nat.min b len | None => len end in
  let from := Nat.min a' b' in
  let to := Nat.max a' b' in
  firstn (to - from) (skipn from s).

(** [l.slice(a, b)] on arrays and strings, for non-negative indices. *)
Definition slice {A : Type} (l : list A) (a b : nat) : list A :=
  firstn (b - a) (skipn a l).

(** [s.slice(a)]. *)
Definition sliceFrom {A : Type} (l : list A) (a : nat) : list A := skipn a l.

(** [s.charAt(i)]: the one-unit string at [i], or the empty string. *)
Definition charAt (s : jsstring) (i : nat) : jsstring :=
  firstn 1 (skipn i s).

(** [s.indexOf(c, from)] for a one-unit search string; [None] is [-1]. *)
Fixpoint indexOfAux (c : code_unit) (s : jsstring) (i : nat) : option nat :=
  match s with
  | [] => None
  | x :: s' => if N.eqb x c then Some i else indexOfAux c s' (S i)
  end.

Definition indexOf (s : jsstring) (c : code_unit) (from : nat) : option nat :=
  indexOfAux c (skipn from s) (Nat.min from (length s)).

(** [tasks.includes(t)] on an array of strings. *)
Definition includes (l : list jsstring) (t : jsstring) : bool :=
  existsb (jsstring_eqb t) l.

(** [words.join(' ')]. *)
Fixpoint join (sep : jsstring) (l : list jsstring) : jsstring :=
  match l with
  | [] => []
  | [w] => w
  | w :: l' => w ++ sep ++ join sep l'
  end.

(* ================================================================== *)
(** ** [String.prototype.toUpperCase]

    The Unicode default upper-case conversion, restricted to single code
    units (Unicode 14.0 data).  [simpleUpper] lists the one-to-one
    mappings as arithmetic progressions [(lo, hi, step, image of lo)];
    [specialUpper] lists the code units whose upper case is longer than
    one unit.  Both tables are sorted by code unit.  Surrogates and every
    code unit that is in neither table are their own upper case. *)

Definition simpleUpper : list (N * N * N * N) :=
  [ (97, 122, 1, 65); (181, 181, 1, 924); (224, 246, 1, 192); (248, 254, 1, 216);
    (255, 255, 1, 376); (257, 303, 2, 256); (305, 305, 1, 73);
    (307, 311, 2, 306); (314, 328, 2, 313); (331, 375, 2, 330);
    (378, 382, 2, 377); (383, 383, 1, 83); (384, 384, 1, 579);
    (387, 389, 2, 386); (392, 392, 1, 391); (396, 396, 1, 395);
    (402, 402, 1, 401); (405, 405, 1, 502); (409, 409, 1, 408);
    (410, 410, 1, 573); (414, 414, 1, 544); (417, 421, 2, 416);
    (424, 424, 1, 423); (429, 429, 1, 428); (432, 432, 1, 431);
    (436, 438, 2, 435); (441, 441, 1, 440); (445, 445, 1, 444);
    (447, 447, 1, 503); (453, 453, 1, 452); (454, 454, 1, 452);
    (456, 456, 1, 455); (457, 457, 1, 455); (459, 459, 1, 458);
    (460, 460, 1, 458); (462, 476, 2, 461); (477, 477, 1, 398);
    (479, 495, 2, 478); (498, 498, 1, 497); (499, 499, 1, 497);
    (501, 501, 1, 500); (505, 543, 2, 504); (547, 563, 2, 546);
    (572, 572, 1, 571); (575, 576, 1, 11390); (578, 578, 1, 577);
    (583, 591, 2, 582); (592, 592, 1, 11375); (593, 593, 1, 11373);
    (594, 594, 1, 11376); (595, 595, 1, 385); (596, 596, 1, 390);
    (598, 599, 1, 393); (601, 601, 1, 399); (603, 603, 1, 400);
    (604, 604, 1, 42923); (608, 608, 1, 403); (609, 609, 1, 42924);
    (611, 611, 1, 404); (613, 613, 1, 42893); (614, 614, 1, 42922);
    (616, 616, 1, 407); (617, 617, 1, 406); (618, 618, 1, 42926);
    (619, 619, 1, 11362); (620, 620, 1, 42925); (623, 623, 1, 412);
    (625, 625, 1, 11374); (626, 626, 1, 413); (629, 629, 1, 415);
    (637, 637, 1, 11364); (640, 640, 1, 422); (642, 642, 1, 42949);
    (643, 643, 1, 425); (647, 647, 1, 42929); (648, 648, 1, 430);
    (649, 649, 1, 580); (650, 651, 1, 433); (652, 652, 1, 581);
    (658, 658, 1, 439); (669, 669, 1, 42930); (670, 670, 1, 42928);
    (837, 837, 1, 921); (881, 883, 2, 880); (887, 887, 1, 886);
    (891, 893, 1, 1021); (940, 940, 1, 902); (941, 943, 1, 904);
    (945, 961, 1, 913); (962, 962, 1, 931); (963, 971, 1, 931);
    (972, 972, 1, 908); (973, 974, 1, 910); (976, 976, 1, 914);
    (977, 977, 1, 920); (981, 981, 1, 934); (982, 982, 1, 928);
    (983, 983, 1, 975); (985, 1007, 2, 984); (1008, 1008, 1, 922);
    (1009, 1009, 1, 929); (1010, 1010, 1, 1017); (1011, 1011, 1, 895);
    (1013, 1013, 1, 917); (1016, 1016, 1, 1015); (1019, 1019, 1, 1018);
    (1072, 1103, 1, 1040); (1104, 1119, 1, 1024); (1121, 1153, 2, 1120);
    (1163, 1215, 2, 1162); (1218, 1230, 2, 1217); (1231, 1231, 1, 1216);
    (1233, 1327, 2, 1232); (1377, 1414, 1, 1329); (4304, 4346, 1, 7312);
    (4349, 4351, 1, 7357); (5112, 5117, 1, 5104); (7296, 7296, 1, 1042);
    (7297, 7297, 1, 1044); (7298, 7298, 1, 1054); (7299, 7300, 1, 1057);
    (7301, 7301, 1, 1058); (7302, 7302, 1, 1066); (7303, 7303, 1, 1122);
    (7304, 7304, 1, 42570); (7545, 7545, 1, 42877); (7549, 7549, 1, 11363);
    (7566, 7566, 1, 42950); (7681, 7829, 2, 7680); (7835, 7835, 1, 7776);
    (7841, 7935, 2, 7840); (7936, 7943, 1, 7944); (7952, 7957, 1, 7960);
    (7968, 7975, 1, 7976); (7984, 7991, 1, 7992); (8000, 8005, 1, 8008);
    (8017, 8023, 2, 8025); (8032, 8039, 1, 8040); (8048, 8049, 1, 8122);
    (8050, 8053, 1, 8136); (8054, 8055, 1, 8154); (8056, 8057, 1, 8184);
    (8058, 8059, 1, 8170); (8060, 8061, 1, 8186); (8112, 8113, 1, 8120);
    (8126, 8126, 1, 921); (8144, 8145, 1, 8152); (8160, 8161, 1, 8168);
    (8165, 8165, 1, 8172); (8526, 8526, 1, 8498); (8560, 8575, 1, 8544);
    (8580, 8580, 1, 8579); (9424, 9449, 1, 9398); (11312, 11359, 1, 11264);
    (11361, 11361, 1, 11360); (11365, 11365, 1, 570); (11366, 11366, 1, 574);
    (11368, 11372, 2, 11367); (11379, 11379, 1, 11378); (11382, 11382, 1, 11381);
    (11393, 11491, 2, 11392); (11500, 11502, 2, 11499); (11507, 11507, 1, 11506);
    (11520, 11557, 1, 4256); (11559, 11559, 1, 4295); (11565, 11565, 1, 4301);
    (42561, 42605, 2, 42560); (42625, 42651, 2, 42624); (42787, 42799, 2, 42786);
    (42803, 42863, 2, 42802); (42874, 42876, 2, 42873); (42879, 42887, 2, 42878);
    (42892, 42892, 1, 42891); (42897, 42899, 2, 42896); (42900, 42900, 1, 42948);
    (42903, 42921, 2, 42902); (42933, 42947, 2, 42932); (42952, 42954, 2, 42951);
    (42961, 42961, 1, 42960); (42967, 42969, 2, 42966); (42998, 42998, 1, 42997);
    (43859, 43859, 1, 42931); (43888, 43967, 1, 5024); (65345, 65370, 1, 65313) ]%N.

Definition specialUpper : list (N * list N) :=
  [ (223, [83; 83]); (329, [700; 78]); (496, [74; 780]); (912, [921; 776; 769]);
    (944, [933; 776; 769]); (1415, [1333; 1362]); (7830, [72; 817]);
    (7831, [84; 776]); (7832, [87; 778]); (7833, [89; 778]); (7834, [65; 702]);
    (8016, [933; 787]); (8018, [933; 787; 768]); (8020, [933; 787; 769]);
    (8022, [933; 787; 834]); (8064, [7944; 921]); (8065, [7945; 921]);
    (8066, [7946; 921]); (8067, [7947; 921]); (8068, [7948; 921]);
    (8069, [7949; 921]); (8070, [7950; 921]); (8071, [7951; 921]);
    (8072, [7944; 921]); (8073, [7945; 921]); (8074, [7946; 921]);
    (8075, [7947; 921]); (8076, [7948; 921]); (8077, [7949; 921]);
    (8078, [7950; 921]); (8079, [7951; 921]); (8080, [7976; 921]);
    (8081, [7977; 921]); (8082, [7978; 921]); (8083, [7979; 921]);
    (8084, [7980; 921]); (8085, [7981; 921]); (8086, [7982; 921]);
    (8087, [7983; 921]); (8088, [7976; 921]); (8089, [7977; 921]);
    (8090, [7978; 921]); (8091, [7979; 921]); (8092, [7980; 921]);
    (8093, [7981; 921]); (8094, [7982; 921]); (8095, [7983; 921]);
    (8096, [8040; 921]); (8097, [8041; 921]); (8098, [8042; 921]);
    (8099, [8043; 921]); (8100, [8044; 921]); (8101, [8045; 921]);
    (8102, [8046; 921]); (8103, [8047; 921]); (8104, [8040; 921]);
    (8105, [8041; 921]); (8106, [8042; 921]); (8107, [8043; 921]);
    (8108, [8044; 921]); (8109, [8045; 921]); (8110, [8046; 921]);
    (8111, [8047; 921]); (8114, [8122; 921]); (8115, [913; 921]);
    (8116, [902; 921]); (8118, [913; 834]); (8119, [913; 834; 921]);
    (8124, [913; 921]); (8130, [8138; 921]); (8131, [919; 921]);
    (8132, [905; 921]); (8134, [919; 834]); (8135, [919; 834; 921]);
    (8140, [919; 921]); (8146, [921; 776; 768]); (8147, [921; 776; 769]);
    (8150, [921; 834]); (8151, [921; 776; 834]); (8162, [933; 776; 768]);
    (8163, [933; 776; 769]); (8164, [929; 787]); (8166, [933; 834]);
    (8167, [933; 776; 834]); (8178, [8186; 921]); (8179, [937; 921]);
    (8180, [911; 921]); (8182, [937; 834]); (8183, [937; 834; 921]);
    (8188, [937; 921]); (64256, [70; 70]); (64257, [70; 73]); (64258, [70; 76]);
    (64259, [70; 70; 73]); (64260, [70; 70; 76]); (64261, [83; 84]);
    (64262, [83; 84]); (64275, [1348; 1350]); (64276, [1348; 1333]);
    (64277, [1348; 1339]); (64278, [1358; 1350]); (64279, [1348; 1341]) ]%N.

Fixpoint lookupSimple (t : list (N * N * N * N)) (c : code_unit) : option code_unit :=
  match t with
  | [] => None
  | (lo, hi, step, img) :: t' =>
      if (c <? lo)%N then None
      else if ((c <=? hi) && ((c - lo) mod step =? 0))%N then Some (img + (c - lo))%N
      else lookupSimple t' c
  end.

Fixpoint lookupSpecial (t : list (N * list N)) (c : code_unit) : option jsstring :=
  match t with
  | [] => None
  | (k, us) :: t' =>
      if (c <? k)%N then None
      else if (c =? k)%N then Some us
      else lookupSpecial t' c
  end.

(** Upper case of the one-unit string [c]. *)
Definition upperUnit (c : code_unit) : jsstring :=
  match lookupSimple simpleUpper c with
  | Some u => [u]
  | None =>
      match lookupSpecial specialUpper c with
      | Some us => us
      | None => [c]
      end
  end.

(** [s.toUpperCase()].  Code units are converted one by one, which is
    exact for strings without surrogate pairs; the decomposer applies it
    to [charAt(0)] only, a string of at most one code unit. *)
Definition toUpperCase (s : jsstring) : jsstring := flat_map upperUnit s.

(** [Canonicalize] of the regular-expression semantics for the [i] flag
    without the [u] flag. *)
Definition Canonicalize (ch : code_unit) : code_unit :=
  match upperUnit ch with
  | [u] => if ((128 <=? ch) && (u <? 128))%N then ch else u
  | _ => ch
  end.

Arguments upperUnit c : simpl never.
Arguments Canonicalize ch : simpl never.

(* ================================================================== *)
(** ** Regular expressions

    The fragment of the ECMAScript pattern language that the route uses:
    literal characters, classes, [\s], [\d], [.], sequence, alternation,
    greedy [*] and [+] over a single class, greedy [?] over a group, one
    capture group and a one-character lookbehind. *)

Inductive cclass : Type :=
| CChar (c : code_unit)          (* a literal character *)
| CSet (cs : list code_unit)     (* [...] over literal characters *)
| CSpace                         (* \s *)
| CDigit                         (* \d *)
| CDot.                          (* .  (no s flag) *)

Inductive regex : Type :=
| REmpty
| RClass (cl : cclass)
| RSeq (r1 r2 : regex)
| RAlt (r1 r2 : regex)
| RStar (cl : cclass)            (* cl*   *)
| RPlus (cl : cclass)            (* cl+   *)
| ROpt (r : regex)               (* (?:r)? *)
| RGroup (r : regex)             (* (r), capture group 1 *)
| RLookbehind (cl : cclass).     (* (?<=cl) *)

Record RegExp : Type := mkRegExp {
  pattern : regex;
  ignoreCase : bool              (* the i flag *)
}.

(** Does the class accept the code unit?  With the [i] flag a class accepts
    [c] when one of its members has the canonical form of [c]; for [.]
    the members are all code units but the line terminators, which are
    their own canonical forms and nobody else's. *)
Definition classMatches (ic : bool) (cl : cclass) (c : code_unit) : bool :=
  let among (l : list code_unit) :=
    if ic then existsb (fun a => N.eqb (Canonicalize a) (Canonicalize c)) l
    else mem c l in
  match cl with
  | CChar a => among [a]
  | CSet l => among l
  | CSpace => among whiteSpaceUnits
  | CDigit => among decimalDigits
  | CDot => negb (isLineTerminator c)
  end.

Arguments classMatches ic cl c : simpl never.

(** Matcher state: the input before the current position (nearest code
    unit first), the input from the current position on, and the text of
    capture group 1 if it has been set. *)
Record mstate : Type := mkState {
  behind : jsstring;
  ahead : jsstring;
  capture : option jsstring
}.

(** Greedy iteration of a class, longest run first. *)
Fixpoint starMatch (ic : bool) (cl : cclass) (b a : jsstring) (cap : option jsstring)
    (k : mstate -> option mstate) : option mstate :=
  match a with
  | c :: a' =>
      if classMatches ic cl c then
        match starMatch ic cl (c :: b) a' cap k with
        | Some r => Some r
        | None => k (mkState b a cap)
        end
      else k (mkState b a cap)
  | [] => k (mkState b a cap)
  end.

(** Backtracking matcher in continuation-passing style: [matcher ic r st k]
    tries the ways [r] matches at [st] in priority order and returns the
    first for which the continuation [k] succeeds. *)
Fixpoint matcher (ic : bool) (r : regex) (st : mstate)
    (k : mstate -> option mstate) : option mstate :=
  match r with
  | REmpty => k st
  | RClass cl =>
      match ahead st with
      | c :: a' =>
          if classMatches ic cl c
          then k (mkState (c :: behind st) a' (capture st))
          else None
      | [] => None
      end
  | RSeq r1 r2 => matcher ic r1 st (fun st' => matcher ic r2 st' k)
  | RAlt r1 r2 =>
      match matcher ic r1 st k with
      | Some res => Some res
      | None => matcher ic r2 st k
      end
  | RStar cl => starMatch ic cl (behind st) (ahead st) (capture st) k
  | RPlus cl =>
      match ahead st with
      | c :: a' =>
          if classMatches ic cl c
          then starMatch ic cl (c :: behind st) a' (capture st) k
          else None
      | [] => None
      end
  | ROpt r' =>
      match matcher ic r' st
              (fun st' => if length (ahead st') =? length (ahead st)
                          then None else k st') with
      | Some res => Some res
      | None => k st
      end
  | RGroup r' =>
      matcher ic r' st
        (fun st' =>
           k (mkState (behind st') (ahead st')
                (Some (firstn (length (ahead st) - length (ahead st')) (ahead st)))))
  | RLookbehind cl =>
      match behind st with
      | c :: _ => if classMatches ic cl c then k st else None
      | [] => None
      end
  end.

(** The match object: [m.index], [m[0]] and [m[1]]. *)
Record MatchResult : Type := mkMatch {
  index : nat;
  match0 : jsstring;
  group1 : option jsstring
}.

(** One attempt at the current position (a sticky match). *)
Definition matchAt (re : RegExp) (b a : jsstring) : option MatchResult :=
  match matcher (ignoreCase re) (pattern re) (mkState b a None) Some with
  | Some st' =>
      Some (mkMatch (length b)
              (firstn (length a - length (ahead st')) a)
              (capture st'))
  | None => None
  end.

(** Leftmost match at or after the current position. *)
Fixpoint search (re : RegExp) (b a : jsstring) : option MatchResult :=
  match matchAt re b a with
  | Some mr => Some mr
  | None =>
      match a with
      | [] => None
      | c :: a' => search re (c :: b) a'
      end
  end.

(** [RegExpBuiltinExec]: the search starts at [lastIndex] and fails when
    [lastIndex] is beyond the end of the string. *)
Definition RegExpBuiltinExec (re : RegExp) (s : jsstring) (lastIndex : nat)
  : option MatchResult :=
  if length s <? lastIndex then None
  else search re (rev (firstn lastIndex s)) (skipn lastIndex s).

(** [s.match(re)] for a regular expression without the [g] flag. *)
Definition String_match (s : jsstring) (re : RegExp) : option MatchResult :=
  RegExpBuiltinExec re s 0.

(** [while ((m = re.exec(s)) !== null) { body }] for a regular expression
    with the [g] flag: each match moves [lastIndex] to its end.  [None]
    when the fuel runs out. *)
Fixpoint execLoop {A : Type} (fuel : nat) (re : RegExp) (s : jsstring)
    (lastIndex : nat) (body : MatchResult -> A -> A) (acc : A) : option A :=
  match fuel with
  | O => None
  | S fuel' =>
      match RegExpBuiltinExec re s lastIndex with
      | None => Some acc
      | Some mr =>
          execLoop fuel' re s (index mr + length (match0 mr)) body (body mr acc)
      end
  end.

(** [s.split(re)] without a limit and for a pattern without capture
    groups.  [cur] is the text between the end [p] of the last separator
    and the current position [q]; a separator is accepted unless its end
    equals [p], that is unless it is empty and [cur] is empty too. *)
Fixpoint splitLoop (fuel : nat) (re : RegExp) (b a cur : jsstring)
    (acc : list jsstring) : option (list jsstring) :=
  match fuel with
  | O => None
  | S fuel' =>
      match a with
      | [] => Some (acc ++ [cur])
      | c :: a' =>
          match matchAt re b a with
          | None => splitLoop fuel' re (c :: b) a' (cur ++ [c]) acc
          | Some mr =>
              let n := length (match0 mr) in
              if (n =? 0) && (length cur =? 0)
              then splitLoop fuel' re (c :: b) a' (cur ++ [c]) acc
              else splitLoop fuel' re (rev (match0 mr) ++ b) (skipn n a) []
                     (acc ++ [cur])
          end
      end
  end.

Definition split (s : jsstring) (re : RegExp) : option (list jsstring) :=
  match s with
  | [] => match matchAt re [] [] with
          | Some _ => Some []
          | None => Some [[]]
          end
  | _ :: _ => splitLoop (2 * length s + 1) re [] s [] []
  end.

(** *** Writing patterns *)

Definition chr (s : String.string) : regex := RClass (CChar (cu s)).

Fixpoint rseq (rs : list regex) : regex :=
  match rs with
  | [] => REmpty
  | [r] => r
  | r :: rs' => RSeq r (rseq rs')
  end.

Fixpoint ralt (r : regex) (rs : list regex) : regex :=
  match rs with
  | [] => r
  | r' :: rs' => RAlt r (ralt r' rs')
  end.

(** A literal word, one character after the other. *)
Definition word (s : String.string) : regex :=
  rseq (map (fun c => RClass (CChar c)) (js s)).

Arguments chr s%_string.
Arguments word s%_string.

(** Option monad for the loops with fuel. *)
Definition bind {A B : Type} (x : option A) (f : A -> option B) : option B :=
  match x with
  | Some a => f a
  | None => None
  end.

Notation "x <- e1 ;; e2" := (bind e1 (fun x => e2))
  (at level 61, e1 at next level, right associativity).

(* ================================================================== *)
(** ** The decomposer *)

(** [{ task: string; subtasks?: string[] }]; the fallback never sets
    [subtasks]. *)
Record TaskDescriptor : Type := mkTask {
  task : jsstring;
  subtasks : option (list jsstring)
}.

Definition descriptor (t : jsstring) : TaskDescriptor := mkTask t None.

(** Fuel for the [exec] loops over a string: every iteration but the last
    moves [lastIndex] forward. *)
Definition execFuel (s : jsstring) : nat := S (length s).

(** *** Line split: [prompt.split(/\n+/).filter(...)] *)

Definition newlineRegex : RegExp := mkRegExp (RPlus (CChar LF)) false.

Definition lines (prompt : jsstring) : option (list jsstring) :=
  segments <- split prompt newlineRegex ;;
  Some (filter (fun line => 0 <? length (trim line)) segments).

Definition tasksFromLines (prompt : jsstring) : option (list TaskDescriptor) :=
  ls <- lines prompt ;;
  Some (map (fun line => descriptor (trim line)) ls).

(** *** Bullet points and numbered lists *)

(** [/\n\s*[-*â€¢+~]\s*(.+)/g].  The class is taken as the source file
    spells it: hyphen, asterisk, U+00E2, U+20AC, U+00A2, plus, tilde. *)
Definition bulletPointRegex : RegExp :=
  mkRegExp
    (rseq [RClass (CChar LF); RStar CSpace;
           RClass (CSet [45; 42; 226; 8364; 162; 43; 126]%N);
           RStar CSpace; RGroup (RPlus CDot)])
    false.

(** [/\n\s*(?:\d+[.)]|Step \d+:?)\s*(.+)/gi] *)
Definition numberedRegex : RegExp :=
  mkRegExp
    (rseq [RClass (CChar LF); RStar CSpace;
           RAlt (rseq [RPlus CDigit; RClass (CSet [cu "."; cu ")"])])
                (rseq [word "Step "; RPlus CDigit; ROpt (chr ":")]);
           RStar CSpace; RGroup (RPlus CDot)])
    true.

(** Body of both loops: [if (m[1] && m[1].trim().length > 0)
    points.push(m[1].trim())]. *)
Definition pushCapture (m : MatchResult) (points : list jsstring) : list jsstring :=
  match group1 m with
  | Some g =>
      if truthy g && (0 <? length (trim g)) then points ++ [trim g] else points
  | None => points
  end.

Definition bulletPoints (prompt : jsstring) : option (list jsstring) :=
  execLoop (execFuel prompt) bulletPointRegex prompt 0 pushCapture [].

Definition numberedPoints (prompt : jsstring) : option (list jsstring) :=
  execLoop (execFuel prompt) numberedRegex prompt 0 pushCapture [].

(** [points.filter((point) => point.length > 5).map((task) => ({ task }))] *)
Definition meaningfulPoints (points : list jsstring) : list TaskDescriptor :=
  map descriptor (filter (fun point => 5 <? length point) points).

(** *** Ordinal and connective separators *)

(** [/(?:\.|\n)\s*(?:marker)[,:]?\s+/i] *)
Definition separatorRegex (marker : regex) : RegExp :=
  mkRegExp
    (rseq [RAlt (chr ".") (RClass (CChar LF)); RStar CSpace; marker;
           ROpt (RClass (CSet [cu ","; cu ":"])); RPlus CSpace])
    true.

Definition taskSeparators : list RegExp :=
  [ separatorRegex (RAlt (word "First") (word "1st"));
    separatorRegex (RAlt (word "Second") (word "2nd"));
    separatorRegex (RAlt (word "Third") (word "3rd"));
    separatorRegex (RAlt (word "Fourth") (word "4th"));
    separatorRegex (RAlt (word "Fifth") (word "5th"));
    separatorRegex (RAlt (word "Sixth") (word "6th"));
    separatorRegex (RAlt (word "Seventh") (word "7th"));
    separatorRegex (RAlt (word "Eighth") (word "8th"));
    separatorRegex (RAlt (word "Ninth") (word "9th"));
    separatorRegex (RAlt (word "Tenth") (word "10th"));
    separatorRegex (word "Next");
    separatorRegex (word "Then");
    separatorRegex (word "Finally");
    separatorRegex (word "Additionally");
    separatorRegex (word "Moreover");
    separatorRegex (word "Furthermore");
    separatorRegex (word "Also") ].

(** One iteration of [for (const separator of taskSeparators)] on the pair
    [(tasks, remainingPrompt)]. *)
Definition separatorStep (st : list jsstring * jsstring) (separator : RegExp)
  : list jsstring * jsstring :=
  let (tasks, remainingPrompt) := st in
  match String_match remainingPrompt separator with
  | Some m =>
      let beforeTask := trim (substring remainingPrompt 0 (Some (index m + 1))) in
      (if truthy beforeTask && negb (includes tasks beforeTask)
            && (10 <? length beforeTask)
       then tasks ++ [beforeTask] else tasks,
       substring remainingPrompt (index m + length (match0 m)) None)
  | None => st
  end.

Definition separatorPass (prompt : jsstring) : list jsstring * jsstring :=
  fold_left separatorStep taskSeparators ([], prompt).

(** *** Task phrases *)

(** [/(?:\.|\n)\s*(?:(?:(?:The|A|This|Your)\s+)?(?:task|step|part|phase|stage)\s+(?:is|will be)\s+to\s+|(?:You\s+(?:need|should|must|have to)\s+))/gi] *)
Definition taskPhraseRegex : RegExp :=
  mkRegExp
    (rseq [RAlt (chr ".") (RClass (CChar LF)); RStar CSpace;
           RAlt
             (rseq [ROpt (rseq [ralt (word "The") [word "A"; word "This"; word "Your"];
                                RPlus CSpace]);
                    ralt (word "task") [word "step"; word "part"; word "phase"; word "stage"];
                    RPlus CSpace;
                    RAlt (word "is") (word "will be");
                    RPlus CSpace; word "to"; RPlus CSpace])
             (rseq [word "You"; RPlus CSpace;
                    ralt (word "need") [word "should"; word "must"; word "have to"];
                    RPlus CSpace])])
    true.

(** Body of the task-phrase loop: the text from the end of the match to the
    next period (included) or to the end of the prompt. *)
Definition phraseStep (taskPhrasePrompt : jsstring) (m : MatchResult)
    (tasks : list jsstring) : list jsstring :=
  let start := index m + length (match0 m) in
  let endIndex := indexOf taskPhrasePrompt (cu ".") start in
  let taskPhrase :=
    trim (substring taskPhrasePrompt start
            (match endIndex with Some e => Some (e + 1) | None => None end)) in
  if truthy taskPhrase && (10 <? length taskPhrase) && negb (includes tasks taskPhrase)
  then tasks ++ [taskPhrase] else tasks.

Definition keywordPass (prompt : jsstring) (tasks : list jsstring)
  : option (list jsstring) :=
  execLoop (execFuel prompt) taskPhraseRegex prompt 0 (phraseStep prompt) tasks.

(** *** Remaining text
    [if (remainingPrompt.trim() && remainingPrompt.length > 10)
       tasks.push(remainingPrompt.trim())] *)
Definition remainderAppended (remainingPrompt : jsstring) : bool :=
  truthy (trim remainingPrompt) && (10 <? length remainingPrompt).

Definition appendRemainder (tasks : list jsstring) (remainingPrompt : jsstring)
  : list jsstring :=
  if remainderAppended remainingPrompt then tasks ++ [trim remainingPrompt] else tasks.

(** *** Sentences: [prompt.split(/(?<=\.)\s+/)] *)

Definition sentenceBoundary : RegExp :=
  mkRegExp (RSeq (RLookbehind (CChar (cu "."))) (RPlus CSpace)) false.

Definition sentences (prompt : jsstring) : option (list jsstring) :=
  segments <- split prompt sentenceBoundary ;;
  Some (map trim (filter (fun sentence => 15 <? length (trim sentence)) segments)).

(** *** Chunks of words: [prompt.split(/\s+/)] *)

Definition whitespaceRegex : RegExp := mkRegExp (RPlus CSpace) false.

(** [for (let i = 0; i < words.length; i += chunkSize)] *)
Fixpoint chunkLoop (fuel : nat) (words : list jsstring) (chunkSize i : nat)
    (tasks : list jsstring) : option (list jsstring) :=
  match fuel with
  | O => None
  | S fuel' =>
      if i <? length words then
        let chunk := join [SP] (slice words i (i + chunkSize)) in
        chunkLoop fuel' words chunkSize (i + chunkSize)
          (if 0 <? length (trim chunk) then tasks ++ [chunk] else tasks)
      else Some tasks
  end.

Definition chunks (prompt : jsstring) : option (list jsstring) :=
  words <- split prompt whitespaceRegex ;;
  let chunkSize := Nat.max 5 (length words / 3) in
  chunkLoop (S (length words)) words chunkSize 0 [].

(** *** Normalisation and bound *)

(** [task.charAt(0).toUpperCase() + task.slice(1)] *)
Definition capitalize (task : jsstring) : jsstring :=
  toUpperCase (charAt task 0) ++ sliceFrom task 1.

Definition normalize (tasks : list jsstring) : list jsstring :=
  map capitalize (filter (fun task => 0 <? length task) (map trim tasks)).

Definition maxTasks : nat := 5.

Definition limit (tasks : list jsstring) : list jsstring :=
  if maxTasks <? length tasks then slice tasks 0 maxTasks else tasks.

(** *** The cascade *)

(** The candidate tasks: separators, task phrases and remainder; if that
    leaves at most one task, the sentences; if that leaves at most one
    task, the chunks. *)
Definition candidates (prompt : jsstring) : option (list jsstring) :=
  let (tasks, remainingPrompt) := separatorPass prompt in
  tasks <- keywordPass prompt tasks ;;
  let tasks := appendRemainder tasks remainingPrompt in
  tasks <- (if length tasks <=? 1 then sentences prompt else Some tasks) ;;
  if length tasks <=? 1 then chunks prompt else Some tasks.

(** Normalisation, bound and the last resort: the prompt itself when no
    task is left. *)
Definition finish (prompt : jsstring) (tasks : list jsstring)
  : list TaskDescriptor :=
  let tasks := limit (normalize tasks) in
  if length tasks =? 0 then [descriptor prompt] else map descriptor tasks.

(** Everything after the list detection. *)
Definition cascade (prompt : jsstring) : option (list TaskDescriptor) :=
  tasks <- candidates prompt ;;
  Some (finish prompt tasks).

(** [fallbackBreakdown(prompt)]; the result is what the returned promise
    resolves to, [None] stands for a loop that does not end within its
    fuel. *)
Definition fallbackBreakdown (prompt : jsstring) : option (list TaskDescriptor) :=
  tasksFromLines <- tasksFromLines prompt ;;
  if 2 <=? length tasksFromLines then Some tasksFromLines
  else
    bulletPoints <- bulletPoints prompt ;;
    numberedPoints <- numberedPoints prompt ;;
    if 2 <=? length bulletPoints then Some (meaningfulPoints bulletPoints)
    else if 2 <=? length numberedPoints then Some (meaningfulPoints numberedPoints)
    else cascade prompt.

(* ================================================================== *)
(** * Notions of the statements *)

(** ** Blank strings and lines

    The specification speaks of non-blank lines: the lines of a text are
    the pieces between consecutive line feeds, and a line is blank when it
    holds white space only. *)

Definition blank (s : jsstring) : bool := forallb isWhiteSpace s.

Fixpoint linesOf (s : jsstring) : list jsstring :=
  match s with
  | [] => [[]]
  | c :: s' =>
      if N.eqb c LF then [] :: linesOf s'
      else match linesOf s' with
           | l :: ls => (c :: l) :: ls
           | [] => [[c]]
           end
  end.

Definition nonBlankLines (s : jsstring) : list jsstring :=
  filter (fun l => negb (blank l)) (linesOf s).

(** ** Shapes of tasks *)

(** A candidate task as the separator, phrase, remainder and sentence
    passes produce them, and a line as the line split returns it: not
    empty and trimmed. *)
Definition goodTask (t : jsstring) : Prop := t <> [] /\ trim t = t.

(** A normalised task: not empty, no white space at either end, and a
    first code unit that is its own upper case. *)
Definition normalForm (t : jsstring) : Prop :=
  t <> [] /\ trim t = t /\ toUpperCase (charAt t 0) = charAt t 0.

(** Every code unit of [t] that is no white space occurs in [s]. *)
Definition drawnFrom (s t : jsstring) : Prop :=
  forall c, In c t -> isWhiteSpace c = false -> In c s.

(** ** Matches of a global expression *)

(** All the matches of a [g] expression over a string, as the [exec] loop
    meets them. *)
Definition execAll (re : RegExp) (s : jsstring) : option (list MatchResult) :=
  execLoop (execFuel s) re s 0 (fun m acc => acc ++ [m]) [].

(** ** The decomposer without the list branches

    [fallbackBreakdown] with the bullet-point and numbered-list detection
    taken out: the line split, then the cascade. *)
Definition fallbackBreakdownWithoutLists (prompt : jsstring)
  : option (list TaskDescriptor) :=
  tasksFromLines <- tasksFromLines prompt ;;
  if 2 <=? length tasksFromLines then Some tasksFromLines
  else cascade prompt.

(** ** Prompts of the examples *)

(** ["Buy milk\nWalk the dog\nPay bills"] *)
Definition promptShopping : jsstring :=
  js "Buy milk" ++ [LF] ++ js "Walk the dog" ++ [LF] ++ js "Pay bills".

(** The same kind of list written in lower case. *)
Definition promptLowerCase : jsstring :=
  js "buy milk" ++ [LF] ++ js "walk the dog".

(** ["1. a\n2. b\n3. c\n4. d\n5. e\n6. f\n7. g\n8. h"] *)
Definition eightItems : list jsstring :=
  [js "1. a"; js "2. b"; js "3. c"; js "4. d";
   js "5. e"; js "6. f"; js "7. g"; js "8. h"].

Definition promptEight : jsstring := join [LF] eightItems.

(** ["Do the project.\n- design the schema\n- write the code\n- test it"] *)
Definition promptBullets : jsstring :=
  join [LF] [js "Do the project."; js "- design the schema";
             js "- write the code"; js "- test it"].

Definition promptHi : jsstring := js "hi".

(** A tail of two letters and nine spaces after the separator. *)
Definition shortTail : jsstring := js "ok         ".

Definition promptShortTail : jsstring := js "Design the schema. Then " ++ shortTail.

(** The tail after [Then] repeats the text after [You must]. *)
Definition promptDuplicate : jsstring :=
  js "Setup. You must deploy the app. Then deploy the app.".




(** ["\ud801\udc28bc defgh"]: the first letter is U+10428, a small letter
    whose capital is U+10400; it takes two code units. *)
Definition promptDeseret : jsstring :=
  [55297%N; 56360%N] ++ js "bc defgh".

(* ================================================================== *)
(** * Notions of the proofs *)

(** ** Checking the case tables

    The code units that have an upper case of their own are the members
    of the two tables; facts about [upperUnit] are checked on them by
    computation and hold trivially for all other code units. *)

Definition rangeUnits (e : N * N * N * N) : list code_unit :=
  let '(lo, hi, step, _) := e in
  map (fun k => (lo + N.of_nat k * step)%N)
      (seq 0 (S (N.to_nat ((hi - lo) / step)))).

Definition casedUnits : list code_unit :=
  flat_map rangeUnits simpleUpper ++ map fst specialUpper.

(** What the proofs need to know about the upper case of a code unit [c]:
    it is not empty; it neither starts nor ends with white space unless
    [c] is white space; its first code unit is its own upper case; and
    white space, digits and the full stop are canonical forms of
    themselves only. *)
Definition unitCheck (c : code_unit) : bool :=
  let u := upperUnit c in
  match u with
  | [] => false
  | h :: _ =>
      (isWhiteSpace c
       || (negb (isWhiteSpace h) && negb (isWhiteSpace (last u h))))
      && match upperUnit h with [h'] => N.eqb h' h | _ => false end
      && (negb (isWhiteSpace (Canonicalize c)
                || mem (Canonicalize c) decimalDigits
                || N.eqb (Canonicalize c) (cu "."))
          || N.eqb (Canonicalize c) c)
  end.

(** White space, digits and the full stop: code units without case. *)
Definition uncasedUnit (a : code_unit) : bool :=
  isWhiteSpace a || mem a decimalDigits || N.eqb a (cu ".").

(** The code units [0xD800]..[0xDFFF], the halves of the characters
    beyond [0xFFFF]. *)
Definition isSurrogate (c : code_unit) : bool :=
  ((55296 <=? c) && (c <=? 57343))%N.

(** No white space at the front. *)
Definition headOk (s : jsstring) : Prop :=
  match s with
  | c :: _ => isWhiteSpace c = false
  | [] => True
  end.

(** ** Declarative reading of patterns

    [steps ic r st st'] holds when [r] can consume the input from [st] to
    [st']; the matcher only ever returns such states. *)
Inductive steps (ic : bool) : regex -> mstate -> mstate -> Prop :=
| steps_empty : forall st, steps ic REmpty st st
| steps_class : forall cl c b a cap,
    classMatches ic cl c = true ->
    steps ic (RClass cl) (mkState b (c :: a) cap) (mkState (c :: b) a cap)
| steps_seq : forall r1 r2 st st' st'',
    steps ic r1 st st' -> steps ic r2 st' st'' -> steps ic (RSeq r1 r2) st st''
| steps_alt_l : forall r1 r2 st st',
    steps ic r1 st st' -> steps ic (RAlt r1 r2) st st'
| steps_alt_r : forall r1 r2 st st',
    steps ic r2 st st' -> steps ic (RAlt r1 r2) st st'
| steps_star_nil : forall cl st, steps ic (RStar cl) st st
| steps_star_cons : forall cl c b a cap st',
    classMatches ic cl c = true ->
    steps ic (RStar cl) (mkState (c :: b) a cap) st' ->
    steps ic (RStar cl) (mkState b (c :: a) cap) st'
| steps_plus : forall cl c b a cap st',
    classMatches ic cl c = true ->
    steps ic (RStar cl) (mkState (c :: b) a cap) st' ->
    steps ic (RPlus cl) (mkState b (c :: a) cap) st'
| steps_opt_none : forall r st, steps ic (ROpt r) st st
| steps_opt_some : forall r st st',
    steps ic r st st' -> steps ic (ROpt r) st st'
| steps_group : forall r st st',
    steps ic r st st' ->
    steps ic (RGroup r) st
      (mkState (behind st') (ahead st')
         (Some (firstn (length (ahead st) - length (ahead st')) (ahead st))))
| steps_lookbehind : forall cl c b a cap,
    classMatches ic cl c = true ->
    steps ic (RLookbehind cl) (mkState (c :: b) a cap) (mkState (c :: b) a cap).

(** [st'] is [st] moved forward over the word [w]. *)
Definition consumes (st : mstate) (w : jsstring) (st' : mstate) : Prop :=
  ahead st = w ++ ahead st' /\ behind st' = rev w ++ behind st.

(** Every match of the expression is at least one code unit long, so that
    an [exec] loop over it moves forward. *)
Definition advances (re : RegExp) : Prop :=
  forall b a mr, matchAt re b a = Some mr -> match0 mr <> [].

(** The members of a class that is given by a list. *)
Definition classMembers (cl : cclass) : option (list code_unit) :=
  match cl with
  | CChar a => Some [a]
  | CSet l => Some l
  | CSpace => Some whiteSpaceUnits
  | CDigit => Some decimalDigits
  | CDot => None
  end.

(** A class given by a list that holds no white space. *)
Definition nonwsClass (cl : cclass) : bool :=
  match classMembers cl with
  | Some l => forallb (fun a => negb (isWhiteSpace a)) l
  | None => false
  end.

(** The classes one of which accepts the first code unit of every match,
    for patterns that cannot match the empty string at their head. *)
Fixpoint firstClasses (r : regex) : option (list cclass) :=
  match r with
  | RClass cl | RPlus cl => Some [cl]
  | RSeq r1 _ => firstClasses r1
  | RAlt r1 r2 =>
      match firstClasses r1, firstClasses r2 with
      | Some l1, Some l2 => Some (l1 ++ l2)
      | _, _ => None
      end
  | RGroup r' => firstClasses r'
  | _ => None
  end.

(** The shape of every match of the two list patterns: a line feed, then
    at least one code unit that is no white space. *)
Definition listItemShape (w : jsstring) : Prop :=
  exists x c y, w = LF :: x ++ c :: y /\ isWhiteSpace c = false.



(** ** Splitting at runs *)

(** The input after the longest run of code units that satisfy [p], and
    the run itself. *)
Fixpoint dropRun (p : code_unit -> bool) (a : jsstring) : jsstring :=
  match a with
  | c :: a' => if p c then dropRun p a' else a
  | [] => []
  end.

Fixpoint takeRun (p : code_unit -> bool) (a : jsstring) : jsstring :=
  match a with
  | c :: a' => if p c then c :: takeRun p a' else []
  | [] => []
  end.

(** Splitting at the maximal runs of separator code units, written by
    recursion on the input: [cur] is the segment being read, [inRun] tells
    whether the previous code unit was a separator. *)
Fixpoint splitRuns (p : code_unit -> bool) (inRun : bool) (cur a : jsstring)
  : list jsstring :=
  match a with
  | [] => [cur]
  | c :: a' =>
      if p c then
        if inRun then splitRuns p true [] a'
        else cur :: splitRuns p true [] a'
      else splitRuns p false (cur ++ [c]) a'
  end.

(** The separator test of [/\n+/]. *)
Definition isLF (c : code_unit) : bool := classMatches false (CChar LF) c.

(* ================================================================== *)
(** * Further notions *)

(** ** Patterns that need white space *)

(** Every match of the pattern runs over at least one white-space code
    unit: somewhere on each of its paths stands [\s+]. *)
Fixpoint needsSpace (r : regex) : bool :=
  match r with
  | RPlus CSpace => true
  | RSeq r1 r2 => needsSpace r1 || needsSpace r2
  | RAlt r1 r2 => needsSpace r1 && needsSpace r2
  | RGroup r' => needsSpace r'
  | _ => false
  end.

(** [t] is a contiguous piece of [s]. *)
Definition infix (t s : jsstring) : Prop := exists a b, s = a ++ t ++ b.

(** A full stop occurs in [t] as its last code unit at most. *)
Definition periodOnlyLast (t : jsstring) : Prop :=
  forall a b, t = a ++ cu "." :: b -> b = [].

(** ASCII upper case of one code unit. *)
Definition asciiUpper (c : code_unit) : code_unit :=
  if ((97 <=? c) && (c <=? 122))%N then (c - 32)%N else c.

(** What a piece cut out by the separator or the task-phrase pass looks
    like: more than 10 code units, trimmed, and a contiguous piece of the
    prompt. *)
Definition cutPiece (prompt t : jsstring) : Prop :=
  10 < length t /\ goodTask t /\ infix t prompt.

(** The upper case of a code unit holds a line feed only if the code unit
    is the line feed. *)
Definition lineFeedCheck (c : code_unit) : bool :=
  negb (mem LF (upperUnit c)) || N.eqb c LF.

(* ================================================================== *)
(** * The route and the hook *)

(** ** JSON values

    The values that [request.json()], [JSON.parse] and [response.json()]
    produce.  A number is kept by its literal, in the form in which
    [JSON.stringify] prints it; an object is the list of its own
    properties, each key once. *)
Unset Elimination Schemes.

Inductive json : Type :=
| JNull
| JBool (b : bool)
| JNum (literal : jsstring)
| JStr (s : jsstring)
| JArr (items : list json)
| JObj (fields : list (jsstring * json)).

Set Elimination Schemes.

Fixpoint assoc (k : jsstring) (fields : list (jsstring * json)) : option json :=
  match fields with
  | [] => None
  | (k', v) :: rest => if jsstring_eqb k k' then Some v else assoc k rest
  end.

(** [v.k] for a value [v] other than [null]; [None] is [undefined].  The
    keys the code reads ([message], [model], [provider], [apiKeys],
    [name], [task], [tasks]) are no properties of a prototype, so only
    the own properties of an object answer. *)
Definition getProp (v : json) (k : jsstring) : option json :=
  match v with
  | JObj fields => assoc k fields
  | _ => None
  end.

(** Does [ToString(v)], as a template literal applies it, throw?  An
    object with an own [toString] property has no callable [toString]
    left and its [valueOf] returns no primitive; an array joins the
    strings of its elements. *)
Fixpoint toStringThrows (v : json) : bool :=
  match v with
  | JObj fields =>
      match assoc (js "toString") fields with
      | Some _ => true
      | None => false
      end
  | JArr items => existsb toStringThrows items
  | _ => false
  end.

(** A promise that is settled: resolved with a value, or rejected. *)
Inductive Outcome (A : Type) : Type :=
| Resolved (a : A)
| Rejected.

Arguments Resolved {A} a.
Arguments Rejected {A}.

(** ** [breakdownPrompt] of the route *)

(** What happens on the way through the language model; the provider list,
    the model list, [generateText] and [JSON.parse] are not part of the
    route. *)
Inductive LlmPath : Type :=
| ProviderNotFound            (* PROVIDER_LIST.find found nothing *)
| ModelNotFound               (* models.find found nothing *)
| LlmError                    (* an import, the model list or generateText threw *)
| ParseError                  (* JSON.parse threw *)
| Parsed (tasks : json).      (* JSON.parse returned *)

(** [item && typeof item.task === 'string']; for a number the test fails
    whether the number is zero or not. *)
Definition validItem (item : json) : bool :=
  match item with
  | JObj fields =>
      match assoc (js "task") fields with
      | Some (JStr _) => true
      | _ => false
      end
  | _ => false
  end.

(** [Array.isArray(tasks) && tasks.length > 0 && tasks.every(...)] *)
Definition validTasks (tasks : json) : bool :=
  match tasks with
  | JArr items => (0 <? length items) && forallb validItem items
  | _ => false
  end.

(** The descriptors of the fallback as values. *)
Definition descriptorValue (d : TaskDescriptor) : json :=
  JObj ((js "task", JStr (task d))
        :: match subtasks d with
           | Some l => [(js "subtasks", JArr (map JStr l))]
           | None => []
           end).

Definition tasksValue (ds : list TaskDescriptor) : json :=
  JArr (map descriptorValue ds).

(** [return fallbackBreakdown(prompt)] at any of its five places.  If the
    prompt is no string, [prompt.split] is not a function: the call throws
    in the [try] block, throws again in the [catch] block, and the promise
    is rejected. *)
Definition fallbackFor (prompt : option json) : option (Outcome json) :=
  match prompt with
  | Some (JStr s) =>
      ds <- fallbackBreakdown s ;;
      Some (Resolved (tasksValue ds))
  | _ => Some Rejected
  end.

Definition breakdownPrompt (prompt : option json) (llm : LlmPath)
  : option (Outcome json) :=
  match llm with
  | ProviderNotFound => fallbackFor prompt
  | ModelNotFound => fallbackFor prompt
  | LlmError => fallbackFor prompt
  | ParseError => fallbackFor prompt
  | Parsed tasks =>
      if validTasks tasks then Some (Resolved tasks) else fallbackFor prompt
  end.

(** ** [action] *)

(** [await request.json()] *)
Inductive JsonOutcome : Type :=
| JsonRejected
| JsonResolved (data : json).

(** The two responses: status 200 with [{ tasks }], status 500 with
    [{ error }], whose message is the engine's. *)
Inductive Response : Type :=
| TasksResponse (tasks : json)
| ErrorResponse.

Definition status (r : Response) : nat :=
  match r with
  | TasksResponse _ => 200
  | ErrorResponse => 500
  end.

(** [typeof provider === 'string' ? provider : provider.name] *)
Definition providerNameOf (provider : option json) : Outcome (option json) :=
  match provider with
  | None => Rejected
  | Some JNull => Rejected
  | Some (JStr s) => Resolved (Some (JStr s))
  | Some v => Resolved (getProp v (js "name"))
  end.

(** Does [`${v}`] throw? *)
Definition templateThrows (v : option json) : bool :=
  match v with
  | Some v => toStringThrows v
  | None => false
  end.

Definition action (request : JsonOutcome) (llm : LlmPath) : option Response :=
  match request with
  | JsonRejected => Some ErrorResponse
  | JsonResolved JNull => Some ErrorResponse
  | JsonResolved data =>
      let message := getProp data (js "message") in
      let model := getProp data (js "model") in
      let provider := getProp data (js "provider") in
      match providerNameOf provider with
      | Rejected => Some ErrorResponse
      | Resolved providerName =>
          if templateThrows model || templateThrows providerName
          then Some ErrorResponse
          else
            tasks <- breakdownPrompt message llm ;;
            match tasks with
            | Resolved tasks => Some (TasksResponse tasks)
            | Rejected => Some ErrorResponse
            end
      end
  end.

(** ** The hook [useTaskBreakdown] *)

Module Hook.

(** [Task]; [content] is what the route sent for the task. *)
Record Task : Type := mkTask {
  id : jsstring;
  content : json;
  completed : bool
}.

(** The state of the hook: the store of the preference, its cookie, and
    the two [useState] cells. *)
Record State : Type := mkState {
  taskBreakdownEnabled : bool;
  cookie : option jsstring;
  tasks : list Task;
  isBreakingDown : bool
}.

(** [String(b)] *)
Definition booleanToString (b : bool) : jsstring :=
  if b then js "true" else js "false".

(** The store when the module is loaded: [false], or what the cookie says
    if there is a document and a cookie. *)
Definition initialPreference (document : bool) (saved : option jsstring) : bool :=
  if document then
    match saved with
    | Some s => jsstring_eqb s (js "true")
    | None => false
    end
  else false.

Definition toggleTaskBreakdown (st : State) : State :=
  let newValue := negb (taskBreakdownEnabled st) in
  mkState newValue (Some (booleanToString newValue)) (tasks st) (isBreakingDown st).

(** [`${index}`] for an index of an array. *)
Fixpoint digits (u : Decimal.uint) : jsstring :=
  match u with
  | Decimal.Nil => []
  | Decimal.D0 u' => 48%N :: digits u'
  | Decimal.D1 u' => 49%N :: digits u'
  | Decimal.D2 u' => 50%N :: digits u'
  | Decimal.D3 u' => 51%N :: digits u'
  | Decimal.D4 u' => 52%N :: digits u'
  | Decimal.D5 u' => 53%N :: digits u'
  | Decimal.D6 u' => 54%N :: digits u'
  | Decimal.D7 u' => 55%N :: digits u'
  | Decimal.D8 u' => 56%N :: digits u'
  | Decimal.D9 u' => 57%N :: digits u'
  end.

Definition indexToString (index : nat) : jsstring := digits (Nat.to_uint index).

(** [result.tasks.map((task, index) => ({ id: `task-${index}`, content:
    task, completed: false }))] *)
Fixpoint formatFrom (index : nat) (items : list json) : list Task :=
  match items with
  | [] => []
  | task :: rest =>
      mkTask (js "task-" ++ indexToString index) task false
      :: formatFrom (S index) rest
  end.

Definition formatTasks (items : list json) : list Task := formatFrom 0 items.

(** What [fetch] and the response do. *)
Inductive FetchOutcome : Type :=
| FetchRejected                        (* fetch threw *)
| ResponseNotOk                        (* response.ok is false *)
| ResponseOk (result : JsonOutcome).   (* response.ok, then response.json() *)

(** [typeof result === 'object' && result !== null && 'tasks' in result
    && Array.isArray(result.tasks)] *)
Definition responseTasks (result : json) : option (list json) :=
  match result with
  | JObj fields =>
      match assoc (js "tasks") fields with
      | Some (JArr items) => Some items
      | _ => None
      end
  | _ => None
  end.

(** [breakdownPrompt] of the hook: the state when the call has settled,
    and how it settled. *)
Definition breakdownPrompt (fetched : FetchOutcome) (st : State)
  : State * Outcome (list Task) :=
  let settle (ts : list Task) (r : Outcome (list Task)) :=
    (mkState (taskBreakdownEnabled st) (cookie st) ts false, r) in
  match fetched with
  | FetchRejected => settle [] Rejected
  | ResponseNotOk => settle [] Rejected
  | ResponseOk JsonRejected => settle [] Rejected
  | ResponseOk (JsonResolved result) =>
      match responseTasks result with
      | Some items => settle (formatTasks items) (Resolved (formatTasks items))
      | None => settle [] (Resolved [])
      end
  end.

(** [startTask(taskId, setInput)]: the tasks afterwards and the value
    given to [setInput], if it is called. *)
Definition startTask (taskId : jsstring) (ts : list Task)
  : list Task * option json :=
  match find (fun t => jsstring_eqb (id t) taskId) ts with
  | Some task =>
      (map (fun t => if jsstring_eqb (id t) taskId
                     then mkTask (id t) (content t) true else t) ts,
       Some (content task))
  | None => (ts, None)
  end.

Definition resetTasks (st : State) : State :=
  mkState (taskBreakdownEnabled st) (cookie st) [] (isBreakingDown st).

End Hook.

(** What the hook's [fetch] gets from a response of the route. *)
Definition delivered (r : Response) : Hook.FetchOutcome :=
  match r with
  | TasksResponse tasks =>
      Hook.ResponseOk (JsonResolved (JObj [(js "tasks", tasks)]))
  | ErrorResponse => Hook.ResponseNotOk
  end.

(** The body the hook posts: [JSON.stringify({ message, model, provider,
    apiKeys })], read back by [request.json()]; [apiKeys] is left out when
    it is [undefined]. *)
Definition requestBody (prompt model : jsstring) (provider : json)
    (apiKeys : option json) : json :=
  JObj ([(js "message", JStr prompt); (js "model", JStr model);
         (js "provider", provider)]
        ++ match apiKeys with
           | Some keys => [(js "apiKeys", keys)]
           | None => []
           end).

(* ================================================================== *)
(** * Lemmas *)

(** ** Case tables *)

Lemma lookupSimple_In : forall t c u,
  lookupSimple t c = Some u -> In c (flat_map rangeUnits t).
Proof.
  induction t as [|[[[lo hi] step] img] t IH]; intros c u H; [discriminate|].
  cbn [lookupSimple] in H. cbn [flat_map]. apply in_or_app.
  destruct (c <? lo)%N eqn:Hlo; [discriminate|].
  destruct ((c <=? hi) && ((c - lo) mod step =? 0))%N eqn:Hin.
  - left. apply andb_prop in Hin as [Hhi Hmod].
    apply N.ltb_ge in Hlo. apply N.leb_le in Hhi. apply N.eqb_eq in Hmod.
    unfold rangeUnits. apply in_map_iff.
    exists (N.to_nat ((c - lo) / step)). split.
    + rewrite N2Nat.id.
      pose proof (N.Div0.div_mod (c - lo) step) as Hdm. rewrite Hmod in Hdm. lia.
    + apply in_seq. split; [apply Nat.le_0_l|]. cbn [plus].
      assert (Hle : ((c - lo) / step <= (hi - lo) / step)%N).
      { apply N.Div0.div_le_mono. lia. }
      revert Hle. generalize ((c - lo) / step)%N ((hi - lo) / step)%N.
      intros x y Hle. lia.
  - right. eapply IH; eauto.
Qed.

Lemma lookupSpecial_In : forall t c us,
  lookupSpecial t c = Some us -> In c (map fst t).
Proof.
  induction t as [|[k v] t IH]; intros c us H; [discriminate|].
  cbn [lookupSpecial] in H. cbn [map fst].
  destruct (c <? k)%N; [discriminate|].
  destruct (c =? k)%N eqn:E.
  - left. apply N.eqb_eq in E. congruence.
  - right. eauto.
Qed.

Lemma upperUnit_uncased : forall c, ~ In c casedUnits -> upperUnit c = [c].
Proof.
  intros c Hc. unfold upperUnit.
  destruct (lookupSimple simpleUpper c) eqn:E1.
  { exfalso. apply Hc. apply in_or_app. left. eapply lookupSimple_In; eauto. }
  destruct (lookupSpecial specialUpper c) eqn:E2.
  { exfalso. apply Hc. apply in_or_app. right. eapply lookupSpecial_In; eauto. }
  reflexivity.
Qed.

Lemma casedUnits_checked : forallb unitCheck casedUnits = true.
Proof. vm_compute. reflexivity. Qed.

Lemma unitCheck_all : forall c, unitCheck c = true.
Proof.
  intros c. destruct (in_dec N.eq_dec c casedUnits) as [Hin|Hout].
  - exact (proj1 (forallb_forall _ _) casedUnits_checked c Hin).
  - pose proof (upperUnit_uncased c Hout) as Hu.
    assert (Hc : Canonicalize c = c).
    { unfold Canonicalize. rewrite Hu. destruct (_ && _); reflexivity. }
    unfold unitCheck. rewrite Hc, Hu. cbn [last]. rewrite Hu, N.eqb_refl.
    destruct (isWhiteSpace c); cbn; rewrite ?orb_true_r; reflexivity.
Qed.

Lemma upperUnit_cons : forall c, exists h t, upperUnit c = h :: t.
Proof.
  intros c. pose proof (unitCheck_all c) as H. unfold unitCheck in H.
  destruct (upperUnit c) as [|h t]; [discriminate|]. eauto.
Qed.

Lemma upperUnit_ends : forall c h t,
  isWhiteSpace c = false -> upperUnit c = h :: t ->
  isWhiteSpace h = false /\ isWhiteSpace (last (h :: t) h) = false.
Proof.
  intros c h t Hc Hu. pose proof (unitCheck_all c) as H. unfold unitCheck in H.
  rewrite Hu, Hc in H. apply andb_prop in H as [H _]. apply andb_prop in H as [H _].
  cbn [orb] in H. apply andb_prop in H as [H1 H2].
  split; [now destruct (isWhiteSpace h)|].
  now destruct (isWhiteSpace (last (h :: t) h)).
Qed.

Lemma upperUnit_head_fixed : forall c h t,
  upperUnit c = h :: t -> upperUnit h = [h].
Proof.
  intros c h t Hu. pose proof (unitCheck_all c) as H. unfold unitCheck in H.
  rewrite Hu in H. apply andb_prop in H as [H _]. apply andb_prop in H as [_ H].
  destruct (upperUnit h) as [|h' [|]]; try discriminate.
  apply N.eqb_eq in H. congruence.
Qed.

(** White space, digits and the full stop are the canonical form of
    themselves only. *)
Lemma Canonicalize_uncased : forall c,
  isWhiteSpace (Canonicalize c) = true \/ mem (Canonicalize c) decimalDigits = true
  \/ Canonicalize c = cu "." ->
  Canonicalize c = c.
Proof.
  intros c Hc. pose proof (unitCheck_all c) as H. unfold unitCheck in H.
  destruct (upperUnit c) as [|h t]; [discriminate|].
  apply andb_prop in H as [_ H]. apply orb_prop in H as [H|H].
  - exfalso. apply negb_true_iff in H.
    apply orb_false_elim in H as [H H3]. apply orb_false_elim in H as [H1 H2].
    destruct Hc as [Hc|[Hc|Hc]]; [congruence|congruence|].
    rewrite Hc, N.eqb_refl in H3. discriminate.
  - now apply N.eqb_eq.
Qed.

(** ** Trimming *)

Lemma trimStart_split : forall s,
  exists w, s = w ++ trimStart s /\ blank w = true.
Proof.
  induction s as [|c s [w [Hw Hb]]]; [exists []; auto|].
  cbn [trimStart]. destruct (isWhiteSpace c) eqn:E.
  - exists (c :: w). unfold blank in *. cbn [forallb app]. rewrite E, Hb.
    split; [congruence|reflexivity].
  - exists []. auto.
Qed.

Lemma trimStart_headOk : forall s, headOk (trimStart s).
Proof.
  induction s as [|c s IH]; cbn; [exact I|].
  destruct (isWhiteSpace c) eqn:E; [exact IH|exact E].
Qed.

Lemma trimStart_fixed : forall s, headOk s -> trimStart s = s.
Proof. intros [|c s] H; cbn in *; [reflexivity|now rewrite H]. Qed.

Lemma trimStart_blank : forall s, blank s = true -> trimStart s = [].
Proof.
  induction s as [|c s IH]; cbn; [reflexivity|]. intros H.
  apply andb_prop in H as [-> H]. auto.
Qed.

Lemma blank_app : forall a b, blank (a ++ b) = blank a && blank b.
Proof. intros. apply forallb_app. Qed.

Lemma blank_rev : forall a, blank (rev a) = blank a.
Proof.
  induction a as [|c a IH]; [reflexivity|].
  cbn [rev]. rewrite blank_app, IH. cbn. rewrite andb_true_r. apply andb_comm.
Qed.

Lemma trimEnd_split : forall s,
  exists w, s = trimEnd s ++ w /\ blank w = true.
Proof.
  intros s. destruct (trimStart_split (rev s)) as [w [Hw Hb]].
  exists (rev w). unfold trimEnd. rewrite <- rev_app_distr, <- Hw, rev_involutive.
  now rewrite blank_rev.
Qed.

Lemma trimEnd_lastOk : forall s, headOk (rev (trimEnd s)).
Proof.
  intros s. unfold trimEnd. rewrite rev_involutive. apply trimStart_headOk.
Qed.

Lemma headOk_prefix : forall a b, headOk (a ++ b) -> headOk a.
Proof. intros [|c a] b H; [exact I|exact H]. Qed.

Lemma trimEnd_headOk : forall s, headOk s -> headOk (trimEnd s).
Proof.
  intros s H. destruct (trimEnd_split s) as [w [Hw _]].
  rewrite Hw in H. eapply headOk_prefix; eauto.
Qed.

Lemma trimEnd_fixed : forall s, headOk (rev s) -> trimEnd s = s.
Proof.
  intros s H. unfold trimEnd. rewrite trimStart_fixed by assumption.
  apply rev_involutive.
Qed.

Lemma trim_headOk : forall s, headOk (trim s).
Proof. intros. apply trimEnd_headOk, trimStart_headOk. Qed.

Lemma trim_lastOk : forall s, headOk (rev (trim s)).
Proof. intros. apply trimEnd_lastOk. Qed.

Lemma trim_fixed : forall s, headOk s -> headOk (rev s) -> trim s = s.
Proof.
  intros s H1 H2. unfold trim. rewrite (trimStart_fixed _ H1).
  now apply trimEnd_fixed.
Qed.

Lemma trim_idempotent : forall s, trim (trim s) = trim s.
Proof. intros. apply trim_fixed; [apply trim_headOk|apply trim_lastOk]. Qed.

Lemma trim_split : forall s,
  exists w1 w2, s = w1 ++ trim s ++ w2 /\ blank w1 = true /\ blank w2 = true.
Proof.
  intros s. destruct (trimStart_split s) as [w1 [H1 B1]].
  destruct (trimEnd_split (trimStart s)) as [w2 [H2 B2]].
  exists w1, w2. unfold trim. rewrite <- H2. auto.
Qed.

Lemma trim_blank : forall s, blank s = true -> trim s = [].
Proof. intros s H. unfold trim. now rewrite trimStart_blank. Qed.

Lemma trim_nil_blank : forall s, trim s = [] -> blank s = true.
Proof.
  intros s H. destruct (trim_split s) as [w1 [w2 [Hs [B1 B2]]]].
  rewrite H in Hs. cbn [app] in Hs. rewrite Hs, blank_app, B1, B2. reflexivity.
Qed.

Lemma blank_false_In : forall s,
  blank s = false <-> exists c, In c s /\ isWhiteSpace c = false.
Proof.
  intros s. split.
  - induction s as [|c s IH]; cbn; [discriminate|]. intros H.
    destruct (isWhiteSpace c) eqn:E.
    + destruct (IH H) as [x [Hx Hw]]. exists x. auto.
    + exists c. auto.
  - intros [c [Hin Hc]]. destruct (blank s) eqn:E; [|reflexivity].
    unfold blank in E. rewrite forallb_forall in E. rewrite (E c Hin) in Hc.
    discriminate.
Qed.

(** The test [s.trim().length > 0] of the source. *)
Lemma nonblank_test : forall s, (0 <? length (trim s)) = negb (blank s).
Proof.
  intros s. destruct (blank s) eqn:E.
  - now rewrite trim_blank.
  - destruct (trim s) eqn:T; [|reflexivity].
    apply trim_nil_blank in T. congruence.
Qed.

Lemma truthy_length : forall s : jsstring, truthy s = (0 <? length s).
Proof. now intros [|]. Qed.

(** ** Normalisation *)

Lemma capitalize_cons : forall c r, capitalize (c :: r) = upperUnit c ++ r.
Proof.
  intros. unfold capitalize, charAt, sliceFrom, toUpperCase. cbn.
  now rewrite app_nil_r.
Qed.

Lemma headOk_last : forall c r,
  headOk (rev (c :: r)) -> isWhiteSpace (last (c :: r) c) = false.
Proof.
  intros c r. destruct (exists_last (l := c :: r)) as [l [x E]]; [discriminate|].
  rewrite E, rev_app_distr, last_last. cbn. auto.
Qed.

Lemma last_headOk : forall c r,
  isWhiteSpace (last (c :: r) c) = false -> headOk (rev (c :: r)).
Proof.
  intros c r. destruct (exists_last (l := c :: r)) as [l [x E]]; [discriminate|].
  rewrite E, rev_app_distr, last_last. cbn. auto.
Qed.

Lemma headOk_app : forall a b, a <> [] -> headOk (a ++ b) <-> headOk a.
Proof. intros [|c a] b H; [congruence|reflexivity]. Qed.

Lemma lastOk_app : forall a b,
  b <> [] -> headOk (rev (a ++ b)) <-> headOk (rev b).
Proof.
  intros a b H. rewrite rev_app_distr. apply headOk_app.
  intros E. apply H. apply (f_equal (@rev _)) in E.
  now rewrite rev_involutive in E.
Qed.

Lemma capitalize_normalForm : forall t,
  t <> [] -> trim t = t -> normalForm (capitalize t).
Proof.
  intros [|c r] Hne Ht; [congruence|]. rewrite capitalize_cons.
  assert (Hc : isWhiteSpace c = false).
  { pose proof (trim_headOk (c :: r)) as H. now rewrite Ht in H. }
  assert (Hl : headOk (rev (c :: r))).
  { rewrite <- Ht. apply trim_lastOk. }
  destruct (upperUnit_cons c) as [h [t Hu]].
  destruct (upperUnit_ends c h t Hc Hu) as [Hh Hlast].
  apply last_headOk in Hlast.
  rewrite Hu. split; [discriminate|]. split.
  - apply trim_fixed; [exact Hh|].
    destruct r as [|x r].
    + now rewrite app_nil_r.
    + apply lastOk_app; [discriminate|].
      change (c :: x :: r) with ([c] ++ x :: r) in Hl.
      apply lastOk_app in Hl; [exact Hl|discriminate].
  - unfold charAt, toUpperCase. cbn.
    rewrite (upperUnit_head_fixed c h t Hu). reflexivity.
Qed.

Lemma normalForm_fixed : forall t,
  normalForm t -> trim t = t /\ capitalize t = t.
Proof.
  intros t [Hne [Ht Hu]]. split; [exact Ht|].
  destruct t as [|c r]; [congruence|].
  unfold capitalize. rewrite Hu. reflexivity.
Qed.

Lemma normalize_normalForm : forall tasks, Forall normalForm (normalize tasks).
Proof.
  intros tasks. unfold normalize. apply Forall_forall. intros t Ht.
  apply in_map_iff in Ht as [x [<- Hx]]. apply filter_In in Hx as [Hx Hlen].
  apply in_map_iff in Hx as [y [<- _]].
  apply capitalize_normalForm; [|apply trim_idempotent].
  destruct (trim y); [discriminate|discriminate].
Qed.

Lemma normalize_fixed : forall tasks,
  Forall normalForm tasks -> normalize tasks = tasks.
Proof.
  induction 1 as [|t l Ht _ IH]; [reflexivity|].
  unfold normalize in *. cbn [map filter].
  destruct (normalForm_fixed t Ht) as [E1 E2]. destruct Ht as [Hne _].
  rewrite E1.
  replace (0 <? length t) with true by (destruct t; [congruence|reflexivity]).
  cbn [map]. rewrite E2. f_equal. exact IH.
Qed.
(** ** The matcher *)

Lemma starMatch_sound : forall ic cl a b cap k res,
  starMatch ic cl b a cap k = Some res ->
  exists st', steps ic (RStar cl) (mkState b a cap) st' /\ k st' = Some res.
Proof.
  induction a as [|c a IH]; intros b cap k res H; cbn [starMatch] in H.
  - eexists. split; [apply steps_star_nil|exact H].
  - destruct (classMatches ic cl c) eqn:E.
    + destruct (starMatch ic cl (c :: b) a cap k) eqn:E'.
      * injection H as <-. destruct (IH _ _ _ _ E') as [st' [Hs Hk]].
        exists st'. split; [now apply steps_star_cons|exact Hk].
      * eexists. split; [apply steps_star_nil|exact H].
    + eexists. split; [apply steps_star_nil|exact H].
Qed.

Lemma matcher_sound : forall ic r st k res,
  matcher ic r st k = Some res ->
  exists st', steps ic r st st' /\ k st' = Some res.
Proof.
  induction r as [|cl|r1 IH1 r2 IH2|r1 IH1 r2 IH2|cl|cl|r IH|r IH|cl];
    intros [b a cap] k res H; cbn [matcher behind ahead capture] in H.
  - eexists. split; [constructor|exact H].
  - destruct a as [|c a]; [discriminate|].
    destruct (classMatches ic cl c) eqn:E; [|discriminate].
    eexists. split; [now constructor|exact H].
  - apply IH1 in H as [st1 [H1 H]]. apply IH2 in H as [st2 [H2 H]].
    exists st2. split; [econstructor; eauto|exact H].
  - destruct (matcher ic r1 (mkState b a cap) k) eqn:E.
    + injection H as <-. apply IH1 in E as [st' [H1 Hk]].
      exists st'. split; [now apply steps_alt_l|exact Hk].
    + apply IH2 in H as [st' [H2 Hk]].
      exists st'. split; [now apply steps_alt_r|exact Hk].
  - now apply starMatch_sound.
  - destruct a as [|c a]; [discriminate|].
    destruct (classMatches ic cl c) eqn:E; [|discriminate].
    apply starMatch_sound in H as [st' [Hs Hk]].
    exists st'. split; [now apply steps_plus|exact Hk].
  - match type of H with match ?m with _ => _ end = _ => destruct m eqn:E end.
    + injection H as <-. apply IH in E as [st' [Hs Hk]].
      destruct (length (ahead st') =? length a); [discriminate|].
      exists st'. split; [now apply steps_opt_some|exact Hk].
    + eexists. split; [apply steps_opt_none|exact H].
  - apply IH in H as [st' [Hs Hk]].
    eexists. split; [apply steps_group; exact Hs|exact Hk].
  - destruct b as [|c b]; [discriminate|].
    destruct (classMatches ic cl c) eqn:E; [|discriminate].
    eexists. split; [now constructor|exact H].
Qed.

Lemma consumes_refl : forall st, consumes st [] st.
Proof. intros. split; reflexivity. Qed.

Lemma consumes_trans : forall st1 w1 st2 w2 st3,
  consumes st1 w1 st2 -> consumes st2 w2 st3 -> consumes st1 (w1 ++ w2) st3.
Proof.
  intros st1 w1 st2 w2 st3 [A1 B1] [A2 B2]. split.
  - rewrite A1, A2. apply app_assoc.
  - rewrite B2, B1, rev_app_distr. apply app_assoc.
Qed.

Lemma consumes_one : forall c b a cap,
  consumes (mkState b (c :: a) cap) [c] (mkState (c :: b) a cap).
Proof. intros. split; reflexivity. Qed.

Lemma steps_consumes : forall ic r st st',
  steps ic r st st' -> exists w, consumes st w st'.
Proof.
  induction 1 as [st|cl c b a cap Hc|r1 r2 st st' st'' _ [w1 H1] _ [w2 H2]
                 |r1 r2 st st' _ IH|r1 r2 st st' _ IH|cl st
                 |cl c b a cap st' Hc _ [w Hw]|cl c b a cap st' Hc _ [w Hw]
                 |r st|r st st' _ IH|r st st' _ [w Hw]|cl c b a cap Hc].
  - exists []. apply consumes_refl.
  - exists [c]. apply consumes_one.
  - exists (w1 ++ w2). eapply consumes_trans; eauto.
  - exact IH.
  - exact IH.
  - exists []. apply consumes_refl.
  - exists ([c] ++ w). eapply consumes_trans; [apply consumes_one|exact Hw].
  - exists ([c] ++ w). eapply consumes_trans; [apply consumes_one|exact Hw].
  - exists []. apply consumes_refl.
  - exact IH.
  - exists w. destruct Hw as [A B]. split; [exact A|exact B].
  - exists []. apply consumes_refl.
Qed.

(** A successful attempt at a position: the match is a prefix of the input
    ahead, produced by a run of the pattern. *)
Lemma matchAt_spec : forall re b a mr,
  matchAt re b a = Some mr ->
  exists st' rest,
    steps (ignoreCase re) (pattern re) (mkState b a None) st'
    /\ a = match0 mr ++ rest /\ ahead st' = rest
    /\ index mr = length b /\ group1 mr = capture st'.
Proof.
  intros re b a mr H. unfold matchAt in H.
  destruct (matcher _ _ _ _) as [st'|] eqn:E; [|discriminate].
  injection H as <-. apply matcher_sound in E as [st1 [Hs Hk]].
  injection Hk as ->. destruct (steps_consumes _ _ _ _ Hs) as [w [A B]].
  cbn [ahead behind] in A, B. exists st', (ahead st'). cbn [match0 index group1].
  repeat split; try assumption.
  rewrite A at 1 2 3. rewrite length_app, Nat.add_sub.
  now rewrite firstn_app, Nat.sub_diag, firstn_all, app_nil_r.
Qed.

Lemma search_spec : forall re a b mr,
  search re b a = Some mr ->
  exists pre post, a = pre ++ post /\ matchAt re (rev pre ++ b) post = Some mr.
Proof.
  induction a as [|c a IH]; intros b mr H; cbn [search] in H.
  - destruct (matchAt re b []) eqn:E; [|discriminate].
    injection H as <-. exists [], []. auto.
  - destruct (matchAt re b (c :: a)) eqn:E.
    + injection H as <-. exists [], (c :: a). auto.
    + apply IH in H as [pre [post [Ha Hm]]].
      exists (c :: pre), post. split; [now rewrite Ha|].
      cbn [rev]. now rewrite <- app_assoc.
Qed.

(** What a successful [exec] from [lastIndex] tells about the string. *)
Lemma exec_spec : forall re s i mr,
  RegExpBuiltinExec re s i = Some mr ->
  exists pre rest st',
    i <= length s
    /\ skipn i s = pre ++ match0 mr ++ rest
    /\ index mr = i + length pre
    /\ steps (ignoreCase re) (pattern re)
         (mkState (rev pre ++ rev (firstn i s)) (match0 mr ++ rest) None) st'
    /\ ahead st' = rest
    /\ group1 mr = capture st'
    /\ matchAt re (rev pre ++ rev (firstn i s)) (match0 mr ++ rest) = Some mr.
Proof.
  intros re s i mr H. unfold RegExpBuiltinExec in H.
  destruct (length s <? i) eqn:E; [discriminate|]. apply Nat.ltb_ge in E.
  apply search_spec in H as [pre [post [Hs Hm]]].
  destruct (matchAt_spec _ _ _ _ Hm) as [st' [rest [Hst [Hp [Ha [Hi Hg]]]]]].
  exists pre, rest, st'. subst post.
  repeat split; try assumption.
  rewrite Hi, length_app, !length_rev, length_firstn. lia.
Qed.

(** *** The [exec] loop *)

Section ExecLoop.

Variable A : Type.
Variable re : RegExp.
Variable s : jsstring.
Variable body : MatchResult -> A -> A.

(** More fuel gives the same result. *)
Lemma execLoop_more_fuel : forall n m i acc r,
  execLoop n re s i body acc = Some r -> n <= m ->
  execLoop m re s i body acc = Some r.
Proof.
  induction n as [|n IH]; intros m i acc r H Hle; [discriminate|].
  destruct m as [|m]; [lia|]. cbn [execLoop] in *.
  destruct (RegExpBuiltinExec re s i); [|exact H].
  apply IH; [exact H|lia].
Qed.

(** Loop invariants. *)
Lemma execLoop_invariant : forall P : A -> Prop,
  (forall mr acc, P acc -> P (body mr acc)) ->
  forall n i acc r, P acc -> execLoop n re s i body acc = Some r -> P r.
Proof.
  intros P Hstep. induction n as [|n IH]; intros i acc r HP H;
    [discriminate|].
  cbn [execLoop] in H. destruct (RegExpBuiltinExec re s i) as [mr|].
  - eapply IH; [|exact H]. now apply Hstep.
  - now injection H as <-.
Qed.

(** The loop runs out of its fuel only if some match is empty, in which
    case [lastIndex] stays where it is and the loop of the source does
    not end either. *)
Lemma execLoop_out_of_fuel : forall n i acc,
  0 < n -> length s < i + n ->
  execLoop n re s i body acc = None ->
  exists j mr, RegExpBuiltinExec re s j = Some mr /\ match0 mr = [].
Proof.
  induction n as [|n IH]; intros i acc Hn Hlen H; [lia|].
  cbn [execLoop] in H. destruct (RegExpBuiltinExec re s i) as [mr|] eqn:E;
    [|discriminate].
  destruct (match0 mr) as [|c w] eqn:Em; [eauto|].
  destruct (exec_spec _ _ _ _ E) as [pre [rest [st' [Hi [Hs [Hx _]]]]]].
  assert (Hl : length (skipn i s) = length s - i) by apply length_skipn.
  rewrite Hs, Em, !length_app in Hl. cbn [length] in *.
  eapply IH; [| |exact H]; lia.
Qed.

Hypothesis Hadv : advances re.

(** Over an expression whose matches are never empty the loop ends. *)
Lemma execLoop_total : forall n i acc,
  0 < n -> length s < i + n ->
  exists r, execLoop n re s i body acc = Some r.
Proof.
  intros n i acc Hn Hlen.
  destruct (execLoop n re s i body acc) as [r|] eqn:E; [eauto|].
  destruct (execLoop_out_of_fuel n i acc Hn Hlen E) as [j [mr [Ej Em]]].
  destruct (exec_spec _ _ _ _ Ej) as [pre [rest [st' [_ [_ [_ [_ [_ [_ Hm]]]]]]]]].
  now apply Hadv in Hm.
Qed.

End ExecLoop.
(** ** Splitting *)

(** [split] ends within its fuel, whatever the pattern. *)
Lemma splitLoop_total : forall re fuel a b cur acc,
  2 * length a + (if length cur =? 0 then 0 else 1) + 1 <= fuel ->
  exists r, splitLoop fuel re b a cur acc = Some r.
Proof.
  intros re. induction fuel as [|fuel IH]; intros a b cur acc Hf; [lia|].
  cbn [splitLoop]. destruct a as [|c a]; [eauto|].
  assert (Hcur : (length (cur ++ [c]) =? 0) = false).
  { rewrite length_app. cbn. apply Nat.eqb_neq. lia. }
  cbn [length] in Hf.
  destruct (matchAt re b (c :: a)) as [mr|] eqn:E.
  - destruct (matchAt_spec _ _ _ _ E) as [st' [rest [_ [Ha _]]]].
    destruct (length (match0 mr) =? 0) eqn:En.
    + destruct (length cur =? 0) eqn:Ec; cbn [andb].
      * apply IH. rewrite Hcur. lia.
      * apply IH. apply Nat.eqb_eq in En. rewrite En. cbn [skipn length Nat.eqb].
        lia.
    + cbn [andb]. apply IH. apply Nat.eqb_neq in En.
      assert (length (skipn (length (match0 mr)) (c :: a)) + length (match0 mr)
              = S (length a)).
      { rewrite length_skipn. apply (f_equal (@length _)) in Ha.
        rewrite length_app in Ha. cbn [length] in *. lia. }
      cbn [length Nat.eqb]. lia.
  - apply IH. rewrite Hcur. lia.
Qed.

Lemma split_total : forall s re, exists r, split s re = Some r.
Proof.
  intros [|c s] re; unfold split.
  - destruct (matchAt re [] []); eauto.
  - apply splitLoop_total. cbn [length Nat.eqb]. lia.
Qed.

(** A greedy [cl+] tried alone takes the longest run. *)
Lemma starMatch_greedy : forall ic cl a b cap,
  starMatch ic cl b a cap Some
  = Some (mkState (rev (takeRun (classMatches ic cl) a) ++ b)
            (dropRun (classMatches ic cl) a) cap).
Proof.
  induction a as [|c a IH]; intros b cap; cbn [starMatch takeRun dropRun];
    [reflexivity|].
  destruct (classMatches ic cl c); [|reflexivity].
  rewrite IH. cbn [rev]. now rewrite <- app_assoc.
Qed.

Lemma takeRun_dropRun : forall p a, a = takeRun p a ++ dropRun p a.
Proof.
  induction a as [|c a IH]; cbn; [reflexivity|].
  destruct (p c); cbn; [now f_equal|reflexivity].
Qed.

Lemma matchAt_plus : forall ic cl b a,
  matchAt (mkRegExp (RPlus cl) ic) b a =
  match a with
  | c :: a' =>
      if classMatches ic cl c
      then Some (mkMatch (length b) (c :: takeRun (classMatches ic cl) a') None)
      else None
  | [] => None
  end.
Proof.
  intros ic cl b [|c a]; unfold matchAt; cbn [matcher pattern ignoreCase ahead behind capture];
    [reflexivity|].
  destruct (classMatches ic cl c); [|reflexivity].
  rewrite starMatch_greedy. cbn [ahead capture]. f_equal. f_equal.
  rewrite (takeRun_dropRun (classMatches ic cl) a) at 1 3.
  cbn [length]. rewrite length_app.
  replace (S (length (takeRun (classMatches ic cl) a)
              + length (dropRun (classMatches ic cl) a))
           - length (dropRun (classMatches ic cl) a))
    with (S (length (takeRun (classMatches ic cl) a))) by lia.
  cbn [firstn]. f_equal.
  now rewrite firstn_app, Nat.sub_diag, firstn_all, app_nil_r.
Qed.

Lemma splitRuns_inRun : forall p a,
  splitRuns p true [] a = splitRuns p false [] (dropRun p a).
Proof.
  induction a as [|c a IH]; cbn [splitRuns dropRun]; [reflexivity|].
  destruct (p c) eqn:E; [exact IH|].
  cbn [splitRuns]. now rewrite E.
Qed.

Lemma skipn_takeRun : forall p a,
  skipn (length (takeRun p a)) a = dropRun p a.
Proof.
  induction a as [|c a IH]; cbn; [reflexivity|].
  destruct (p c); cbn; [exact IH|reflexivity].
Qed.

Lemma length_dropRun : forall p a, length (dropRun p a) <= length a.
Proof.
  induction a as [|c a IH]; cbn; [lia|]. destruct (p c); cbn; lia.
Qed.

Lemma splitLoop_runs : forall ic cl fuel a b cur acc,
  length a + 1 <= fuel ->
  splitLoop fuel (mkRegExp (RPlus cl) ic) b a cur acc
  = Some (acc ++ splitRuns (classMatches ic cl) false cur a).
Proof.
  intros ic cl. induction fuel as [|fuel IH]; intros a b cur acc Hf; [lia|].
  cbn [splitLoop]. destruct a as [|c a]; [reflexivity|].
  rewrite matchAt_plus. cbn [splitRuns]. cbn [length] in Hf.
  destruct (classMatches ic cl c) eqn:E.
  - cbn [match0 length Nat.eqb andb skipn]. rewrite skipn_takeRun.
    rewrite IH by (pose proof (length_dropRun (classMatches ic cl) a); lia).
    rewrite splitRuns_inRun, <- app_assoc. reflexivity.
  - apply IH. lia.
Qed.

(** [s.split(/cl+/)] is the splitting at runs. *)
Lemma split_runs : forall ic cl s,
  split s (mkRegExp (RPlus cl) ic)
  = Some (splitRuns (classMatches ic cl) false [] s).
Proof.
  intros ic cl [|c s]; unfold split.
  - rewrite matchAt_plus. reflexivity.
  - rewrite splitLoop_runs by (cbn [length]; lia). reflexivity.
Qed.

(** A code unit that is not a separator ends up in a segment. *)
Lemma splitRuns_keeps : forall p c a inRun cur,
  p c = false -> In c (cur ++ a) -> (inRun = true -> cur = []) ->
  exists w, In w (splitRuns p inRun cur a) /\ In c w.
Proof.
  intros p c. induction a as [|x a IH]; intros inRun cur Hc Hin Hrun.
  - rewrite app_nil_r in Hin. exists cur. cbn. auto.
  - cbn [splitRuns]. destruct (p x) eqn:E.
    + apply in_app_or in Hin as [Hin|[->|Hin]]; [| congruence |].
      * destruct inRun.
        -- rewrite Hrun in Hin by reflexivity. destruct Hin.
        -- exists cur. cbn. auto.
      * destruct (IH true [] Hc Hin) as [w [Hw Hcw]]; [reflexivity|].
        exists w. destruct inRun; cbn; auto.
    + apply IH; [exact Hc| |discriminate]. rewrite <- app_assoc. exact Hin.
Qed.

(** Segments hold no separator. *)
Lemma splitRuns_clean : forall p a inRun cur,
  forallb (fun c => negb (p c)) cur = true ->
  Forall (fun w => forallb (fun c => negb (p c)) w = true) (splitRuns p inRun cur a).
Proof.
  intros p. induction a as [|x a IH]; intros inRun cur Hcur; cbn [splitRuns].
  - constructor; [exact Hcur|constructor].
  - destruct (p x) eqn:E.
    + destruct inRun; [now apply IH|]. constructor; [exact Hcur|now apply IH].
    + apply IH. rewrite forallb_app, Hcur. cbn. now rewrite E.
Qed.
(** ** Lines *)

Lemma isLF_eqb : forall c, isLF c = N.eqb c LF.
Proof.
  intros c. unfold isLF, classMatches, mem. cbn [existsb]. apply orb_false_r.
Qed.

Lemma linesOf_cons : forall s, exists l ls, linesOf s = l :: ls.
Proof.
  induction s as [|c s [l [ls E]]]; cbn [linesOf]; [eauto|].
  destruct (N.eqb c LF); [eauto|]. rewrite E. eauto.
Qed.

Lemma linesOf_app_clean : forall cur a,
  forallb (fun c => negb (isLF c)) cur = true ->
  linesOf (cur ++ a) = (cur ++ hd [] (linesOf a)) :: tl (linesOf a).
Proof.
  induction cur as [|c cur IH]; intros a H; cbn [app].
  - destruct (linesOf_cons a) as [l [ls ->]]. reflexivity.
  - cbn [forallb] in H. apply andb_prop in H as [Hc H].
    rewrite isLF_eqb in Hc. apply negb_true_iff in Hc.
    cbn [linesOf]. rewrite Hc, (IH a H). reflexivity.
Qed.

Lemma linesOf_LF : forall u v, linesOf (u ++ LF :: v) = linesOf u ++ linesOf v.
Proof.
  induction u as [|c u IH]; intros v; cbn [app linesOf].
  - reflexivity.
  - destruct (N.eqb c LF); [now rewrite IH|].
    rewrite IH. destruct (linesOf_cons u) as [l [ls ->]]. reflexivity.
Qed.

Lemma splitRuns_lines : forall a inRun cur,
  forallb (fun c => negb (isLF c)) cur = true ->
  (inRun = true -> cur = []) ->
  filter (fun l => negb (blank l)) (splitRuns isLF inRun cur a)
  = filter (fun l => negb (blank l)) (linesOf (cur ++ a)).
Proof.
  induction a as [|x a IH]; intros inRun cur Hcur Hrun.
  - rewrite (linesOf_app_clean _ _ Hcur). cbn [splitRuns linesOf hd tl].
    now rewrite app_nil_r.
  - cbn [splitRuns]. destruct (isLF x) eqn:E.
    + rewrite (linesOf_app_clean _ _ Hcur).
      rewrite isLF_eqb in E. cbn [linesOf]. rewrite E. cbn [hd tl].
      rewrite app_nil_r. destruct inRun.
      * rewrite Hrun by reflexivity. cbn [filter blank forallb negb].
        now apply (IH true []).
      * cbn [filter]. rewrite (IH true []) by auto. reflexivity.
    + replace (cur ++ x :: a) with ((cur ++ [x]) ++ a)
        by (now rewrite <- app_assoc).
      apply IH; [|discriminate].
      rewrite forallb_app, Hcur. cbn. now rewrite E.
Qed.

(** The line split of the source keeps exactly the non-blank lines. *)
Lemma lines_nonBlankLines : forall prompt,
  lines prompt = Some (nonBlankLines prompt).
Proof.
  intros prompt. unfold lines, newlineRegex. rewrite split_runs. cbn [bind].
  f_equal. unfold nonBlankLines.
  rewrite (filter_ext _ (fun l => negb (blank l))) by (intros; apply nonblank_test).
  apply (splitRuns_lines prompt false []); [reflexivity|discriminate].
Qed.

Lemma tasksFromLines_spec : forall prompt,
  tasksFromLines prompt
  = Some (map (fun line => descriptor (trim line)) (nonBlankLines prompt)).
Proof.
  intros prompt. unfold tasksFromLines. now rewrite lines_nonBlankLines.
Qed.

(** A code unit that is no white space lies on a non-blank line. *)
Lemma linesOf_keeps : forall c s,
  In c s -> isWhiteSpace c = false -> nonBlankLines s <> [].
Proof.
  intros c s Hin Hc.
  assert (HLF : isLF c = false).
  { rewrite isLF_eqb. apply N.eqb_neq. intros ->. discriminate. }
  destruct (splitRuns_keeps isLF c s false [] HLF Hin) as [w [Hw Hcw]];
    [discriminate|].
  unfold nonBlankLines.
  pose proof (splitRuns_lines s false [] eq_refl ltac:(discriminate)) as HS.
  cbn [app] in HS. rewrite <- HS. intros E.
  assert (Hf : In w (filter (fun l => negb (blank l)) (splitRuns isLF false [] s))).
  { apply filter_In. split; [exact Hw|].
    apply negb_true_iff, blank_false_In. eauto. }
  rewrite E in Hf. destruct Hf.
Qed.

Lemma nonBlankLines_LF : forall u v,
  nonBlankLines (u ++ LF :: v) = nonBlankLines u ++ nonBlankLines v.
Proof.
  intros. unfold nonBlankLines. rewrite linesOf_LF. apply filter_app.
Qed.

(** Two code units that are no white space, with a line feed between them,
    make two non-blank lines. *)
Lemma two_nonBlankLines : forall u c1 v w c2 x,
  isWhiteSpace c1 = false -> isWhiteSpace c2 = false ->
  2 <= length (nonBlankLines ((u ++ c1 :: v) ++ LF :: (w ++ c2 :: x))).
Proof.
  intros u c1 v w c2 x H1 H2. rewrite nonBlankLines_LF, length_app.
  assert (A : nonBlankLines (u ++ c1 :: v) <> []).
  { apply (linesOf_keeps c1); [|exact H1]. apply in_or_app. right. now left. }
  assert (B : nonBlankLines (w ++ c2 :: x) <> []).
  { apply (linesOf_keeps c2); [|exact H2]. apply in_or_app. right. now left. }
  destruct (nonBlankLines (u ++ c1 :: v)); [congruence|].
  destruct (nonBlankLines (w ++ c2 :: x)); [congruence|].
  cbn [length]. lia.
Qed.
(** ** Classes *)

Lemma mem_In : forall c l, mem c l = true <-> In c l.
Proof.
  intros c l. unfold mem. rewrite existsb_exists. split.
  - intros [x [Hx E]]. apply N.eqb_eq in E. now subst.
  - intros H. exists c. split; [exact H|apply N.eqb_refl].
Qed.

Lemma uncasedUnit_cases : forall a,
  uncasedUnit a = true ->
  In a (whiteSpaceUnits ++ decimalDigits ++ [cu "."]).
Proof.
  intros a H. unfold uncasedUnit in H.
  apply orb_prop in H as [H|H]; [apply orb_prop in H as [H|H]|].
  - apply in_or_app. left. now apply mem_In.
  - apply in_or_app. right. apply in_or_app. left. now apply mem_In.
  - apply in_or_app. right. apply in_or_app. right. apply N.eqb_eq in H. now left.
Qed.

Lemma Canonicalize_fixed : forall a, uncasedUnit a = true -> Canonicalize a = a.
Proof.
  intros a H. apply uncasedUnit_cases in H. cbn [app whiteSpaceUnits decimalDigits] in H.
  repeat (destruct H as [<-|H]; [vm_compute; reflexivity|]). destruct H.
Qed.

Lemma Canonicalize_uncasedUnit : forall c,
  uncasedUnit (Canonicalize c) = true -> Canonicalize c = c.
Proof.
  intros c H. apply Canonicalize_uncased. unfold uncasedUnit in H.
  apply orb_prop in H as [H|H]; [apply orb_prop in H as [H|H]|]; auto.
  right. right. now apply N.eqb_eq.
Qed.

Lemma classMatches_among : forall ic cl c l,
  classMembers cl = Some l ->
  classMatches ic cl c
  = if ic then existsb (fun a => N.eqb (Canonicalize a) (Canonicalize c)) l
    else mem c l.
Proof.
  intros ic cl c l H. destruct cl; cbn in H; try discriminate;
    injection H as <-; reflexivity.
Qed.

(** With or without the [i] flag, a class of uncased code units accepts
    its members only. *)
Lemma classMatches_uncased : forall ic cl c l,
  classMembers cl = Some l -> forallb uncasedUnit l = true ->
  classMatches ic cl c = true -> In c l.
Proof.
  intros ic cl c l Hl Hun H. rewrite (classMatches_among ic cl c l Hl) in H.
  destruct ic; [|now apply mem_In].
  apply existsb_exists in H as [a [Ha E]]. apply N.eqb_eq in E.
  rewrite forallb_forall in Hun. pose proof (Hun a Ha) as Hua.
  rewrite (Canonicalize_fixed a Hua) in E.
  assert (Canonicalize c = c) by (apply Canonicalize_uncasedUnit; now rewrite <- E).
  congruence.
Qed.

(** A class without white space accepts no white space. *)
Lemma classMatches_nonws : forall ic cl c l,
  classMembers cl = Some l ->
  forallb (fun a => negb (isWhiteSpace a)) l = true ->
  classMatches ic cl c = true -> isWhiteSpace c = false.
Proof.
  intros ic cl c l Hl Hnw H. rewrite (classMatches_among ic cl c l Hl) in H.
  rewrite forallb_forall in Hnw. destruct ic.
  - apply existsb_exists in H as [a [Ha E]]. apply N.eqb_eq in E.
    destruct (isWhiteSpace c) eqn:Hc; [|reflexivity].
    assert (Huc : uncasedUnit c = true) by (unfold uncasedUnit; now rewrite Hc).
    rewrite (Canonicalize_fixed c Huc) in E.
    assert (Canonicalize a = a).
    { apply Canonicalize_uncasedUnit. now rewrite E. }
    assert (a = c) by congruence. subst a.
    apply Hnw in Ha. rewrite Hc in Ha. discriminate.
  - apply mem_In in H. apply Hnw in H. now apply negb_true_iff in H.
Qed.

(** ** Shapes of matches *)

Lemma consumes_unique : forall st w1 w2 st',
  consumes st w1 st' -> consumes st w2 st' -> w1 = w2.
Proof.
  intros st w1 w2 st' [A1 _] [A2 _]. rewrite A1 in A2.
  now apply app_inv_tail in A2.
Qed.

Lemma matchAt_consumes : forall re b a mr,
  matchAt re b a = Some mr ->
  exists st', steps (ignoreCase re) (pattern re) (mkState b a None) st'
              /\ consumes (mkState b a None) (match0 mr) st'.
Proof.
  intros re b a mr H.
  destruct (matchAt_spec _ _ _ _ H) as [st' [rest [Hs [Ha [Hr _]]]]].
  exists st'. split; [exact Hs|].
  destruct (steps_consumes _ _ _ _ Hs) as [w Hw].
  assert (w = match0 mr).
  { destruct Hw as [A _]. cbn [ahead] in A. rewrite Hr, Ha in A.
    now apply app_inv_tail in A. }
  now subst w.
Qed.

Lemma steps_seq_inv : forall ic r1 r2 st st'',
  steps ic (RSeq r1 r2) st st'' ->
  exists st', steps ic r1 st st' /\ steps ic r2 st' st''.
Proof. intros ic r1 r2 st st'' H. inversion H; subst. eauto. Qed.

Lemma steps_class_inv : forall ic cl st st',
  steps ic (RClass cl) st st' ->
  exists c, classMatches ic cl c = true /\ consumes st [c] st'.
Proof.
  intros ic cl st st' H. inversion H; subst.
  exists c. split; [assumption|apply consumes_one].
Qed.

Lemma steps_plus_inv : forall ic cl st st',
  steps ic (RPlus cl) st st' ->
  exists c w, classMatches ic cl c = true /\ consumes st (c :: w) st'.
Proof.
  intros ic cl st st' H. inversion H; subst.
  match goal with Hs : steps _ (RStar _) _ _ |- _ =>
    destruct (steps_consumes _ _ _ _ Hs) as [w Hw] end.
  exists c, w. split; [assumption|].
  change (c :: w) with ([c] ++ w).
  eapply consumes_trans; [apply consumes_one|exact Hw].
Qed.

Lemma steps_alt_inv : forall ic r1 r2 st st',
  steps ic (RAlt r1 r2) st st' -> steps ic r1 st st' \/ steps ic r2 st st'.
Proof. intros ic r1 r2 st st' H. inversion H; subst; auto. Qed.

(** A pattern that starts with a class consumes a member of the class. *)
Lemma steps_head_class : forall ic cl r st st',
  steps ic (RSeq (RClass cl) r) st st' ->
  exists c w, classMatches ic cl c = true /\ consumes st (c :: w) st'.
Proof.
  intros ic cl r st st' H. apply steps_seq_inv in H as [st1 [H1 H2]].
  apply steps_class_inv in H1 as [c [Hc Hc1]].
  destruct (steps_consumes _ _ _ _ H2) as [w Hw].
  exists c, w. split; [exact Hc|].
  change (c :: w) with ([c] ++ w). eapply consumes_trans; eauto.
Qed.
Lemma steps_first : forall ic r cls st st',
  firstClasses r = Some cls -> steps ic r st st' ->
  exists cl c w, In cl cls /\ classMatches ic cl c = true
                 /\ consumes st (c :: w) st'.
Proof.
  induction r as [|cl|r1 IH1 r2 IH2|r1 IH1 r2 IH2|cl|cl|r IH|r IH|cl];
    intros cls st st' Hf Hs; cbn [firstClasses] in Hf; try discriminate.
  - injection Hf as <-. apply steps_class_inv in Hs as [c [Hc Hw]].
    exists cl, c, []. cbn [In]. auto.
  - apply steps_seq_inv in Hs as [st1 [H1 H2]].
    destruct (IH1 _ _ _ Hf H1) as [cl [c [w [Hin [Hc Hw]]]]].
    destruct (steps_consumes _ _ _ _ H2) as [w2 Hw2].
    exists cl, c, (w ++ w2). repeat split; try assumption.
    + destruct Hw as [A _], Hw2 as [A2 _]. rewrite A, A2. cbn [app].
      now rewrite app_assoc.
    + destruct Hw as [_ B], Hw2 as [_ B2]. rewrite B2, B.
      change (c :: w ++ w2) with ((c :: w) ++ w2).
      now rewrite rev_app_distr, app_assoc.
  - destruct (firstClasses r1) as [l1|]; [|discriminate].
    destruct (firstClasses r2) as [l2|]; [|discriminate]. injection Hf as <-.
    apply steps_alt_inv in Hs as [Hs|Hs].
    + destruct (IH1 _ _ _ eq_refl Hs) as [cl [c [w [Hin H]]]].
      exists cl, c, w. split; [apply in_or_app; now left|exact H].
    + destruct (IH2 _ _ _ eq_refl Hs) as [cl [c [w [Hin H]]]].
      exists cl, c, w. split; [apply in_or_app; now right|exact H].
  - injection Hf as <-. apply steps_plus_inv in Hs as [c [w [Hc Hw]]].
    exists cl, c, w. cbn [In]. auto.
  - inversion Hs; subst.
    match goal with H : steps _ r _ _ |- _ =>
      destruct (IH _ _ _ Hf H) as [cl [c [w [Hin [Hc [A B]]]]]] end.
    exists cl, c, w. repeat split; assumption.
Qed.

Lemma advances_first : forall re cls,
  firstClasses (pattern re) = Some cls -> advances re.
Proof.
  intros re cls Hf b a mr H.
  destruct (matchAt_consumes _ _ _ _ H) as [st' [Hs Hm]].
  destruct (steps_first _ _ _ _ _ Hf Hs) as [cl [c [w [_ [_ Hw]]]]].
  rewrite (consumes_unique _ _ _ _ Hm Hw). discriminate.
Qed.

Lemma bulletPointRegex_advances : advances bulletPointRegex.
Proof. now apply (advances_first bulletPointRegex [CChar LF]). Qed.

Lemma numberedRegex_advances : advances numberedRegex.
Proof. now apply (advances_first numberedRegex [CChar LF]). Qed.

Lemma taskPhraseRegex_advances : advances taskPhraseRegex.
Proof.
  now apply (advances_first taskPhraseRegex [CChar (cu "."); CChar LF]).
Qed.

(** Both list patterns read [\n\s*] and then something that starts with a
    code unit that is no white space. *)
Lemma listPattern_shape : forall re r cls,
  pattern re = RSeq (RClass (CChar LF)) (RSeq (RStar CSpace) r) ->
  firstClasses r = Some cls -> forallb nonwsClass cls = true ->
  forall b a mr, matchAt re b a = Some mr -> listItemShape (match0 mr).
Proof.
  intros re r cls Hp Hf Hcls b a mr H.
  destruct (matchAt_consumes _ _ _ _ H) as [st' [Hs Hm]]. rewrite Hp in Hs.
  apply steps_seq_inv in Hs as [st1 [H1 Hs]].
  apply steps_seq_inv in Hs as [st2 [H2 H3]].
  apply steps_class_inv in H1 as [c0 [Hc0 Hw0]].
  assert (c0 = LF).
  { apply (classMatches_uncased _ (CChar LF) _ [LF] eq_refl eq_refl) in Hc0.
    destruct Hc0 as [<-|[]]. reflexivity. }
  subst c0.
  destruct (steps_consumes _ _ _ _ H2) as [x Hx].
  destruct (steps_first _ _ _ _ _ Hf H3) as [cl [c [y [Hin [Hc Hy]]]]].
  pose proof (consumes_trans _ _ _ _ _ Hw0 (consumes_trans _ _ _ _ _ Hx Hy)) as Hall.
  rewrite (consumes_unique _ _ _ _ Hm Hall).
  exists x, c, y. split; [reflexivity|].
  rewrite forallb_forall in Hcls. pose proof (Hcls cl Hin) as Hnw.
  unfold nonwsClass in Hnw. destruct (classMembers cl) as [l|] eqn:El; [|discriminate].
  exact (classMatches_nonws _ _ _ _ El Hnw Hc).
Qed.

Lemma bulletPointRegex_shape : forall b a mr,
  matchAt bulletPointRegex b a = Some mr -> listItemShape (match0 mr).
Proof.
  eapply listPattern_shape; [reflexivity|reflexivity|vm_compute; reflexivity].
Qed.

Lemma numberedRegex_shape : forall b a mr,
  matchAt numberedRegex b a = Some mr -> listItemShape (match0 mr).
Proof.
  eapply listPattern_shape; [reflexivity|reflexivity|vm_compute; reflexivity].
Qed.

(** Two successive list items lie on two non-blank lines. *)
Lemma two_items_two_lines : forall re,
  (forall b a mr, matchAt re b a = Some mr -> listItemShape (match0 mr)) ->
  forall s mr1 mr2,
    RegExpBuiltinExec re s 0 = Some mr1 ->
    RegExpBuiltinExec re s (index mr1 + length (match0 mr1)) = Some mr2 ->
    2 <= length (nonBlankLines s).
Proof.
  intros re Hshape s mr1 mr2 E1 E2.
  destruct (exec_spec _ _ _ _ E1) as [pre1 [rest1 [st1 [_ [Hs1 [Hi1 [_ [_ [_ Hm1]]]]]]]]].
  destruct (exec_spec _ _ _ _ E2) as [pre2 [rest2 [st2 [_ [Hs2 [_ [_ [_ [_ Hm2]]]]]]]]].
  cbn [skipn] in Hs1. rewrite Hi1 in Hs2. cbn [plus] in Hs2.
  assert (Hr : skipn (length pre1 + length (match0 mr1)) s = rest1).
  { rewrite Hs1 at 1. rewrite app_assoc, <- length_app.
    now rewrite skipn_app, Nat.sub_diag, skipn_all. }
  rewrite Hr in Hs2.
  destruct (Hshape _ _ _ Hm1) as [x1 [c1 [y1 [M1 W1]]]].
  destruct (Hshape _ _ _ Hm2) as [x2 [c2 [y2 [M2 W2]]]].
  rewrite Hs1, Hs2, M1, M2.
  replace (pre1 ++ (LF :: x1 ++ c1 :: y1) ++ pre2 ++ (LF :: x2 ++ c2 :: y2) ++ rest2)
    with (((pre1 ++ LF :: x1) ++ c1 :: (y1 ++ pre2)) ++ LF :: (x2 ++ c2 :: (y2 ++ rest2))).
  - now apply two_nonBlankLines.
  - cbn [app]. repeat (rewrite <- app_assoc; cbn [app]). reflexivity.
Qed.

Lemma pushCapture_length : forall mr pts,
  length (pushCapture mr pts) <= S (length pts).
Proof.
  intros mr pts. unfold pushCapture. destruct (group1 mr); [|lia].
  destruct (_ && _); [|lia]. rewrite length_app. cbn. lia.
Qed.

Lemma execLoop_two : forall (A : Type) (body : MatchResult -> list A -> list A),
  (forall mr acc, length (body mr acc) <= S (length acc)) ->
  forall re n s r,
    execLoop n re s 0 body [] = Some r -> 2 <= length r ->
    exists mr1 mr2,
      RegExpBuiltinExec re s 0 = Some mr1
      /\ RegExpBuiltinExec re s (index mr1 + length (match0 mr1)) = Some mr2.
Proof.
  intros A body Hbody re n s r H Hlen. destruct n as [|n]; [discriminate|].
  cbn [execLoop] in H. destruct (RegExpBuiltinExec re s 0) as [mr1|] eqn:E1.
  - destruct n as [|n]; [discriminate|]. cbn [execLoop] in H.
    destruct (RegExpBuiltinExec re s (index mr1 + length (match0 mr1)))
      as [mr2|] eqn:E2; [eauto|].
    injection H as <-. pose proof (Hbody mr1 []). cbn in *. lia.
  - injection H as <-. cbn in Hlen. lia.
Qed.

Lemma bulletPoints_total : forall prompt, exists pts, bulletPoints prompt = Some pts.
Proof.
  intros. apply execLoop_total; [apply bulletPointRegex_advances| |];
    unfold execFuel; lia.
Qed.

Lemma numberedPoints_total : forall prompt, exists pts, numberedPoints prompt = Some pts.
Proof.
  intros. apply execLoop_total; [apply numberedRegex_advances| |];
    unfold execFuel; lia.
Qed.

(** Two bullet points, or two numbered items, need two non-blank lines. *)
Lemma bulletPoints_lines : forall prompt pts,
  bulletPoints prompt = Some pts -> 2 <= length pts ->
  2 <= length (nonBlankLines prompt).
Proof.
  intros prompt pts H Hlen.
  destruct (execLoop_two _ _ pushCapture_length _ _ _ _ H Hlen) as [mr1 [mr2 [E1 E2]]].
  exact (two_items_two_lines _ bulletPointRegex_shape _ _ _ E1 E2).
Qed.

Lemma numberedPoints_lines : forall prompt pts,
  numberedPoints prompt = Some pts -> 2 <= length pts ->
  2 <= length (nonBlankLines prompt).
Proof.
  intros prompt pts H Hlen.
  destruct (execLoop_two _ _ pushCapture_length _ _ _ _ H Hlen) as [mr1 [mr2 [E1 E2]]].
  exact (two_items_two_lines _ numberedRegex_shape _ _ _ E1 E2).
Qed.
(** ** Candidate tasks *)

Lemma goodTask_trim : forall x, trim x <> [] -> goodTask (trim x).
Proof. intros x H. split; [exact H|apply trim_idempotent]. Qed.

Lemma goodTask_nonblank : forall t, goodTask t -> blank t = false.
Proof.
  intros [|c r] [Hne Ht]; [congruence|].
  pose proof (trim_headOk (c :: r)) as H. rewrite Ht in H. cbn [headOk] in H.
  unfold blank. cbn [forallb]. now rewrite H.
Qed.

Lemma truthy_nonnil : forall s, truthy s = true -> s <> [].
Proof. intros [|] H; [discriminate|discriminate]. Qed.

Lemma Forall_snoc : forall (A : Type) (P : A -> Prop) l x,
  Forall P l -> P x -> Forall P (l ++ [x]).
Proof. intros A P l x Hl Hx. apply Forall_app. split; [exact Hl|now constructor]. Qed.

Lemma fold_left_invariant : forall (A B : Type) (P : A -> Prop) (f : A -> B -> A),
  (forall a b, P a -> P (f a b)) ->
  forall l a, P a -> P (fold_left f l a).
Proof.
  intros A B P f Hf. induction l as [|b l IH]; intros a Ha; cbn [fold_left];
    [exact Ha|]. apply IH, Hf, Ha.
Qed.

(** Case split on the guard of a conditional push; the case in which
    nothing is pushed is closed with the invariant [H]. *)
Ltac pushed H E :=
  match goal with
  | |- context [if ?g then _ else _] => destruct g eqn:E; [|exact H]
  end.

Lemma separatorStep_good : forall st sep,
  Forall goodTask (fst st) -> Forall goodTask (fst (separatorStep st sep)).
Proof.
  intros [tasks rem] sep H. unfold separatorStep.
  destruct (String_match rem sep) as [m|]; [|exact H]. cbn [fst] in *.
  pushed H E. apply Forall_snoc; [exact H|].
  apply andb_prop in E as [E _]. apply andb_prop in E as [E _].
  apply goodTask_trim. now apply truthy_nonnil.
Qed.

Lemma separatorPass_good : forall prompt,
  Forall goodTask (fst (separatorPass prompt)).
Proof.
  intros prompt. unfold separatorPass.
  apply fold_left_invariant with (P := fun st => Forall goodTask (fst st));
    [apply separatorStep_good|constructor].
Qed.

Lemma phraseStep_good : forall prompt m tasks,
  Forall goodTask tasks -> Forall goodTask (phraseStep prompt m tasks).
Proof.
  intros prompt m tasks H. unfold phraseStep.
  pushed H E. apply Forall_snoc; [exact H|].
  apply andb_prop in E as [E _]. apply andb_prop in E as [E _].
  apply goodTask_trim. now apply truthy_nonnil.
Qed.

Lemma keywordPass_good : forall prompt tasks r,
  Forall goodTask tasks -> keywordPass prompt tasks = Some r ->
  Forall goodTask r.
Proof.
  intros prompt tasks r H E. unfold keywordPass in E.
  eapply execLoop_invariant with (P := Forall goodTask); [|exact H|exact E].
  intros mr acc. apply phraseStep_good.
Qed.

Lemma appendRemainder_good : forall tasks rem,
  Forall goodTask tasks -> Forall goodTask (appendRemainder tasks rem).
Proof.
  intros tasks rem H. unfold appendRemainder, remainderAppended.
  pushed H E. apply Forall_snoc; [exact H|].
  apply andb_prop in E as [E _]. apply goodTask_trim. now apply truthy_nonnil.
Qed.

Lemma sentences_good : forall prompt r,
  sentences prompt = Some r -> Forall goodTask r.
Proof.
  intros prompt r H. unfold sentences in H.
  destruct (split prompt sentenceBoundary) as [segs|]; [|discriminate].
  cbn [bind] in H. injection H as <-. apply Forall_forall. intros t Ht.
  apply in_map_iff in Ht as [x [<- Hx]]. apply filter_In in Hx as [_ Hx].
  apply goodTask_trim. destruct (trim x); [discriminate|discriminate].
Qed.

Lemma keywordPass_total : forall prompt tasks,
  exists r, keywordPass prompt tasks = Some r.
Proof.
  intros. apply execLoop_total; [apply taskPhraseRegex_advances| |];
    unfold execFuel; lia.
Qed.

Lemma sentences_total : forall prompt, exists r, sentences prompt = Some r.
Proof.
  intros prompt. unfold sentences.
  destruct (split_total prompt sentenceBoundary) as [segs ->]. cbn [bind]. eauto.
Qed.

(** *** Chunks *)

Lemma chunkLoop_total : forall chunkSize words fuel i tasks,
  0 < chunkSize -> 0 < fuel -> length words < i + fuel ->
  exists r, chunkLoop fuel words chunkSize i tasks = Some r.
Proof.
  intros chunkSize words. induction fuel as [|fuel IH]; intros i tasks Hc Hf Hl; [lia|].
  cbn [chunkLoop]. destruct (i <? length words) eqn:E; [|eauto].
  apply Nat.ltb_lt in E. apply IH; lia.
Qed.

Lemma chunkLoop_extends : forall chunkSize words fuel i tasks r,
  chunkLoop fuel words chunkSize i tasks = Some r ->
  exists more, r = tasks ++ more.
Proof.
  intros chunkSize words. induction fuel as [|fuel IH]; intros i tasks r H;
    [discriminate|].
  cbn [chunkLoop] in H. destruct (i <? length words).
  - apply IH in H as [more ->]. destruct (0 <? length _).
    + exists ([join [SP] (slice words i (i + chunkSize))] ++ more).
      now rewrite app_assoc.
    + eauto.
  - injection H as <-. exists []. now rewrite app_nil_r.
Qed.

Lemma In_firstn : forall (A : Type) n (l : list A) x, In x (firstn n l) -> In x l.
Proof.
  intros A n l x H. rewrite <- (firstn_skipn n l). apply in_or_app. now left.
Qed.

Lemma In_skipn : forall (A : Type) n (l : list A) x, In x (skipn n l) -> In x l.
Proof.
  intros A n l x H. rewrite <- (firstn_skipn n l). apply in_or_app. now right.
Qed.

Lemma join_In : forall sep l w c, In w l -> In c w -> In c (join sep l).
Proof.
  intros sep. induction l as [|x l IH]; intros w c Hw Hc; [destruct Hw|].
  cbn [join]. destruct l as [|y l].
  - destruct Hw as [->|[]]. exact Hc.
  - apply in_or_app. destruct Hw as [->|Hw]; [now left|].
    right. apply in_or_app. right. eapply IH; eauto.
Qed.

Lemma In_join : forall sep l c,
  In c (join sep l) -> In c sep \/ exists w, In w l /\ In c w.
Proof.
  intros sep. induction l as [|x l IH]; intros c H; [destruct H|].
  cbn [join] in H. destruct l as [|y l].
  - right. exists x. cbn. auto.
  - apply in_app_or in H as [H|H]; [right; exists x; cbn; auto|].
    apply in_app_or in H as [H|H]; [now left|].
    destruct (IH c H) as [Hs|[w [Hw Hc]]]; [now left|].
    right. exists w. split; [now right|exact Hc].
Qed.

Lemma slice_nth : forall (A : Type) (l : list A) i n j w,
  nth_error l j = Some w -> i <= j -> j < i + n -> In w (slice l i (i + n)).
Proof.
  intros A l i n j w H Hi Hj. unfold slice.
  apply (nth_error_In _ (j - i)).
  rewrite nth_error_firstn, nth_error_skipn.
  replace (j - i <? i + n - i) with true by (symmetry; apply Nat.ltb_lt; lia).
  now replace (i + (j - i)) with j by lia.
Qed.

Lemma chunkLoop_covers : forall chunkSize words fuel i tasks r j w,
  0 < chunkSize ->
  chunkLoop fuel words chunkSize i tasks = Some r ->
  i <= j -> nth_error words j = Some w -> blank w = false ->
  exists t, In t r /\ blank t = false.
Proof.
  intros chunkSize words. induction fuel as [|fuel IH];
    intros i tasks r j w Hc H Hi Hj Hw; [discriminate|].
  cbn [chunkLoop] in H. destruct (i <? length words) eqn:E.
  - destruct (Nat.lt_ge_cases j (i + chunkSize)) as [Hlt|Hge].
    + pose proof (slice_nth _ words i chunkSize j w Hj Hi Hlt) as Hin.
      assert (Hb : blank (join [SP] (slice words i (i + chunkSize))) = false).
      { apply blank_false_In in Hw as [c [Hcw Hcs]]. apply blank_false_In.
        exists c. split; [eapply join_In; eauto|exact Hcs]. }
      rewrite nonblank_test, Hb in H. cbn [negb] in H.
      apply chunkLoop_extends in H as [more ->].
      exists (join [SP] (slice words i (i + chunkSize))). split; [|exact Hb].
      apply in_or_app. left. apply in_or_app. right. now left.
    + eapply IH; [exact Hc|exact H|exact Hge|exact Hj|exact Hw].
  - apply Nat.ltb_ge in E.
    assert (j < length words) by (apply nth_error_Some; congruence). lia.
Qed.

Lemma isWhiteSpace_class : forall c, classMatches false CSpace c = isWhiteSpace c.
Proof. reflexivity. Qed.

Lemma chunks_total : forall prompt, exists r, chunks prompt = Some r.
Proof.
  intros prompt. unfold chunks, whitespaceRegex. rewrite split_runs. cbn [bind].
  apply chunkLoop_total; lia.
Qed.

Lemma chunks_nonblank : forall prompt r,
  blank prompt = false -> chunks prompt = Some r ->
  exists t, In t r /\ blank t = false.
Proof.
  intros prompt r Hb H. unfold chunks, whitespaceRegex in H.
  rewrite split_runs in H. cbn [bind] in H.
  apply blank_false_In in Hb as [c [Hc Hcs]].
  destruct (splitRuns_keeps (classMatches false CSpace) c prompt false [])
    as [w [Hw Hcw]]; [exact Hcs|exact Hc|discriminate|].
  apply In_nth_error in Hw as [j Hj].
  eapply chunkLoop_covers; [|exact H| |exact Hj|]; [lia|lia|].
  apply blank_false_In. eauto.
Qed.
(** *** Where the code units of a task come from *)

Lemma In_trim : forall s c, In c (trim s) -> In c s.
Proof.
  intros s c H. destruct (trim_split s) as [w1 [w2 [E _]]]. rewrite E.
  apply in_or_app. right. apply in_or_app. now left.
Qed.

Lemma In_substring : forall s a b c, In c (substring s a b) -> In c s.
Proof.
  intros s a b c H. unfold substring in H.
  apply In_firstn in H. now apply In_skipn in H.
Qed.

Lemma drawnFrom_trim : forall s x,
  (forall c, In c x -> In c s) -> drawnFrom s (trim x).
Proof. intros s x H c Hc _. apply H. now apply In_trim. Qed.

Lemma separatorStep_drawn : forall prompt st sep,
  Forall (drawnFrom prompt) (fst st) /\ (forall c, In c (snd st) -> In c prompt) ->
  Forall (drawnFrom prompt) (fst (separatorStep st sep))
  /\ (forall c, In c (snd (separatorStep st sep)) -> In c prompt).
Proof.
  intros prompt [tasks rem] sep [H1 H2]. unfold separatorStep. cbn [fst snd] in *.
  destruct (String_match rem sep) as [m|]; [|auto]. cbn [fst snd]. split.
  - pushed H1 E. apply Forall_snoc; [exact H1|].
    apply drawnFrom_trim. intros c Hc. apply H2. eapply In_substring; eauto.
  - intros c Hc. apply H2. eapply In_substring; eauto.
Qed.

Lemma separatorPass_drawn : forall prompt,
  Forall (drawnFrom prompt) (fst (separatorPass prompt))
  /\ (forall c, In c (snd (separatorPass prompt)) -> In c prompt).
Proof.
  intros prompt. unfold separatorPass.
  apply fold_left_invariant
    with (P := fun st => Forall (drawnFrom prompt) (fst st)
                         /\ (forall c, In c (snd st) -> In c prompt)).
  - intros st sep. apply separatorStep_drawn.
  - split; [constructor|auto].
Qed.

Lemma phraseStep_drawn : forall prompt m tasks,
  Forall (drawnFrom prompt) tasks ->
  Forall (drawnFrom prompt) (phraseStep prompt m tasks).
Proof.
  intros prompt m tasks H. unfold phraseStep.
  pushed H E. apply Forall_snoc; [exact H|].
  apply drawnFrom_trim. intros c Hc. eapply In_substring; eauto.
Qed.

Lemma splitLoop_drawn : forall re fuel a b cur acc r,
  splitLoop fuel re b a cur acc = Some r ->
  forall t, In t r -> In t acc \/ (forall c, In c t -> In c cur \/ In c a).
Proof.
  intros re. induction fuel as [|fuel IH]; intros a b cur acc r H t Ht;
    [discriminate|].
  cbn [splitLoop] in H. destruct a as [|x a].
  - injection H as <-. apply in_app_or in Ht as [Ht|[<-|[]]]; auto.
  - assert (Hadv : forall r', splitLoop fuel re (x :: b) a (cur ++ [x]) acc = Some r' ->
                     In t r' -> In t acc \/ (forall c, In c t -> In c cur \/ In c (x :: a))).
    { intros r' H' Ht'. destruct (IH _ _ _ _ _ H' t Ht') as [Hin|Hc]; [now left|].
      right. intros c Hct. destruct (Hc c Hct) as [Hcur|Ha].
      - apply in_app_or in Hcur as [Hcur|[<-|[]]]; [now left|right; now left].
      - right. now right. }
    destruct (matchAt re b (x :: a)) as [mr|]; [|eauto].
    destruct ((length (match0 mr) =? 0) && (length cur =? 0)); [eauto|].
    destruct (IH _ _ _ _ _ H t Ht) as [Hin|Hc].
    + apply in_app_or in Hin as [Hin|[<-|[]]]; [now left|]. right. auto.
    + right. intros c Hct. destruct (Hc c Hct) as [[]|Ha].
      right. eapply In_skipn; eauto.
Qed.

Lemma split_drawn : forall s re segs,
  split s re = Some segs -> forall t c, In t segs -> In c t -> In c s.
Proof.
  intros s re segs H t c Ht Hc. unfold split in H. destruct s as [|x s].
  - destruct (matchAt re [] []); injection H as <-; [destruct Ht|].
    destruct Ht as [<-|[]]. exact Hc.
  - destruct (splitLoop_drawn _ _ _ _ _ _ _ H t Ht) as [[]|Hd].
    destruct (Hd c Hc) as [[]|Hin]. exact Hin.
Qed.

Lemma sentences_drawn : forall prompt r,
  sentences prompt = Some r -> Forall (drawnFrom prompt) r.
Proof.
  intros prompt r H. unfold sentences in H.
  destruct (split prompt sentenceBoundary) as [segs|] eqn:E; [|discriminate].
  cbn [bind] in H. injection H as <-. apply Forall_forall. intros t Ht.
  apply in_map_iff in Ht as [x [<- Hx]]. apply filter_In in Hx as [Hx _].
  apply drawnFrom_trim. intros c Hc. eapply split_drawn; eauto.
Qed.

Lemma chunkLoop_drawn : forall prompt chunkSize (words : list jsstring),
  (forall w c, In w words -> In c w -> In c prompt) ->
  forall fuel i tasks r,
    Forall (drawnFrom prompt) tasks ->
    chunkLoop fuel words chunkSize i tasks = Some r ->
    Forall (drawnFrom prompt) r.
Proof.
  intros prompt chunkSize words Hw. induction fuel as [|fuel IH];
    intros i tasks r Ht H; [discriminate|].
  cbn [chunkLoop] in H. destruct (i <? length words).
  - eapply IH; [|exact H]. destruct (0 <? length _); [|exact Ht].
    apply Forall_app. split; [exact Ht|]. constructor; [|constructor].
    intros c Hc Hcs. apply In_join in Hc as [[<-|[]]|[w [Hin Hcw]]].
    + discriminate.
    + eapply Hw; [|exact Hcw]. unfold slice in Hin.
      apply In_firstn in Hin. now apply In_skipn in Hin.
  - now injection H as <-.
Qed.

Lemma chunks_drawn : forall prompt r,
  chunks prompt = Some r -> Forall (drawnFrom prompt) r.
Proof.
  intros prompt r H. unfold chunks in H.
  destruct (split prompt whitespaceRegex) as [words|] eqn:E; [|discriminate].
  cbn [bind] in H. eapply chunkLoop_drawn; [|constructor|exact H].
  intros w c Hw Hc. eapply split_drawn; eauto.
Qed.

(** *** The candidates *)

Lemma candidates_total : forall prompt, exists tasks, candidates prompt = Some tasks.
Proof.
  intros prompt. unfold candidates. destruct (separatorPass prompt) as [tasks rem].
  destruct (keywordPass_total prompt tasks) as [t1 ->]. cbn [bind].
  destruct (length (appendRemainder t1 rem) <=? 1).
  - destruct (sentences_total prompt) as [t2 ->]. cbn [bind].
    destruct (length t2 <=? 1); [apply chunks_total|eauto].
  - cbn [bind]. destruct (length _ <=? 1); [apply chunks_total|eauto].
Qed.

Lemma candidates_drawn : forall prompt tasks,
  candidates prompt = Some tasks -> Forall (drawnFrom prompt) tasks.
Proof.
  intros prompt tasks H. unfold candidates in H.
  pose proof (separatorPass_drawn prompt) as [D1 D2].
  destruct (separatorPass prompt) as [t0 rem]. cbn [fst snd] in *.
  destruct (keywordPass prompt t0) as [t1|] eqn:E1; [|discriminate].
  cbn [bind] in H.
  assert (D2' : Forall (drawnFrom prompt) t1).
  { eapply execLoop_invariant with (P := Forall (drawnFrom prompt));
      [|exact D1|exact E1].
    intros mr acc. apply phraseStep_drawn. }
  assert (D3 : Forall (drawnFrom prompt) (appendRemainder t1 rem)).
  { unfold appendRemainder. pushed D2' E. apply Forall_snoc; [exact D2'|].
    now apply drawnFrom_trim. }
  destruct (length (appendRemainder t1 rem) <=? 1).
  - destruct (sentences prompt) as [t2|] eqn:E2; [|discriminate]. cbn [bind] in H.
    destruct (length t2 <=? 1); [now apply chunks_drawn|].
    injection H as <-. now apply sentences_drawn.
  - cbn [bind] in H. destruct (length _ <=? 1); [now apply chunks_drawn|].
    now injection H as <-.
Qed.

Lemma two_good_nonblank : forall l,
  Forall goodTask l -> (length l <=? 1) = false ->
  exists t, In t l /\ blank t = false.
Proof.
  intros [|t l] H E; [discriminate|].
  exists t. split; [now left|]. apply goodTask_nonblank. now inversion H.
Qed.

Lemma candidates_nonblank : forall prompt tasks,
  blank prompt = false -> candidates prompt = Some tasks ->
  exists t, In t tasks /\ blank t = false.
Proof.
  intros prompt tasks Hb H. unfold candidates in H.
  pose proof (separatorPass_good prompt) as G0.
  destruct (separatorPass prompt) as [t0 rem]. cbn [fst] in G0.
  destruct (keywordPass prompt t0) as [t1|] eqn:E1; [|discriminate].
  cbn [bind] in H.
  pose proof (appendRemainder_good _ rem (keywordPass_good _ _ _ G0 E1)) as G1.
  destruct (length (appendRemainder t1 rem) <=? 1) eqn:L1.
  - destruct (sentences prompt) as [t2|] eqn:E2; [|discriminate]. cbn [bind] in H.
    destruct (length t2 <=? 1) eqn:L2; [now apply (chunks_nonblank prompt)|].
    injection H as <-. apply two_good_nonblank; [|exact L2].
    now apply (sentences_good prompt).
  - cbn [bind] in H. rewrite L1 in H. injection H as <-.
    now apply two_good_nonblank.
Qed.
(** ** Normalisation, bound and last resort *)

Lemma normalize_nonempty : forall tasks t,
  In t tasks -> blank t = false -> normalize tasks <> [].
Proof.
  intros tasks t Hin Hb E. unfold normalize in E. apply map_eq_nil in E.
  assert (H : In (trim t) (filter (fun task => 0 <? length task) (map trim tasks))).
  { apply filter_In. split; [now apply in_map|].
    rewrite nonblank_test, Hb. reflexivity. }
  rewrite E in H. destruct H.
Qed.

Lemma normalize_blank : forall tasks,
  Forall (fun t => blank t = true) tasks -> normalize tasks = [].
Proof.
  induction 1 as [|t l Ht _ IH]; [reflexivity|].
  unfold normalize in *. cbn [map filter]. rewrite (trim_blank t Ht). exact IH.
Qed.

Lemma limit_firstn : forall tasks, limit tasks = firstn maxTasks tasks.
Proof.
  intros tasks. unfold limit, slice. destruct (maxTasks <? length tasks) eqn:E.
  - reflexivity.
  - apply Nat.ltb_ge in E. now rewrite firstn_all2.
Qed.

Lemma limit_length : forall tasks, length (limit tasks) <= maxTasks.
Proof. intros. rewrite limit_firstn. apply firstn_le_length. Qed.

Lemma limit_nil : forall tasks, limit tasks = [] -> tasks = [].
Proof. intros [|t l] H; [reflexivity|]. rewrite limit_firstn in H. discriminate. Qed.

Lemma limit_Forall : forall (P : jsstring -> Prop) tasks,
  Forall P tasks -> Forall P (limit tasks).
Proof.
  intros P tasks H. rewrite limit_firstn. apply Forall_forall. intros t Ht.
  apply In_firstn in Ht. rewrite Forall_forall in H. auto.
Qed.

Lemma finish_length : forall prompt tasks,
  1 <= length (finish prompt tasks) <= maxTasks.
Proof.
  intros prompt tasks. unfold finish.
  pose proof (limit_length (normalize tasks)) as H.
  destruct (length (limit (normalize tasks)) =? 0) eqn:E.
  - cbn. unfold maxTasks. lia.
  - apply Nat.eqb_neq in E. rewrite length_map. lia.
Qed.

Lemma finish_normal : forall prompt tasks,
  normalize tasks <> [] ->
  finish prompt tasks = map descriptor (limit (normalize tasks))
  /\ Forall (fun d => normalForm (task d)) (finish prompt tasks).
Proof.
  intros prompt tasks H. unfold finish.
  destruct (length (limit (normalize tasks)) =? 0) eqn:E.
  - apply Nat.eqb_eq, length_zero_iff_nil, limit_nil in E. congruence.
  - split; [reflexivity|]. apply Forall_map. cbn [task descriptor].
    apply limit_Forall, normalize_normalForm.
Qed.

Lemma finish_blank : forall prompt tasks,
  normalize tasks = [] -> finish prompt tasks = [descriptor prompt].
Proof. intros prompt tasks H. unfold finish. now rewrite H. Qed.

Lemma drawnFrom_blank : forall prompt t,
  blank prompt = true -> drawnFrom prompt t -> blank t = true.
Proof.
  intros prompt t Hb Hd. destruct (blank t) eqn:E; [reflexivity|].
  apply blank_false_In in E as [c [Hc Hcs]].
  assert (blank prompt = false) by (apply blank_false_In; eauto). congruence.
Qed.

Lemma nonBlankLines_drawn : forall prompt l c,
  In l (nonBlankLines prompt) -> In c l -> In c prompt.
Proof.
  intros prompt l c Hl Hc. pose proof (lines_nonBlankLines prompt) as H.
  unfold lines in H. destruct (split prompt newlineRegex) as [segs|] eqn:E;
    [|discriminate].
  cbn [bind] in H. injection H as H. rewrite <- H in Hl.
  apply filter_In in Hl as [Hl _]. eapply split_drawn; eauto.
Qed.

Lemma nonBlankLines_blank : forall prompt,
  blank prompt = true -> nonBlankLines prompt = [].
Proof.
  intros prompt Hb. destruct (nonBlankLines prompt) as [|l ls] eqn:E; [reflexivity|].
  assert (Hl : In l (nonBlankLines prompt)) by (rewrite E; now left).
  assert (Hnb : blank l = false).
  { unfold nonBlankLines in Hl. apply filter_In in Hl as [_ Hl].
    now apply negb_true_iff in Hl. }
  apply blank_false_In in Hnb as [c [Hc Hcs]].
  assert (blank prompt = false).
  { apply blank_false_In. exists c. split; [|exact Hcs].
    eapply nonBlankLines_drawn; eauto. }
  congruence.
Qed.

(** ** The two ways out of [fallbackBreakdown] *)

Lemma fallbackBreakdown_lines : forall prompt,
  2 <= length (nonBlankLines prompt) ->
  fallbackBreakdown prompt
  = Some (map (fun line => descriptor (trim line)) (nonBlankLines prompt)).
Proof.
  intros prompt H. unfold fallbackBreakdown. rewrite tasksFromLines_spec.
  cbn [bind]. rewrite length_map.
  now replace (2 <=? length (nonBlankLines prompt)) with true
    by (symmetry; now apply Nat.leb_le).
Qed.

Lemma fallbackBreakdown_cascade : forall prompt,
  length (nonBlankLines prompt) < 2 ->
  fallbackBreakdown prompt = cascade prompt.
Proof.
  intros prompt H. unfold fallbackBreakdown. rewrite tasksFromLines_spec.
  cbn [bind]. rewrite length_map.
  replace (2 <=? length (nonBlankLines prompt)) with false
    by (symmetry; apply Nat.leb_gt; exact H).
  destruct (bulletPoints_total prompt) as [bs Eb]. rewrite Eb. cbn [bind].
  destruct (numberedPoints_total prompt) as [ns En]. rewrite En. cbn [bind].
  destruct (2 <=? length bs) eqn:Lb.
  { apply Nat.leb_le in Lb. pose proof (bulletPoints_lines _ _ Eb Lb). lia. }
  destruct (2 <=? length ns) eqn:Ln.
  { apply Nat.leb_le in Ln. pose proof (numberedPoints_lines _ _ En Ln). lia. }
  reflexivity.
Qed.

Lemma cascade_finish : forall prompt,
  exists tasks, candidates prompt = Some tasks
                /\ cascade prompt = Some (finish prompt tasks).
Proof.
  intros prompt. destruct (candidates_total prompt) as [tasks E].
  exists tasks. split; [exact E|]. unfold cascade. now rewrite E.
Qed.

Lemma fallbackBreakdown_cases : forall prompt,
  (2 <= length (nonBlankLines prompt)
   /\ fallbackBreakdown prompt
      = Some (map (fun line => descriptor (trim line)) (nonBlankLines prompt)))
  \/ (length (nonBlankLines prompt) < 2
      /\ exists tasks, candidates prompt = Some tasks
                       /\ fallbackBreakdown prompt = Some (finish prompt tasks)).
Proof.
  intros prompt. destruct (Nat.le_gt_cases 2 (length (nonBlankLines prompt))) as [H|H].
  - left. split; [exact H|now apply fallbackBreakdown_lines].
  - right. split; [exact H|]. destruct (cascade_finish prompt) as [tasks [E1 E2]].
    exists tasks. split; [exact E1|]. now rewrite fallbackBreakdown_cascade.
Qed.

Lemma nonBlankLines_good : forall prompt,
  Forall (fun l => goodTask (trim l)) (nonBlankLines prompt).
Proof.
  intros prompt. apply Forall_forall. intros l Hl. unfold nonBlankLines in Hl.
  apply filter_In in Hl as [_ Hl]. apply negb_true_iff in Hl.
  apply goodTask_trim. intros E. apply trim_nil_blank in E. congruence.
Qed.
(** ** Adequacy of the model *)

(** With the [i] flag the class [.] accepts a code unit when some code
    unit that is no line terminator has the same canonical form; this is
    the test [classMatches] makes. *)
Lemma dot_ignoreCase : forall c,
  classMatches true CDot c = true
  <-> exists a, isLineTerminator a = false /\ Canonicalize a = Canonicalize c.
Proof.
  assert (Hlt : forall a, isLineTerminator a = true -> uncasedUnit a = true).
  { intros a H. apply mem_In in H. unfold uncasedUnit.
    replace (isWhiteSpace a) with true; [reflexivity|]. symmetry.
    apply mem_In. cbn in H. cbn. intuition. }
  intros c. unfold classMatches. rewrite negb_true_iff. split.
  - intros H. exists c. auto.
  - intros [a [Ha E]]. destruct (isLineTerminator c) eqn:Hc; [|reflexivity].
    pose proof (Hlt c Hc) as Hu. rewrite (Canonicalize_fixed c Hu) in E.
    assert (Canonicalize a = a) by (apply Canonicalize_uncasedUnit; now rewrite E).
    congruence.
Qed.

(** More fuel does not change the result of the chunking loop either. *)
Lemma chunkLoop_more_fuel : forall words chunkSize n m i tasks r,
  chunkLoop n words chunkSize i tasks = Some r -> n <= m ->
  chunkLoop m words chunkSize i tasks = Some r.
Proof.
  intros words chunkSize. induction n as [|n IH]; intros m i tasks r H Hle;
    [discriminate|].
  destruct m as [|m]; [lia|]. cbn [chunkLoop] in *.
  destruct (i <? length words); [|exact H]. apply IH; [exact H|lia].
Qed.
(* ================================================================== *)
(** * The properties of the specification *)

(** ** Totality and size of the result *)

(** C1, as the specification states it, fails twice.  On the empty prompt
    the last resort wraps the prompt itself, whose task is empty; on the
    prompt of eight lines the line split returns eight descriptors. *)
Lemma totality_fails :
  fallbackBreakdown [] = Some [descriptor []]
  /\ ~ (exists ds, fallbackBreakdown [] = Some ds
                   /\ 1 <= length ds <= 5
                   /\ Forall (fun d => trim (task d) <> []) ds)
  /\ ~ (exists ds, fallbackBreakdown promptEight = Some ds
                   /\ 1 <= length ds <= 5
                   /\ Forall (fun d => trim (task d) <> []) ds).
Proof.
  split; [reflexivity|]. split.
  - intros [ds [H [_ HF]]]. vm_compute in H. injection H as <-.
    inversion HF as [|d l Hd _]; subst. apply Hd. reflexivity.
  - intros [ds [H [[_ HL] _]]].
    assert (E : fallbackBreakdown promptEight = Some (map descriptor eightItems))
      by (vm_compute; reflexivity).
    rewrite E in H. injection H as <-. cbn in HL. lia.
Qed.

(** C1 (amended).  For every prompt [fallbackBreakdown] returns a list that
    is not empty.  With fewer than two non-blank lines the list has at
    most 5 descriptors; with two or more it has one descriptor per
    non-blank line.  If the prompt holds a code unit that is no white
    space, every returned task is non-empty after trimming; if the prompt
    is empty or white space only, the result is the single descriptor that
    wraps the prompt unchanged. *)
Theorem fallbackBreakdown_total : forall prompt,
  exists ds,
    fallbackBreakdown prompt = Some ds
    /\ 1 <= length ds
    /\ (length (nonBlankLines prompt) < 2 -> length ds <= maxTasks)
    /\ (2 <= length (nonBlankLines prompt) ->
        length ds = length (nonBlankLines prompt))
    /\ (blank prompt = false -> Forall (fun d => trim (task d) <> []) ds)
    /\ (blank prompt = true -> ds = [descriptor prompt]).
Proof.
  intros prompt.
  destruct (fallbackBreakdown_cases prompt) as [[Hl E]|[Hl [tasks [Ec E]]]].
  - eexists. split; [exact E|]. rewrite length_map.
    split; [lia|]. split; [lia|]. split; [reflexivity|]. split.
    + intros _. apply Forall_map. cbn [task descriptor].
      eapply Forall_impl; [|apply nonBlankLines_good].
      intros l [Hne Ht]. now rewrite Ht.
    + intros Hb. rewrite (nonBlankLines_blank _ Hb) in Hl. cbn in Hl. lia.
  - eexists. split; [exact E|]. pose proof (finish_length prompt tasks) as HL.
    split; [lia|]. split; [lia|]. split; [lia|]. split.
    + intros Hb. destruct (candidates_nonblank _ _ Hb Ec) as [t [Ht Htb]].
      destruct (finish_normal prompt tasks (normalize_nonempty _ _ Ht Htb)) as [_ HF].
      eapply Forall_impl; [|exact HF].
      intros d [Hne [Htr _]]. now rewrite Htr.
    + intros Hb. apply finish_blank, normalize_blank.
      eapply Forall_impl; [|apply (candidates_drawn _ _ Ec)].
      intros t. now apply drawnFrom_blank.
Qed.

Lemma fallbackBreakdown_total_witness :
  exists ds,
    fallbackBreakdown promptHi = Some ds /\ 1 <= length ds
    /\ length ds <= maxTasks
    /\ Forall (fun d => trim (task d) <> []) ds.
Proof.
  destruct (fallbackBreakdown_total promptHi) as [ds [E [H1 [H2 [_ [H3 _]]]]]].
  exists ds. split; [exact E|]. split; [exact H1|]. split.
  - apply H2. vm_compute. lia.
  - apply H3. reflexivity.
Defined.

(** C2, as the specification states it, fails on the prompt of eight
    numbered items: the line split returns the eight lines as they are. *)
Lemma bound_fails_on_eight_items :
  fallbackBreakdown promptEight = Some (map descriptor eightItems)
  /\ ~ (forall ds, fallbackBreakdown promptEight = Some ds ->
                   length ds <= maxTasks).
Proof.
  assert (E : fallbackBreakdown promptEight = Some (map descriptor eightItems))
    by (vm_compute; reflexivity).
  split; [exact E|]. intros H. specialize (H _ E).
  unfold maxTasks, eightItems in H. cbn [map length] in H. lia.
Qed.

(** C2 (amended).  With fewer than two non-blank lines the result has at
    most 5 ([maxTasks]) descriptors, whichever later pass produced the
    candidates; with two or more non-blank lines the line split returns
    one descriptor per non-blank line, so that the prompt of eight
    numbered items yields its eight lines. *)
Theorem fallbackBreakdown_bound :
  (forall prompt, exists ds,
      fallbackBreakdown prompt = Some ds
      /\ (length (nonBlankLines prompt) < 2 -> length ds <= maxTasks)
      /\ (2 <= length (nonBlankLines prompt) ->
          length ds = length (nonBlankLines prompt)))
  /\ fallbackBreakdown promptEight = Some (map descriptor eightItems).
Proof.
  split; [|vm_compute; reflexivity]. intros prompt.
  destruct (fallbackBreakdown_cases prompt) as [[Hl E]|[Hl [tasks [Ec E]]]].
  - eexists. split; [exact E|]. rewrite length_map. split; [lia|reflexivity].
  - eexists. split; [exact E|]. pose proof (finish_length prompt tasks).
    split; lia.
Qed.

Lemma fallbackBreakdown_bound_witness :
  exists ds, fallbackBreakdown promptShortTail = Some ds /\ length ds <= maxTasks.
Proof.
  destruct (proj1 fallbackBreakdown_bound promptShortTail) as [ds [E [H _]]].
  exists ds. split; [exact E|]. apply H. vm_compute. lia.
Defined.

(** C3, as the specification states it, fails when the line split fires:
    the lines are trimmed but their first letter is left as written. *)
Lemma capitalization_fails_on_lines :
  fallbackBreakdown promptLowerCase
  = Some [descriptor (js "buy milk"); descriptor (js "walk the dog")]
  /\ ~ (forall ds, fallbackBreakdown promptLowerCase = Some ds ->
                   Forall (fun d => normalForm (task d)) ds).
Proof.
  assert (E : fallbackBreakdown promptLowerCase
              = Some [descriptor (js "buy milk"); descriptor (js "walk the dog")])
    by (vm_compute; reflexivity).
  split; [exact E|]. intros H. specialize (H _ E).
  inversion H as [|d l [_ [_ Hu]] _]; subst. vm_compute in Hu. discriminate.
Qed.

Lemma surrogates_uncased :
  forallb (fun c => negb (isSurrogate c)) casedUnits = true.
Proof. vm_compute. reflexivity. Qed.

Lemma capitalize_surrogate : forall c rest,
  isSurrogate c = true -> capitalize (c :: rest) = c :: rest.
Proof.
  intros c rest H. rewrite capitalize_cons, upperUnit_uncased; [reflexivity|].
  intros Hin. pose proof (proj1 (forallb_forall _ _) surrogates_uncased c Hin) as Hc.
  cbv beta in Hc. rewrite H in Hc. discriminate.
Qed.

(** C3 (amended).  When the prompt has fewer than two non-blank lines and
    holds a code unit that is no white space, every returned task is
    trimmed, not empty, and its first UTF-16 code unit is its own upper
    case.  That is a statement about the code unit, not about the
    character: a first code unit that is a surrogate is left as it is, so
    a task that starts with a small letter beyond [0xFFFF] keeps it, as
    the prompt that starts with U+10428 shows.  When the line split
    fires, the returned tasks are the non-blank lines, trimmed and not
    empty, each with its first letter left as written. *)
Theorem fallbackBreakdown_normalized :
  (forall prompt,
      exists ds,
        fallbackBreakdown prompt = Some ds
        /\ (length (nonBlankLines prompt) < 2 -> blank prompt = false ->
            Forall (fun d => normalForm (task d)) ds)
        /\ (2 <= length (nonBlankLines prompt) ->
            ds = map (fun line => descriptor (trim line)) (nonBlankLines prompt)
            /\ Forall (fun d => goodTask (task d)) ds))
  /\ (forall c rest, isSurrogate c = true -> capitalize (c :: rest) = c :: rest)
  /\ fallbackBreakdown promptDeseret = Some [descriptor promptDeseret].
Proof.
  split; [|split; [exact capitalize_surrogate|vm_compute; reflexivity]].
  intros prompt.
  destruct (fallbackBreakdown_cases prompt) as [[Hl E]|[Hl [tasks [Ec E]]]].
  - eexists. split; [exact E|]. split; [lia|]. intros _. split; [reflexivity|].
    apply Forall_map. cbn [task descriptor]. apply nonBlankLines_good.
  - eexists. split; [exact E|]. split; [|lia]. intros _ Hb.
    destruct (candidates_nonblank _ _ Hb Ec) as [t [Ht Htb]].
    now destruct (finish_normal prompt tasks (normalize_nonempty _ _ Ht Htb)).
Qed.

Lemma fallbackBreakdown_normalized_witness :
  exists ds, fallbackBreakdown promptHi = Some ds
             /\ Forall (fun d => normalForm (task d)) ds.
Proof.
  destruct (proj1 fallbackBreakdown_normalized promptHi) as [ds [E [H _]]].
  exists ds. split; [exact E|]. apply H; [vm_compute; lia|reflexivity].
Defined.

(** ** Priority of the line split *)

(** C4.  A prompt with two or more non-blank lines is answered with
    exactly those lines, trimmed, in their order, whatever else it
    contains; the shopping list yields its three lines. *)
Theorem line_split_priority :
  (forall prompt,
      2 <= length (nonBlankLines prompt) ->
      fallbackBreakdown prompt
      = Some (map (fun line => descriptor (trim line)) (nonBlankLines prompt)))
  /\ fallbackBreakdown promptShopping
     = Some [descriptor (js "Buy milk"); descriptor (js "Walk the dog");
             descriptor (js "Pay bills")].
Proof.
  split; [exact fallbackBreakdown_lines|vm_compute; reflexivity].
Qed.

Lemma line_split_priority_witness :
  fallbackBreakdown promptBullets
  = Some (map descriptor
            [js "Do the project."; js "- design the schema";
             js "- write the code"; js "- test it"]).
Proof.
  rewrite (proj1 line_split_priority promptBullets) by (vm_compute; lia).
  vm_compute. reflexivity.
Defined.
(** ** Separators and task phrases *)







Lemma classMatches_space : forall ic c,
  classMatches ic CSpace c = true -> isWhiteSpace c = true.
Proof.
  intros ic c H.
  apply (classMatches_uncased ic CSpace c whiteSpaceUnits eq_refl) in H;
    [|vm_compute; reflexivity].
  now apply mem_In.
Qed.










(** The third example of the specification: [First] at the start opens no
    task, [Then] and [Finally] close the two tasks before them, and the
    tail is too short to be kept. *)
Lemma first_then_finally_example :
  fallbackBreakdown
    (js "First, design the schema. Then, write the code. Finally, test it.")
  = Some [descriptor (js "First, design the schema.");
          descriptor (js "Write the code.")].
Proof. vm_compute. reflexivity. Qed.

(** ** The remainder *)

(** C5 is not what the code does: the code appends the remainder when its
    trimmed text is not empty and its length before trimming exceeds 10.
    A tail of two letters followed by nine spaces is appended although its
    trimmed length is 2, and shows in the result. *)
Theorem remainder_tests_untrimmed_length :
  (forall rem, remainderAppended rem = true <-> trim rem <> [] /\ 10 < length rem)
  /\ (forall rem, 10 < length (trim rem) -> remainderAppended rem = true)
  /\ (forall tasks rem,
         appendRemainder tasks rem
         = if remainderAppended rem then tasks ++ [trim rem] else tasks)
  /\ snd (separatorPass promptShortTail) = shortTail
  /\ length (trim shortTail) = 2
  /\ remainderAppended shortTail = true
  /\ fallbackBreakdown promptShortTail
     = Some [descriptor (js "Design the schema."); descriptor (js "Ok")].
Proof.
  assert (Hiff : forall rem,
             remainderAppended rem = true <-> trim rem <> [] /\ 10 < length rem).
  { intros rem. unfold remainderAppended. rewrite andb_true_iff, Nat.ltb_lt.
    split; intros [H1 H2]; (split; [|exact H2]).
    - now apply truthy_nonnil.
    - destruct (trim rem); [congruence|reflexivity]. }
  split; [exact Hiff|]. split.
  - intros rem H. apply Hiff. split.
    + destruct (trim rem); [cbn in H; lia|discriminate].
    + destruct (trim_split rem) as [w1 [w2 [E _]]].
      apply (f_equal (@length _)) in E. rewrite !length_app in E. lia.
  - split; [reflexivity|repeat split; vm_compute; reflexivity].
Qed.

(** ** The example ["hi"] *)

(** C6.  On ["hi"] the line split finds one line, the list patterns, the
    separators and the task phrases find nothing, the remainder is too
    short, there is no sentence of more than 15 code units; the single
    word makes one chunk with [chunkSize = max(5, floor(1/3)) = 5], and
    the result is the one task ["Hi"]. *)
Theorem hi_example :
  lines promptHi = Some [js "hi"]
  /\ bulletPoints promptHi = Some []
  /\ numberedPoints promptHi = Some []
  /\ separatorPass promptHi = ([], promptHi)
  /\ keywordPass promptHi [] = Some []
  /\ appendRemainder [] promptHi = []
  /\ sentences promptHi = Some []
  /\ split promptHi whitespaceRegex = Some [js "hi"]
  /\ Nat.max 5 (length [js "hi"] / 3) = 5
  /\ chunks promptHi = Some [js "hi"]
  /\ normalize [js "hi"] = [js "Hi"]
  /\ fallbackBreakdown promptHi = Some [descriptor (js "Hi")].
Proof. repeat split; vm_compute; reflexivity. Qed.

(** ** Normalisation *)

(** C7.  Trimming and then putting the first code unit in upper case is
    idempotent, on one string and on the list of tasks. *)
Theorem normalization_idempotent :
  (forall s, capitalize (trim (capitalize (trim s))) = capitalize (trim s))
  /\ (forall tasks, normalize (normalize tasks) = normalize tasks).
Proof.
  split.
  - intros s. destruct (trim s) as [|c r] eqn:E; [reflexivity|].
    assert (H : normalForm (capitalize (c :: r))).
    { apply capitalize_normalForm; [discriminate|].
      rewrite <- E. apply trim_idempotent. }
    destruct (normalForm_fixed _ H) as [H1 H2]. now rewrite H1, H2.
  - intros tasks. apply normalize_fixed, normalize_normalForm.
Qed.

(** ** The list branches *)

Lemma execAll_two_lines : forall re prompt ms,
  (forall b a mr, matchAt re b a = Some mr -> listItemShape (match0 mr)) ->
  execAll re prompt = Some ms -> 2 <= length ms ->
  exists ls, lines prompt = Some ls /\ 2 <= length ls.
Proof.
  intros re prompt ms Hshape H Hlen. unfold execAll in H.
  destruct (execLoop_two _ (fun m acc => acc ++ [m])) with (2 := H)
    as [mr1 [mr2 [E1 E2]]]; [|exact Hlen|].
  { intros mr acc. rewrite length_app. cbn. lia. }
  exists (nonBlankLines prompt). split; [apply lines_nonBlankLines|].
  exact (two_items_two_lines _ Hshape _ _ _ E1 E2).
Qed.

(** C8.  The bullet-point and the numbered-list branches never run: two
    matches of either pattern need two non-blank lines, with which the
    function has returned from the line split already, and
    [fallbackBreakdown] equals the function without the two branches. *)
Theorem list_branches_unreachable : forall prompt,
  (forall ms, execAll bulletPointRegex prompt = Some ms -> 2 <= length ms ->
              exists ls, lines prompt = Some ls /\ 2 <= length ls)
  /\ (forall ms, execAll numberedRegex prompt = Some ms -> 2 <= length ms ->
                 exists ls, lines prompt = Some ls /\ 2 <= length ls)
  /\ (forall pts, bulletPoints prompt = Some pts -> 2 <= length pts ->
                  exists ls, lines prompt = Some ls /\ 2 <= length ls)
  /\ (forall pts, numberedPoints prompt = Some pts -> 2 <= length pts ->
                  exists ls, lines prompt = Some ls /\ 2 <= length ls)
  /\ fallbackBreakdown prompt = fallbackBreakdownWithoutLists prompt.
Proof.
  intros prompt. split; [|split; [|split; [|split]]].
  - intros ms. apply execAll_two_lines, bulletPointRegex_shape.
  - intros ms. apply execAll_two_lines, numberedRegex_shape.
  - intros pts H Hlen. exists (nonBlankLines prompt).
    split; [apply lines_nonBlankLines|exact (bulletPoints_lines _ _ H Hlen)].
  - intros pts H Hlen. exists (nonBlankLines prompt).
    split; [apply lines_nonBlankLines|exact (numberedPoints_lines _ _ H Hlen)].
  - destruct (Nat.le_gt_cases 2 (length (nonBlankLines prompt))) as [H|H].
    + rewrite (fallbackBreakdown_lines _ H). unfold fallbackBreakdownWithoutLists.
      rewrite tasksFromLines_spec. cbn [bind]. rewrite length_map.
      now replace (2 <=? length (nonBlankLines prompt)) with true
        by (symmetry; now apply Nat.leb_le).
    + rewrite (fallbackBreakdown_cascade _ H). unfold fallbackBreakdownWithoutLists.
      rewrite tasksFromLines_spec. cbn [bind]. rewrite length_map.
      now replace (2 <=? length (nonBlankLines prompt)) with false
        by (symmetry; now apply Nat.leb_gt).
Qed.

Lemma list_branches_unreachable_witness :
  exists ls, lines (LF :: js "- alpha beta" ++ LF :: js "* gamma delta") = Some ls
             /\ 2 <= length ls.
Proof.
  eapply (proj1 (proj2 (proj2 (list_branches_unreachable _)))).
  - vm_compute. reflexivity.
  - cbn. lia.
Defined.

(** ** Duplicates *)

Lemma jsstring_eqb_eq : forall a b, jsstring_eqb a b = true <-> a = b.
Proof.
  induction a as [|x a IH]; intros [|y b]; cbn [jsstring_eqb];
    try (split; [discriminate|discriminate]); [split; reflexivity|].
  rewrite andb_true_iff, N.eqb_eq, IH. split.
  - intros [-> ->]. reflexivity.
  - intros E. injection E as -> ->. auto.
Qed.

Lemma includes_In : forall l t, includes l t = true <-> In t l.
Proof.
  intros l t. unfold includes. rewrite existsb_exists. split.
  - intros [x [Hx E]]. apply jsstring_eqb_eq in E. now subst.
  - intros H. exists t. split; [exact H|now apply jsstring_eqb_eq].
Qed.

Lemma NoDup_snoc : forall (l : list jsstring) t,
  NoDup l -> ~ In t l -> NoDup (l ++ [t]).
Proof.
  intros l t Hl Ht. apply NoDup_rev in Hl.
  rewrite <- (rev_involutive (l ++ [t])). apply NoDup_rev.
  rewrite rev_app_distr. cbn. constructor; [|exact Hl].
  intros H. apply Ht. now apply in_rev.
Qed.

Lemma phraseStep_NoDup : forall prompt m tasks,
  NoDup tasks -> NoDup (phraseStep prompt m tasks).
Proof.
  intros prompt m tasks H. unfold phraseStep.
  destruct (truthy _ && _ && _) eqn:E; [|exact H].
  apply andb_prop in E as [_ E]. apply negb_true_iff in E.
  apply NoDup_snoc; [exact H|]. intros Hin. apply includes_In in Hin. congruence.
Qed.

Lemma separatorStep_NoDup : forall st sep,
  NoDup (fst st) -> NoDup (fst (separatorStep st sep)).
Proof.
  intros [tasks rem] sep H. unfold separatorStep.
  destruct (String_match rem sep) as [m|]; [|exact H]. cbn [fst] in *.
  destruct (truthy _ && _ && _) eqn:E; [|exact H].
  apply andb_prop in E as [E _]. apply andb_prop in E as [_ E].
  apply negb_true_iff in E.
  apply NoDup_snoc; [exact H|]. intros Hin. apply includes_In in Hin. congruence.
Qed.

(** C10.  The separator and the task-phrase passes never collect a task
    twice, but the remainder is appended without a look at the tasks
    collected so far; when the tail after the last separator repeats a
    task phrase, the result holds the same task twice. *)
Theorem remainder_duplicates_task :
  (forall st sep, NoDup (fst st) -> NoDup (fst (separatorStep st sep)))
  /\ (forall prompt m tasks, NoDup tasks -> NoDup (phraseStep prompt m tasks))
  /\ (forall tasks rem, remainderAppended rem = true ->
                        appendRemainder tasks rem = tasks ++ [trim rem])
  /\ fallbackBreakdown promptDuplicate
     = Some [descriptor (js "Setup. You must deploy the app.");
             descriptor (js "Deploy the app."); descriptor (js "Deploy the app.")]
  /\ exists prompt ds,
       fallbackBreakdown prompt = Some ds /\ ~ NoDup (map task ds).
Proof.
  assert (E : fallbackBreakdown promptDuplicate
     = Some [descriptor (js "Setup. You must deploy the app.");
             descriptor (js "Deploy the app."); descriptor (js "Deploy the app.")])
    by (vm_compute; reflexivity).
  split; [exact separatorStep_NoDup|]. split; [exact phraseStep_NoDup|].
  split; [|split; [exact E|]].
  - intros tasks rem H. unfold appendRemainder. now rewrite H.
  - eexists. eexists. split; [exact E|]. cbn [map task descriptor]. intros H.
    inversion H as [|x l _ H2]; subst. inversion H2 as [|y l' H3 _]; subst.
    apply H3. now left.
Qed.

Lemma remainder_duplicates_task_witness :
  appendRemainder [js "deploy the app."] (js "deploy the app.")
  = [js "deploy the app."; js "deploy the app."].
Proof.
  rewrite (proj1 (proj2 (proj2 remainder_duplicates_task)))
    by (vm_compute; reflexivity).
  vm_compute. reflexivity.
Defined.
(* ================================================================== *)
(** * Further properties of the decomposer *)

(** ** Prompts without white space *)

Lemma consumes_In : forall st w st' c,
  consumes st w st' -> In c w -> In c (ahead st).
Proof. intros st w st' c [A _] H. rewrite A. apply in_or_app. now left. Qed.

Lemma steps_needsSpace : forall ic r st st',
  needsSpace r = true -> steps ic r st st' ->
  exists w c, consumes st w st' /\ In c w /\ isWhiteSpace c = true.
Proof.
  induction r as [|cl|r1 IH1 r2 IH2|r1 IH1 r2 IH2|cl|cl|r IH|r IH|cl];
    intros st st' Hn Hs; cbn [needsSpace] in Hn; try discriminate.
  - apply steps_seq_inv in Hs as [st1 [H1 H2]].
    destruct (steps_consumes _ _ _ _ H1) as [w1 Hw1].
    destruct (steps_consumes _ _ _ _ H2) as [w2 Hw2].
    apply orb_prop in Hn as [Hn|Hn].
    + destruct (IH1 _ _ Hn H1) as [w [c [Hw [Hc Hcs]]]].
      exists (w ++ w2), c. split; [eapply consumes_trans; eauto|].
      split; [apply in_or_app; now left|exact Hcs].
    + destruct (IH2 _ _ Hn H2) as [w [c [Hw [Hc Hcs]]]].
      exists (w1 ++ w), c. split; [eapply consumes_trans; eauto|].
      split; [apply in_or_app; now right|exact Hcs].
  - apply andb_prop in Hn as [Hn1 Hn2].
    apply steps_alt_inv in Hs as [Hs|Hs]; eauto.
  - destruct cl; try discriminate.
    apply steps_plus_inv in Hs as [c [w [Hc Hw]]].
    exists (c :: w), c. split; [exact Hw|]. split; [now left|].
    exact (classMatches_space _ _ Hc).
  - inversion Hs; subst.
    match goal with H : steps _ r _ _ |- _ =>
      destruct (IH _ _ Hn H) as [w [c [[A B] [Hc Hcs]]]] end.
    exists w, c. split; [split; assumption|auto].
Qed.

(** A pattern that needs white space finds nothing in a text without. *)
Lemma matchAt_needsSpace : forall re b a,
  needsSpace (pattern re) = true ->
  (forall c, In c a -> isWhiteSpace c = false) ->
  matchAt re b a = None.
Proof.
  intros re b a Hn Ha. destruct (matchAt re b a) as [mr|] eqn:E; [|reflexivity].
  destruct (matchAt_consumes _ _ _ _ E) as [st' [Hs _]].
  destruct (steps_needsSpace _ _ _ _ Hn Hs) as [w [c [Hw [Hc Hcs]]]].
  pose proof (consumes_In _ _ _ _ Hw Hc) as Hin. cbn [ahead] in Hin.
  rewrite (Ha c Hin) in Hcs. discriminate.
Qed.

Lemma exec_needsSpace : forall re s i,
  needsSpace (pattern re) = true ->
  (forall c, In c s -> isWhiteSpace c = false) ->
  RegExpBuiltinExec re s i = None.
Proof.
  intros re s i Hn Hs. destruct (RegExpBuiltinExec re s i) as [mr|] eqn:E;
    [|reflexivity].
  destruct (exec_spec _ _ _ _ E) as [pre [rest [st' [_ [Hsk [_ [_ [_ [_ Hm]]]]]]]]].
  rewrite matchAt_needsSpace in Hm; [discriminate|exact Hn|].
  intros c Hc. apply Hs. apply (In_skipn _ i). rewrite Hsk.
  apply in_or_app. now right.
Qed.

Lemma markers_needSpace :
  Forall (fun re => needsSpace (pattern re) = true)
         (taskPhraseRegex :: sentenceBoundary :: taskSeparators).
Proof. repeat constructor. Qed.

Lemma splitLoop_nospace : forall re fuel a b cur acc,
  needsSpace (pattern re) = true ->
  (forall c, In c a -> isWhiteSpace c = false) ->
  length a + 1 <= fuel ->
  splitLoop fuel re b a cur acc = Some (acc ++ [cur ++ a]).
Proof.
  intros re. induction fuel as [|fuel IH]; intros a b cur acc Hn Ha Hf; [lia|].
  cbn [splitLoop]. destruct a as [|c a]; [now rewrite app_nil_r|].
  rewrite (matchAt_needsSpace _ _ _ Hn Ha). cbn [length] in Hf.
  rewrite IH; [|exact Hn|intros x Hx; apply Ha; now right|lia].
  now rewrite <- app_assoc.
Qed.

Lemma splitRuns_nosep : forall p a cur,
  (forall c, In c a -> p c = false) ->
  splitRuns p false cur a = [cur ++ a].
Proof.
  intros p. induction a as [|c a IH]; intros cur H; cbn [splitRuns].
  - now rewrite app_nil_r.
  - rewrite (H c) by now left. rewrite IH by (intros; apply H; now right).
    now rewrite <- app_assoc.
Qed.

Lemma trim_nospace : forall s,
  (forall c, In c s -> isWhiteSpace c = false) -> trim s = s.
Proof.
  intros s H. apply trim_fixed.
  - destruct s as [|c s]; [exact I|]. apply H. now left.
  - destruct (rev s) as [|c r] eqn:E; [exact I|]. apply H.
    apply in_rev. rewrite E. now left.
Qed.

Lemma blank_nospace : forall s,
  s <> [] -> (forall c, In c s -> isWhiteSpace c = false) -> blank s = false.
Proof.
  intros [|c s] Hne H; [congruence|]. apply blank_false_In.
  exists c. split; [now left|]. apply H. now left.
Qed.

Lemma linesOf_noLF : forall s, ~ In LF s -> linesOf s = [s].
Proof.
  induction s as [|c s IH]; intros H; [reflexivity|]. cbn [linesOf].
  destruct (N.eqb c LF) eqn:E.
  - apply N.eqb_eq in E. exfalso. apply H. now left.
  - rewrite IH; [reflexivity|]. intros Hin. apply H. now right.
Qed.

(** X1.  A prompt without white space is never cut: the result is the prompt
    with its first code unit in upper case, as one task. *)
Theorem unbroken_prompt_single_task : forall prompt,
  prompt <> [] ->
  (forall c, In c prompt -> isWhiteSpace c = false) ->
  fallbackBreakdown prompt = Some [descriptor (capitalize prompt)].
Proof.
  intros prompt Hne Hns.
  pose proof (blank_nospace _ Hne Hns) as Hb.
  pose proof (trim_nospace _ Hns) as Ht.
  assert (HLF : ~ In LF prompt).
  { intros H. apply Hns in H. discriminate. }
  assert (Hlines : nonBlankLines prompt = [prompt]).
  { unfold nonBlankLines. rewrite (linesOf_noLF _ HLF). cbn [filter].
    now rewrite Hb. }
  rewrite fallbackBreakdown_cascade by (rewrite Hlines; cbn; lia).
  pose proof markers_needSpace as HF. rewrite Forall_forall in HF.
  assert (Hsep : separatorPass prompt = ([], prompt)).
  { unfold separatorPass.
    assert (Hl : Forall (fun re => needsSpace (pattern re) = true) taskSeparators).
    { apply Forall_forall. intros re Hre. apply HF. right. now right. }
    revert Hl. generalize taskSeparators.
    induction l as [|sep l IH]; intros Hl; cbn [fold_left]; [reflexivity|].
    inversion Hl as [|x y Hsep Hl']; subst.
    unfold separatorStep at 2. unfold String_match.
    rewrite (exec_needsSpace _ _ _ Hsep Hns). now apply IH. }
  assert (Hkey : keywordPass prompt [] = Some []).
  { unfold keywordPass, execFuel. cbn [execLoop].
    rewrite exec_needsSpace; [reflexivity|apply HF; now left|exact Hns]. }
  assert (Hnonnil : (0 <? length prompt) = true).
  { destruct prompt; [congruence|reflexivity]. }
  assert (Hsent : exists l, sentences prompt = Some l /\ (length l <=? 1) = true).
  { unfold sentences, split. destruct prompt as [|c p] eqn:Ep; [congruence|].
    rewrite <- Ep in *. rewrite splitLoop_nospace.
    - cbn [bind app filter]. destruct (15 <? length (trim prompt));
        eexists; (split; [reflexivity|reflexivity]).
    - apply HF. right. now left.
    - exact Hns.
    - lia. }
  destruct Hsent as [sl [Hsent Hsl]].
  assert (Hchunks : chunks prompt = Some [prompt]).
  { unfold chunks, whitespaceRegex. rewrite split_runs. cbn [bind].
    rewrite splitRuns_nosep by exact Hns. cbn [app length].
    change (Nat.max 5 (1 / 3)) with 5. cbn [chunkLoop].
    change (0 <? 1) with true. change (0 + 5 <? 1) with false.
    unfold slice. cbn [skipn firstn Nat.sub Nat.add join].
    rewrite Ht, Hnonnil. reflexivity. }
  unfold cascade, candidates. rewrite Hsep, Hkey. cbn [bind].
  assert (Hrem : (length (appendRemainder [] prompt) <=? 1) = true).
  { unfold appendRemainder. destruct (remainderAppended prompt); reflexivity. }
  rewrite Hrem, Hsent. cbn [bind]. rewrite Hsl, Hchunks. cbn [bind].
  unfold finish, normalize. cbn [map filter]. rewrite Ht, Hnonnil.
  cbn [map]. reflexivity.
Qed.

Lemma unbroken_prompt_single_task_witness :
  fallbackBreakdown (js "refactor") = Some [descriptor (js "Refactor")].
Proof.
  rewrite unbroken_prompt_single_task.
  - vm_compute. reflexivity.
  - discriminate.
  - intros c Hc. cbn in Hc.
    repeat (destruct Hc as [<-|Hc]; [reflexivity|]). destruct Hc.
Defined.
(** ** Words and chunks *)

Lemma splitRuns_concat : forall p a inRun cur,
  (inRun = true -> cur = []) ->
  concat (splitRuns p inRun cur a) = cur ++ filter (fun c => negb (p c)) a.
Proof.
  intros p. induction a as [|c a IH]; intros inRun cur Hrun; cbn [splitRuns filter].
  - cbn. now rewrite app_nil_r.
  - destruct (p c) eqn:E; cbn [negb].
    + destruct inRun.
      * rewrite Hrun by reflexivity. now apply IH.
      * cbn [concat]. rewrite IH by reflexivity. reflexivity.
    + rewrite IH by discriminate. now rewrite <- app_assoc.
Qed.

(** X2.  The words of [prompt.split(/\s+/)] hold no white space, and together
    they are the prompt with its white space taken out. *)
Theorem words_keep_text : forall prompt,
  exists words,
    split prompt whitespaceRegex = Some words
    /\ concat words = filter (fun c => negb (isWhiteSpace c)) prompt
    /\ Forall (fun w => forall c, In c w -> isWhiteSpace c = false) words.
Proof.
  intros prompt. unfold whitespaceRegex. rewrite split_runs.
  eexists. split; [reflexivity|]. split.
  - now rewrite splitRuns_concat.
  - eapply Forall_impl; [|apply (splitRuns_clean _ prompt false []); reflexivity].
    intros w Hw c Hc. rewrite forallb_forall in Hw.
    apply Hw in Hc. now apply negb_true_iff in Hc.
Qed.

Lemma chunkLoop_length : forall chunkSize (words : list jsstring) fuel i tasks r k,
  0 < chunkSize ->
  chunkLoop fuel words chunkSize i tasks = Some r ->
  length words <= i + k * chunkSize ->
  length r <= length tasks + k.
Proof.
  intros chunkSize words. induction fuel as [|fuel IH];
    intros i tasks r k Hc H Hk; [discriminate|].
  cbn [chunkLoop] in H. destruct (i <? length words) eqn:E.
  - apply Nat.ltb_lt in E. destruct k as [|k]; [cbn in Hk; lia|].
    apply (IH _ _ _ k Hc) in H; [|cbn in Hk; lia].
    destruct (0 <? length _) in H; [rewrite length_app in H; cbn in H|]; lia.
  - injection H as <-. lia.
Qed.

Lemma normalize_length : forall tasks, length (normalize tasks) <= length tasks.
Proof.
  intros tasks. unfold normalize. rewrite length_map.
  etransitivity; [apply filter_length_le|]. now rewrite length_map.
Qed.

(** X3.  The chunk pass makes at most four chunks, whatever the number of
    words, so the bound of five tasks never drops one of them. *)
Theorem chunks_at_most_four : forall prompt,
  exists tasks,
    chunks prompt = Some tasks
    /\ length tasks <= 4
    /\ limit (normalize tasks) = normalize tasks.
Proof.
  intros prompt. destruct (chunks_total prompt) as [tasks E].
  exists tasks. split; [exact E|].
  assert (H4 : length tasks <= 4).
  { unfold chunks in E.
    destruct (split prompt whitespaceRegex) as [words|]; [|discriminate].
    cbn [bind] in E.
    apply (chunkLoop_length _ _ _ _ _ _ 4) in E; [exact E|lia|].
    pose proof (Nat.div_mod_eq (length words) 3) as Hd.
    pose proof (Nat.mod_upper_bound (length words) 3) as Hm. lia. }
  split; [exact H4|].
  unfold limit. pose proof (normalize_length tasks) as Hn.
  replace (maxTasks <? length (normalize tasks)) with false; [reflexivity|].
  symmetry. apply Nat.ltb_ge. unfold maxTasks. lia.
Qed.
(** ** Contiguous pieces *)

Lemma infix_refl : forall s, infix s s.
Proof. intros s. exists [], []. now rewrite app_nil_r. Qed.

Lemma infix_trans : forall a b c, infix a b -> infix b c -> infix a c.
Proof.
  intros a b c [x [y ->]] [u [v ->]]. exists (u ++ x), (y ++ v).
  now rewrite <- !app_assoc.
Qed.

Lemma infix_In : forall t s c, infix t s -> In c t -> In c s.
Proof.
  intros t s c [a [b ->]] H. apply in_or_app. right. apply in_or_app. now left.
Qed.

Lemma infix_trim : forall s, infix (trim s) s.
Proof. intros s. destruct (trim_split s) as [w1 [w2 [E _]]]. now exists w1, w2. Qed.

Lemma infix_firstn : forall n (s : jsstring), infix (firstn n s) s.
Proof. intros n s. exists [], (skipn n s). cbn. now rewrite firstn_skipn. Qed.

Lemma infix_skipn : forall n (s : jsstring), infix (skipn n s) s.
Proof.
  intros n s. exists (firstn n s), []. now rewrite app_nil_r, firstn_skipn.
Qed.

Lemma infix_substring : forall s a b, infix (substring s a b) s.
Proof.
  intros s a b. unfold substring.
  eapply infix_trans; [apply infix_firstn|apply infix_skipn].
Qed.

Lemma infix_suffix : forall t rem pre, infix t rem -> infix t (pre ++ rem).
Proof.
  intros t rem pre [a [b ->]]. exists (pre ++ a), b. now rewrite <- app_assoc.
Qed.

Lemma substring_from : forall s a,
  substring s a None = skipn (Nat.min a (length s)) s.
Proof.
  intros s a. unfold substring. cbv zeta.
  pose proof (Nat.le_min_r a (length s)) as Hle.
  set (a' := Nat.min a (length s)) in *.
  replace (Nat.min a' (length s)) with a' by lia.
  replace (Nat.max a' (length s)) with (length s) by lia.
  apply firstn_all2. rewrite length_skipn. lia.
Qed.

(** ** The separator pass *)

Lemma separatorStep_pieces : forall prompt st sep,
  (exists pre, prompt = pre ++ snd st) /\ Forall (cutPiece prompt) (fst st) ->
  (exists pre, prompt = pre ++ snd (separatorStep st sep))
  /\ Forall (cutPiece prompt) (fst (separatorStep st sep)).
Proof.
  intros prompt [tasks rem] sep [[pre Hpre] HF]. unfold separatorStep.
  cbn [fst snd] in *.
  destruct (String_match rem sep) as [m|]; [|eauto]. cbn [fst snd]. split.
  - rewrite substring_from.
    exists (pre ++ firstn (Nat.min (index m + length (match0 m)) (length rem)) rem).
    rewrite <- app_assoc, firstn_skipn. exact Hpre.
  - pushed HF E. apply Forall_snoc; [exact HF|].
    apply andb_prop in E as [E E3]. apply andb_prop in E as [E1 _].
    apply Nat.ltb_lt in E3. split; [exact E3|]. split.
    + apply goodTask_trim. now apply truthy_nonnil.
    + rewrite Hpre. apply infix_suffix.
      eapply infix_trans; [apply infix_trim|apply infix_substring].
Qed.

Lemma separatorStep_count : forall st sep,
  length (fst (separatorStep st sep)) <= S (length (fst st)).
Proof.
  intros [tasks rem] sep. unfold separatorStep.
  destruct (String_match rem sep) as [m|]; cbn [fst]; [|lia].
  destruct (truthy _ && _ && _); [rewrite length_app; cbn|]; lia.
Qed.

Lemma fold_separatorStep_count : forall l st,
  length (fst (fold_left separatorStep l st)) <= length (fst st) + length l.
Proof.
  induction l as [|sep l IH]; intros st; cbn [fold_left length]; [lia|].
  etransitivity; [apply IH|]. pose proof (separatorStep_count st sep). lia.
Qed.

Lemma separatorPass_cut : forall prompt,
  (exists pre, prompt = pre ++ snd (separatorPass prompt))
  /\ Forall (cutPiece prompt) (fst (separatorPass prompt)).
Proof.
  intros prompt. unfold separatorPass.
  apply fold_left_invariant
    with (P := fun st => (exists pre, prompt = pre ++ snd st)
                         /\ Forall (cutPiece prompt) (fst st)).
  - intros st sep. apply separatorStep_pieces.
  - split; [now exists []|constructor].
Qed.

(** X4.  The separator pass reads the prompt from left to right: what remains
    is an end of the prompt, and the tasks collected, at most one per
    separator, are distinct trimmed pieces of the prompt of more than 10
    code units. *)
Theorem separator_pass_pieces : forall prompt,
  (exists pre, prompt = pre ++ snd (separatorPass prompt))
  /\ length (fst (separatorPass prompt)) <= 17
  /\ NoDup (fst (separatorPass prompt))
  /\ Forall (cutPiece prompt) (fst (separatorPass prompt)).
Proof.
  intros prompt. destruct (separatorPass_cut prompt) as [H1 H2].
  split; [exact H1|]. split; [|split; [|exact H2]].
  - unfold separatorPass.
    exact (fold_separatorStep_count taskSeparators ([], prompt)).
  - unfold separatorPass.
    apply fold_left_invariant with (P := fun st => NoDup (fst st)).
    + intros st sep. apply separatorStep_NoDup.
    + constructor.
Qed.

(** ** The task-phrase pass *)

Lemma indexOfAux_spec : forall c s i e,
  indexOfAux c s i = Some e ->
  exists x y, s = x ++ c :: y /\ ~ In c x /\ e = i + length x.
Proof.
  intros c. induction s as [|a s IH]; intros i e H; [discriminate|].
  cbn [indexOfAux] in H. destruct (N.eqb a c) eqn:E.
  - apply N.eqb_eq in E. subst a. injection H as <-.
    exists [], s. cbn. split; [reflexivity|]. split; [tauto|lia].
  - apply IH in H as [x [y [Hs [Hx He]]]]. exists (a :: x), y.
    split; [now rewrite Hs|]. split; [|cbn; lia].
    intros [->|Hin]; [|contradiction]. rewrite N.eqb_refl in E. discriminate.
Qed.

Lemma indexOfAux_none : forall c s i, indexOfAux c s i = None -> ~ In c s.
Proof.
  intros c. induction s as [|a s IH]; intros i H; [tauto|].
  cbn [indexOfAux] in H. destruct (N.eqb a c) eqn:E; [discriminate|].
  intros [->|Hin]; [rewrite N.eqb_refl in E; discriminate|].
  exact (IH _ H Hin).
Qed.

Lemma first_occurrence : forall (c : code_unit) x y x' y',
  ~ In c x -> x ++ c :: y = x' ++ c :: y' -> length x <= length x'.
Proof.
  intros c. induction x as [|a x IH]; intros y x' y' Hx E; [cbn; lia|].
  destruct x' as [|a' x'].
  - cbn in E. injection E as -> _. exfalso. apply Hx. now left.
  - cbn in E. injection E as _ E. cbn [length]. apply le_n_S.
    eapply IH; [|exact E]. intros H. apply Hx. now right.
Qed.

Lemma periodOnlyLast_infix : forall t s,
  infix t s -> periodOnlyLast s -> periodOnlyLast t.
Proof.
  intros t s [u [v ->]] H a b ->.
  specialize (H (u ++ a) (b ++ v)).
  rewrite <- !app_assoc in H. cbn [app] in H.
  specialize (H eq_refl). now destruct b.
Qed.

(** The text from [start] to the next full stop, or to the end. *)
Lemma phrase_piece_period : forall prompt start,
  periodOnlyLast
    (substring prompt start
       (match indexOf prompt (cu ".") start with
        | Some e => Some (e + 1)
        | None => None
        end)).
Proof.
  intros prompt start. unfold indexOf.
  destruct (indexOfAux (cu ".") (skipn start prompt) (Nat.min start (length prompt)))
    as [e|] eqn:E.
  - destruct (indexOfAux_spec _ _ _ _ E) as [x [y [Hs [Hx He]]]].
    assert (Hlt : start < length prompt).
    { destruct (Nat.lt_ge_cases start (length prompt)) as [H|H]; [exact H|].
      rewrite skipn_all2 in Hs by exact H. now destruct x. }
    rewrite Nat.min_l in He by lia.
    assert (Hlen : length prompt = start + (length x + S (length y))).
    { rewrite <- (firstn_skipn start prompt) at 1.
      rewrite length_app, length_firstn, Hs, length_app. cbn [length]. lia. }
    unfold substring.
    replace (Nat.min start (length prompt)) with start by lia.
    replace (Nat.min (e + 1) (length prompt)) with (e + 1) by lia.
    replace (Nat.min start (e + 1)) with start by lia.
    replace (Nat.max start (e + 1)) with (e + 1) by lia.
    rewrite Hs. replace (e + 1 - start) with (length x + 1) by lia.
    rewrite firstn_app.
    replace (length x + 1 - length x) with 1 by lia.
    rewrite firstn_all2 by lia. cbn [firstn].
    intros a b Hab.
    assert (Hle : length x <= length a).
    { eapply (first_occurrence (cu ".") x [] a b); [exact Hx|exact Hab]. }
    apply (f_equal (@length _)) in Hab. rewrite !length_app in Hab.
    cbn [length] in Hab. destruct b; [reflexivity|cbn [length] in Hab; lia].
  - apply indexOfAux_none in E. rewrite substring_from.
    intros a b Hab. exfalso.
    destruct (Nat.le_gt_cases start (length prompt)) as [H|H].
    + rewrite Nat.min_l in Hab by exact H. apply E. rewrite Hab.
      apply in_or_app. right. now left.
    + rewrite Nat.min_r in Hab by lia. rewrite skipn_all in Hab. now destruct a.
Qed.

Lemma phraseStep_pieces : forall prompt m tasks added,
  Forall (fun t => cutPiece prompt t /\ periodOnlyLast t) added ->
  exists added',
    phraseStep prompt m (tasks ++ added) = tasks ++ added'
    /\ Forall (fun t => cutPiece prompt t /\ periodOnlyLast t) added'.
Proof.
  intros prompt m tasks added H. unfold phraseStep.
  destruct (truthy _ && _ && _) eqn:E; [|eauto].
  eexists. split; [now rewrite <- app_assoc|].
  apply Forall_snoc; [exact H|].
  apply andb_prop in E as [E _]. apply andb_prop in E as [E1 E2].
  apply Nat.ltb_lt in E2. split; [split; [exact E2|split]|].
  - apply goodTask_trim. now apply truthy_nonnil.
  - eapply infix_trans; [apply infix_trim|apply infix_substring].
  - eapply periodOnlyLast_infix; [apply infix_trim|apply phrase_piece_period].
Qed.

Lemma keywordPass_cut : forall prompt tasks r,
  keywordPass prompt tasks = Some r ->
  exists added,
    r = tasks ++ added
    /\ Forall (fun t => cutPiece prompt t /\ periodOnlyLast t) added.
Proof.
  intros prompt tasks r E. unfold keywordPass in E.
  eapply execLoop_invariant
    with (P := fun acc => exists added, acc = tasks ++ added
               /\ Forall (fun t => cutPiece prompt t /\ periodOnlyLast t) added);
    [| |exact E].
  - intros mr acc [added [-> HF]].
    destruct (phraseStep_pieces prompt mr tasks added HF) as [added' [E' HF']].
    eauto.
  - exists []. split; [now rewrite app_nil_r|constructor].
Qed.

(** X5.  The task-phrase pass only appends.  Each task it adds is a trimmed
    piece of the prompt of more than 10 code units that ends at the first
    full stop after the phrase, so a full stop is its last code unit or
    does not occur in it; and it adds no task that is already there. *)
Theorem keyword_pass_appends : forall prompt tasks,
  exists added,
    keywordPass prompt tasks = Some (tasks ++ added)
    /\ Forall (fun t => cutPiece prompt t /\ periodOnlyLast t) added
    /\ (NoDup tasks -> NoDup (tasks ++ added)).
Proof.
  intros prompt tasks. destruct (keywordPass_total prompt tasks) as [r E].
  destruct (keywordPass_cut _ _ _ E) as [added [-> HF]].
  exists added. split; [exact E|]. split; [exact HF|].
  intros Hnd. unfold keywordPass in E.
  eapply execLoop_invariant with (P := @NoDup jsstring); [|exact Hnd|exact E].
  intros mr acc. apply phraseStep_NoDup.
Qed.
(** ** Where the tasks come from *)

Lemma splitLoop_infix : forall re fuel a b cur acc r s pre,
  s = pre ++ cur ++ a ->
  splitLoop fuel re b a cur acc = Some r ->
  forall t, In t r -> In t acc \/ infix t s.
Proof.
  intros re. induction fuel as [|fuel IH]; intros a b cur acc r s pre Hs H t Ht;
    [discriminate|].
  cbn [splitLoop] in H. destruct a as [|x a].
  - injection H as <-. apply in_app_or in Ht as [Ht|[<-|[]]]; [now left|].
    right. exists pre, []. exact Hs.
  - assert (Hadv : forall r', splitLoop fuel re (x :: b) a (cur ++ [x]) acc = Some r' ->
                     In t r' -> In t acc \/ infix t s).
    { intros r' H' Ht'. eapply (IH _ _ _ _ _ s pre); [|exact H'|exact Ht'].
      rewrite Hs, <- app_assoc. reflexivity. }
    destruct (matchAt re b (x :: a)) as [mr|]; [|eauto].
    destruct ((length (match0 mr) =? 0) && (length cur =? 0)); [eauto|].
    assert (Hs' : s = (pre ++ cur ++ firstn (length (match0 mr)) (x :: a))
                      ++ [] ++ skipn (length (match0 mr)) (x :: a)).
    { rewrite Hs. cbn [app]. rewrite <- !app_assoc. f_equal. f_equal.
      symmetry. apply firstn_skipn. }
    destruct (IH _ _ _ _ _ s _ Hs' H t Ht) as [Hin|Hinf].
    + apply in_app_or in Hin as [Hin|[<-|[]]]; [now left|].
      right. exists pre, (x :: a). exact Hs.
    + now right.
Qed.

Lemma split_infix : forall s re segs t,
  split s re = Some segs -> In t segs -> infix t s.
Proof.
  intros s re segs t H Ht. unfold split in H. destruct s as [|x s].
  - destruct (matchAt re [] []); injection H as <-; [destruct Ht|].
    destruct Ht as [<-|[]]. apply infix_refl.
  - destruct (splitLoop_infix re _ (x :: s) [] [] [] segs (x :: s) []
                eq_refl H t Ht) as [[]|Hi].
    exact Hi.
Qed.

Lemma sentences_pieces : forall prompt r,
  sentences prompt = Some r ->
  Forall (fun t => goodTask t /\ infix t prompt) r.
Proof.
  intros prompt r H. pose proof (sentences_good _ _ H) as HG.
  unfold sentences in H.
  destruct (split prompt sentenceBoundary) as [segs|] eqn:E; [|discriminate].
  cbn [bind] in H. injection H as <-. apply Forall_forall. intros t Ht.
  rewrite Forall_forall in HG. split; [now apply HG|].
  apply in_map_iff in Ht as [x [<- Hx]]. apply filter_In in Hx as [Hx _].
  eapply infix_trans; [apply infix_trim|eapply split_infix; eauto].
Qed.

(** The candidates are trimmed, non-empty contiguous pieces of the
    prompt, unless they are the chunks of words. *)
Lemma candidates_pieces : forall prompt tasks,
  candidates prompt = Some tasks ->
  Forall (fun t => goodTask t /\ infix t prompt) tasks
  \/ chunks prompt = Some tasks.
Proof.
  intros prompt tasks H. unfold candidates in H.
  destruct (separatorPass_cut prompt) as [[pre Hpre] HF0].
  destruct (separatorPass prompt) as [t0 rem]. cbn [fst snd] in *.
  destruct (keywordPass prompt t0) as [t1|] eqn:E1; [|discriminate].
  cbn [bind] in H.
  assert (H1 : Forall (fun t => goodTask t /\ infix t prompt) (appendRemainder t1 rem)).
  { destruct (keywordPass_cut _ _ _ E1) as [added [-> HA]].
    assert (H01 : Forall (fun t => goodTask t /\ infix t prompt) (t0 ++ added)).
    { apply Forall_app. split.
      - eapply Forall_impl; [|exact HF0]. intros t [_ [G I]]. auto.
      - eapply Forall_impl; [|exact HA]. intros t [[_ [G I]] _]. auto. }
    unfold appendRemainder, remainderAppended. pushed H01 E.
    apply Forall_snoc; [exact H01|]. apply andb_prop in E as [E _]. split.
    - apply goodTask_trim. now apply truthy_nonnil.
    - rewrite Hpre. apply infix_suffix, infix_trim. }
  destruct (length (appendRemainder t1 rem) <=? 1).
  - destruct (sentences prompt) as [t2|] eqn:E2; [|discriminate]. cbn [bind] in H.
    destruct (length t2 <=? 1); [now right|].
    injection H as <-. left. now apply sentences_pieces.
  - cbn [bind] in H. destruct (length _ <=? 1); [now right|].
    injection H as <-. now left.
Qed.

(** ** Tasks of one line *)

Lemma lineFeed_checked : forallb lineFeedCheck casedUnits = true.
Proof. vm_compute. reflexivity. Qed.

Lemma upperUnit_lineFeed : forall c, c <> LF -> ~ In LF (upperUnit c).
Proof.
  intros c Hc Hin.
  assert (H : lineFeedCheck c = true).
  { destruct (in_dec N.eq_dec c casedUnits) as [Hi|Ho].
    - exact (proj1 (forallb_forall _ _) lineFeed_checked c Hi).
    - unfold lineFeedCheck. rewrite (upperUnit_uncased c Ho).
      unfold mem. cbn [existsb]. destruct (N.eqb LF c) eqn:E; [|reflexivity].
      apply N.eqb_eq in E. congruence. }
  unfold lineFeedCheck in H. apply orb_prop in H as [H|H].
  - apply negb_true_iff in H. apply mem_In in Hin. congruence.
  - apply N.eqb_eq in H. contradiction.
Qed.

Lemma capitalize_lineFeed : forall t,
  headOk t -> ~ In LF t -> ~ In LF (capitalize t).
Proof.
  intros [|c r] Hh Hn; [exact Hn|]. rewrite capitalize_cons. intros Hin.
  apply in_app_or in Hin as [Hin|Hin].
  - revert Hin. apply upperUnit_lineFeed. intros ->. apply Hn. now left.
  - apply Hn. now right.
Qed.

Lemma linesOf_clean : forall s l, In l (linesOf s) -> ~ In LF l.
Proof.
  induction s as [|c s IH]; intros l Hl; cbn [linesOf] in Hl.
  - destruct Hl as [<-|[]]. tauto.
  - destruct (N.eqb c LF) eqn:E.
    + destruct Hl as [<-|Hl]; [tauto|now apply IH].
    + destruct (linesOf s) as [|l0 ls] eqn:El.
      * destruct Hl as [<-|[]]. intros [->|[]]. rewrite N.eqb_refl in E. discriminate.
      * destruct Hl as [<-|Hl].
        -- intros [->|Hin]; [rewrite N.eqb_refl in E; discriminate|].
           revert Hin. apply IH. now left.
        -- apply IH. now right.
Qed.

(** A trimmed piece of the prompt that holds a line feed has text on both
    sides of it, on two lines of the prompt. *)
Lemma piece_lineFeed : forall prompt t,
  goodTask t -> infix t prompt -> In LF t -> 2 <= length (nonBlankLines prompt).
Proof.
  intros prompt t [Hne Ht] [a [b ->]] Hin.
  apply in_split in Hin as [u [v ->]].
  pose proof (trim_headOk (u ++ LF :: v)) as Hh. rewrite Ht in Hh.
  pose proof (trim_lastOk (u ++ LF :: v)) as Hl. rewrite Ht in Hl.
  destruct u as [|c1 u]; [discriminate Hh|]. cbn [app headOk] in Hh.
  rewrite rev_app_distr in Hl. cbn [rev] in Hl.
  destruct (rev v) as [|c2 rv] eqn:Ev; [discriminate Hl|].
  cbn [app headOk] in Hl.
  assert (Hv : v = rev rv ++ [c2]).
  { rewrite <- (rev_involutive v), Ev. reflexivity. }
  rewrite Hv.
  replace (a ++ ((c1 :: u) ++ LF :: rev rv ++ [c2]) ++ b)
    with ((a ++ c1 :: u) ++ LF :: (rev rv ++ c2 :: b)).
  - now apply two_nonBlankLines.
  - cbn [app]. repeat (rewrite <- app_assoc; cbn [app]). reflexivity.
Qed.

Lemma chunkLoop_lineFeed : forall chunkSize (words : list jsstring),
  (forall w, In w words -> ~ In LF w) ->
  forall fuel i tasks r,
    Forall (fun t => ~ In LF t) tasks ->
    chunkLoop fuel words chunkSize i tasks = Some r ->
    Forall (fun t => ~ In LF t) r.
Proof.
  intros chunkSize words Hw. induction fuel as [|fuel IH];
    intros i tasks r Ht H; [discriminate|].
  cbn [chunkLoop] in H. destruct (i <? length words).
  - eapply IH; [|exact H]. pushed Ht E. apply Forall_snoc; [exact Ht|].
    intros Hc. apply In_join in Hc as [[Hc|[]]|[w [Hin Hcw]]].
    + discriminate.
    + eapply Hw; [|exact Hcw]. unfold slice in Hin.
      apply In_firstn in Hin. now apply In_skipn in Hin.
  - now injection H as <-.
Qed.

Lemma chunks_lineFeed : forall prompt r,
  chunks prompt = Some r -> Forall (fun t => ~ In LF t) r.
Proof.
  intros prompt r H. unfold chunks, whitespaceRegex in H.
  rewrite split_runs in H. cbn [bind] in H.
  eapply chunkLoop_lineFeed; [|constructor|exact H].
  intros w Hw Hin.
  pose proof (splitRuns_clean (classMatches false CSpace) prompt false [] eq_refl) as HC.
  rewrite Forall_forall in HC. specialize (HC w Hw).
  rewrite forallb_forall in HC. apply HC in Hin. discriminate.
Qed.

(** X6.  No returned task runs over a line feed, unless the prompt is blank
    and is returned as it is. *)
Theorem tasks_are_single_lines : forall prompt,
  blank prompt = false ->
  exists ds,
    fallbackBreakdown prompt = Some ds
    /\ Forall (fun d => ~ In LF (task d)) ds.
Proof.
  intros prompt Hb.
  destruct (fallbackBreakdown_cases prompt) as [[Hl E]|[Hl [tasks [Ec E]]]];
    rewrite E; eexists; (split; [reflexivity|]).
  - apply Forall_map. cbn [task descriptor]. apply Forall_forall. intros l Hl' Hin.
    apply In_trim in Hin. unfold nonBlankLines in Hl'.
    apply filter_In in Hl' as [Hl' _]. exact (linesOf_clean _ _ Hl' Hin).
  - destruct (candidates_nonblank _ _ Hb Ec) as [t [Ht Htb]].
    destruct (finish_normal prompt tasks (normalize_nonempty _ _ Ht Htb)) as [-> _].
    apply Forall_map. cbn [task descriptor]. apply limit_Forall.
    assert (HT : Forall (fun t => ~ In LF t) tasks).
    { destruct (candidates_pieces _ _ Ec) as [HP|HC].
      - eapply Forall_impl; [|exact HP]. intros x [G I] Hin.
        pose proof (piece_lineFeed _ _ G I Hin). lia.
      - now apply (chunks_lineFeed prompt). }
    unfold normalize. apply Forall_forall. intros x Hx.
    apply in_map_iff in Hx as [y [<- Hy]]. apply filter_In in Hy as [Hy _].
    apply in_map_iff in Hy as [z [<- Hz]].
    apply capitalize_lineFeed; [apply trim_headOk|].
    intros Hin. apply In_trim in Hin. rewrite Forall_forall in HT.
    exact (HT z Hz Hin).
Qed.

Lemma tasks_are_single_lines_witness :
  exists ds,
    fallbackBreakdown promptShopping = Some ds
    /\ Forall (fun d => ~ In LF (task d)) ds.
Proof.
  apply (tasks_are_single_lines promptShopping). vm_compute. reflexivity.
Defined.

(** X7.  The decomposer invents no text: every code unit of a task that is no
    white space occurs in the prompt, but for the first code unit, which
    may be the upper case of one that does. *)
Theorem tasks_drawn_from_prompt : forall prompt,
  exists ds,
    fallbackBreakdown prompt = Some ds
    /\ Forall (fun d => exists t, drawnFrom prompt t
                                  /\ (task d = t \/ task d = capitalize t)) ds.
Proof.
  intros prompt.
  destruct (fallbackBreakdown_cases prompt) as [[Hl E]|[Hl [tasks [Ec E]]]];
    rewrite E; eexists; (split; [reflexivity|]).
  - apply Forall_map. cbn [task descriptor]. apply Forall_forall. intros l Hl'.
    exists (trim l). split; [|now left].
    apply drawnFrom_trim. intros c Hc. eapply nonBlankLines_drawn; eauto.
  - unfold finish. destruct (length (limit (normalize tasks)) =? 0).
    + constructor; [|constructor]. exists prompt. split; [|now left].
      intros c Hc _. exact Hc.
    + apply Forall_map. cbn [task descriptor]. apply limit_Forall.
      unfold normalize. apply Forall_forall. intros x Hx.
      apply in_map_iff in Hx as [y [<- Hy]]. apply filter_In in Hy as [Hy _].
      apply in_map_iff in Hy as [z [<- Hz]].
      exists (trim z). split; [|now right].
      pose proof (candidates_drawn _ _ Ec) as HD. rewrite Forall_forall in HD.
      intros c Hc Hcs. apply In_trim in Hc. exact (HD z Hz c Hc Hcs).
Qed.
(** ** Capitalising ASCII *)

Lemma ascii_upper_checked :
  forallb (fun c => match upperUnit c with
                    | [u] => N.eqb u (asciiUpper c)
                    | _ => false
                    end)
          (map N.of_nat (seq 0 128)) = true.
Proof. vm_compute. reflexivity. Qed.

Lemma upperUnit_ascii : forall c, (c < 128)%N -> upperUnit c = [asciiUpper c].
Proof.
  intros c Hc.
  assert (Hin : In c (map N.of_nat (seq 0 128))).
  { apply in_map_iff. exists (N.to_nat c). split; [apply N2Nat.id|].
    apply in_seq. lia. }
  pose proof (proj1 (forallb_forall _ _) ascii_upper_checked c Hin) as H.
  cbv beta in H. destruct (upperUnit c) as [|u [|]]; try discriminate.
  apply N.eqb_eq in H. now subst.
Qed.

(** X8.  On a task that starts with an ASCII character the normalisation turns
    a lower-case letter [a]..[z] into its capital and changes nothing
    else. *)
Theorem capitalize_ascii : forall c rest,
  (c < 128)%N ->
  capitalize (c :: rest) = asciiUpper c :: rest
  /\ (capitalize (c :: rest) = c :: rest <-> ~ (97 <= c <= 122)%N).
Proof.
  intros c rest Hc. rewrite capitalize_cons, (upperUnit_ascii c Hc).
  split; [reflexivity|]. cbn [app]. unfold asciiUpper.
  destruct ((97 <=? c) && (c <=? 122))%N eqn:E.
  - apply andb_prop in E as [E1 E2]. apply N.leb_le in E1, E2. split.
    + intros H. injection H as H. lia.
    + intros H. lia.
  - split; [|reflexivity]. intros _ [H1 H2].
    apply N.leb_le in H1, H2. rewrite H1, H2 in E. discriminate.
Qed.

Lemma capitalize_ascii_witness :
  capitalize (js "write the code.") = js "Write the code.".
Proof.
  exact (proj1 (capitalize_ascii (cu "w") (js "rite the code.") ltac:(reflexivity))).
Defined.
(* ================================================================== *)
(** * Properties of the route *)

Lemma fallbackBreakdown_nonempty : forall s,
  exists ds, fallbackBreakdown s = Some ds /\ 1 <= length ds.
Proof.
  intros s.
  destruct (fallbackBreakdown_cases s) as [[Hl E]|[Hl [tasks [Ec E]]]].
  - eexists. split; [exact E|]. rewrite length_map. lia.
  - eexists. split; [exact E|]. apply finish_length.
Qed.

Lemma descriptorValue_valid : forall d, validItem (descriptorValue d) = true.
Proof. intros d. reflexivity. Qed.

Lemma tasksValue_valid : forall ds,
  1 <= length ds -> validTasks (tasksValue ds) = true.
Proof.
  intros ds H. unfold validTasks, tasksValue. rewrite length_map.
  apply andb_true_intro. split; [now apply Nat.ltb_lt|].
  apply forallb_forall. intros x Hx. apply in_map_iff in Hx as [d [<- _]].
  apply descriptorValue_valid.
Qed.

Lemma fallbackFor_string : forall s,
  exists tasks, fallbackFor (Some (JStr s)) = Some (Resolved tasks)
                /\ validTasks tasks = true.
Proof.
  intros s. destruct (fallbackBreakdown_nonempty s) as [ds [E Hl]].
  exists (tasksValue ds). unfold fallbackFor. rewrite E. cbn [bind].
  split; [reflexivity|now apply tasksValue_valid].
Qed.

Lemma fallbackFor_other : forall prompt,
  (forall s, prompt <> Some (JStr s)) -> fallbackFor prompt = Some Rejected.
Proof.
  intros [[| | |s| |]|] H; try reflexivity. now specialize (H s).
Qed.

Lemma breakdownPrompt_string : forall s llm,
  exists tasks,
    breakdownPrompt (Some (JStr s)) llm = Some (Resolved tasks)
    /\ validTasks tasks = true.
Proof.
  intros s llm. destruct llm as [| | | |v]; cbn [breakdownPrompt];
    try apply fallbackFor_string.
  destruct (validTasks v) eqn:E; [eauto|apply fallbackFor_string].
Qed.

(** X9.  Whatever the language model does, [breakdownPrompt] answers a string
    prompt with a list that passes the very test the route applies to the
    model's answer: an array that is not empty, of objects with a string
    [task]. *)
Theorem breakdownPrompt_keeps_contract : forall s llm,
  exists tasks,
    breakdownPrompt (Some (JStr s)) llm = Some (Resolved tasks)
    /\ validTasks tasks = true.
Proof. exact breakdownPrompt_string. Qed.

Lemma breakdownPrompt_settles : forall prompt llm,
  (exists tasks, breakdownPrompt prompt llm = Some (Resolved tasks)
                 /\ validTasks tasks = true)
  \/ (breakdownPrompt prompt llm = Some Rejected
      /\ (forall s, prompt <> Some (JStr s))
      /\ (forall v, llm = Parsed v -> validTasks v = false)).
Proof.
  intros prompt llm.
  assert (Hs : (exists s, prompt = Some (JStr s)) \/ (forall s, prompt <> Some (JStr s))).
  { destruct prompt as [[| | |s| |]|]; try (right; discriminate). left. eauto. }
  destruct Hs as [[s ->]|Hn]; [left; apply breakdownPrompt_string|].
  destruct llm as [| | | |v]; cbn [breakdownPrompt];
    try (right; split; [now apply fallbackFor_other|split; [exact Hn|discriminate]]).
  destruct (validTasks v) eqn:E; [left; eauto|].
  right. split; [now apply fallbackFor_other|]. split; [exact Hn|].
  intros v' Hv. injection Hv as <-. exact E.
Qed.

(** X10.  [breakdownPrompt] always settles, and it rejects in one case only: the
    prompt is no string and the model gave no valid list. *)
Theorem breakdownPrompt_rejects : forall prompt llm,
  (exists r, breakdownPrompt prompt llm = Some r)
  /\ (breakdownPrompt prompt llm = Some Rejected
      <-> (forall s, prompt <> Some (JStr s))
          /\ (forall v, llm = Parsed v -> validTasks v = false)).
Proof.
  intros prompt llm.
  destruct (breakdownPrompt_settles prompt llm) as [[t [E V]]|[E [H1 H2]]].
  - split; [eauto|]. rewrite E. split; [discriminate|]. intros [Hp Hl].
    exfalso. destruct prompt as [[| | |s| |]|];
      try (destruct llm as [| | | |v]; cbn [breakdownPrompt] in E;
           try discriminate;
           rewrite (Hl v eq_refl) in E; discriminate).
    now specialize (Hp s).
  - split; [eauto|]. split; auto.
Qed.

(** ** The handler *)

Lemma action_cases : forall request llm,
  action request llm = Some ErrorResponse
  \/ exists tasks, action request llm = Some (TasksResponse tasks)
                   /\ validTasks tasks = true.
Proof.
  intros [|data] llm; [now left|].
  destruct data as [| | | | |fields]; try (now left).
  unfold action. cbn [getProp].
  destruct (providerNameOf (assoc (js "provider") fields)) as [pn|]; [|now left].
  destruct (templateThrows _ || templateThrows pn); [now left|].
  destruct (breakdownPrompt_settles (assoc (js "message") fields) llm)
    as [[t [E V]]|[E _]]; rewrite E; cbn [bind]; [right; eauto|now left].
Qed.

(** X11.  The handler always answers, with status 200 or 500, and a response
    with status 200 carries a list of tasks that is not empty and whose
    items are objects with a string [task]. *)
Theorem action_answers : forall request llm,
  exists r,
    action request llm = Some r
    /\ (status r = 200 \/ status r = 500)
    /\ (forall tasks, r = TasksResponse tasks -> validTasks tasks = true).
Proof.
  intros request llm. destruct (action_cases request llm) as [E|[t [E V]]].
  - exists ErrorResponse. split; [exact E|]. split; [now right|discriminate].
  - exists (TasksResponse t). split; [exact E|]. split; [now left|].
    intros t' H. injection H as <-. exact V.
Qed.

(** X12.  A body that is no JSON, [null], or anything but an object is answered
    with status 500, and so is an object without [provider] or with
    [provider: null], whatever the model would have said. *)
Theorem action_rejects_malformed : forall llm,
  action JsonRejected llm = Some ErrorResponse
  /\ (forall data, (forall fields, data <> JObj fields) ->
                   action (JsonResolved data) llm = Some ErrorResponse)
  /\ (forall fields,
         assoc (js "provider") fields = None
         \/ assoc (js "provider") fields = Some JNull ->
         action (JsonResolved (JObj fields)) llm = Some ErrorResponse).
Proof.
  intros llm. split; [reflexivity|]. split.
  - intros data H. destruct data as [| | | | |fields]; try reflexivity.
    now specialize (H fields).
  - intros fields [H|H]; unfold action; cbn [getProp]; now rewrite H.
Qed.

Lemma action_rejects_malformed_witness :
  action (JsonResolved (JObj [(js "message", JStr (js "Buy milk"))])) LlmError
  = Some ErrorResponse.
Proof.
  apply (proj2 (proj2 (action_rejects_malformed LlmError))). now left.
Defined.

(** X13.  A request with a string [message], a string [provider] or a provider
    object with a string [name], and a [model] that a template literal can
    print is answered with status 200 and a valid list of tasks, whatever
    the language model does. *)
Theorem action_serves_well_formed : forall fields s provider p llm,
  assoc (js "message") fields = Some (JStr s) ->
  assoc (js "provider") fields = Some provider ->
  provider = JStr p \/ (exists pf, provider = JObj pf
                                   /\ assoc (js "name") pf = Some (JStr p)) ->
  templateThrows (assoc (js "model") fields) = false ->
  exists tasks,
    action (JsonResolved (JObj fields)) llm = Some (TasksResponse tasks)
    /\ validTasks tasks = true.
Proof.
  intros fields s provider p llm Hm Hp Hprov Hmodel.
  destruct (breakdownPrompt_string s llm) as [t [E V]].
  exists t. split; [|exact V]. unfold action. cbn [getProp].
  rewrite Hm, Hp, Hmodel. destruct Hprov as [->|[pf [-> Hn]]].
  - cbn [providerNameOf templateThrows toStringThrows orb].
    rewrite E. reflexivity.
  - cbn [providerNameOf getProp]. rewrite Hn.
    cbn [templateThrows toStringThrows orb]. rewrite E. reflexivity.
Qed.

Lemma action_serves_well_formed_witness :
  exists tasks,
    action (JsonResolved
              (requestBody promptHi (js "gpt") (JStr (js "OpenAI")) None))
           ParseError
    = Some (TasksResponse tasks)
    /\ validTasks tasks = true.
Proof.
  eapply (action_serves_well_formed _ promptHi (JStr (js "OpenAI")) (js "OpenAI")).
  - reflexivity.
  - reflexivity.
  - now left.
  - reflexivity.
Defined.

(** X14.  When the [message] is missing or no string, the handler answers with
    status 200 only if the language model gave a valid list, which it
    then returns as it is; otherwise the status is 500. *)
Theorem action_without_message : forall fields llm,
  (forall s, assoc (js "message") fields <> Some (JStr s)) ->
  (forall tasks, action (JsonResolved (JObj fields)) llm = Some (TasksResponse tasks) ->
                 llm = Parsed tasks /\ validTasks tasks = true)
  /\ ((forall v, llm = Parsed v -> validTasks v = false) ->
      action (JsonResolved (JObj fields)) llm = Some ErrorResponse).
Proof.
  intros fields llm Hm. unfold action. cbn [getProp].
  destruct (providerNameOf (assoc (js "provider") fields)) as [pn|];
    [|split; [discriminate|reflexivity]].
  destruct (templateThrows _ || templateThrows pn);
    [split; [discriminate|reflexivity]|].
  split.
  - intros tasks H. destruct llm as [| | | |v]; cbn [breakdownPrompt] in H;
      try (rewrite (fallbackFor_other _ Hm) in H; discriminate).
    destruct (validTasks v) eqn:E.
    + cbn [bind] in H. injection H as <-. auto.
    + rewrite (fallbackFor_other _ Hm) in H. discriminate.
  - intros Hl. destruct llm as [| | | |v]; cbn [breakdownPrompt];
      try (rewrite (fallbackFor_other _ Hm); reflexivity).
    rewrite (Hl v eq_refl), (fallbackFor_other _ Hm). reflexivity.
Qed.

Lemma action_without_message_witness :
  action (JsonResolved (JObj [(js "provider", JStr (js "OpenAI"))])) LlmError
  = Some ErrorResponse.
Proof.
  apply (proj2 (action_without_message
                  [(js "provider", JStr (js "OpenAI"))] LlmError
                  ltac:(discriminate))).
  discriminate.
Defined.
(* ================================================================== *)
(** * Properties of the hook *)

(** ** Identifiers *)

Lemma digits_injective : forall u v, Hook.digits u = Hook.digits v -> u = v.
Proof.
  induction u as [|u IH|u IH|u IH|u IH|u IH|u IH|u IH|u IH|u IH|u IH];
    intros [|v|v|v|v|v|v|v|v|v|v] H; cbn [Hook.digits] in H;
    try discriminate; try reflexivity;
    injection H as H; f_equal; now apply IH.
Qed.

Lemma indexToString_injective : forall i j,
  Hook.indexToString i = Hook.indexToString j -> i = j.
Proof.
  intros i j H. apply digits_injective in H.
  rewrite <- (DecimalNat.Unsigned.of_to i), <- (DecimalNat.Unsigned.of_to j).
  now f_equal.
Qed.

Lemma formatFrom_ids : forall items index t,
  In t (Hook.formatFrom index items) ->
  exists k, index <= k /\ Hook.id t = js "task-" ++ Hook.indexToString k.
Proof.
  induction items as [|x items IH]; intros index t H; [destruct H|].
  cbn [Hook.formatFrom] in H. destruct H as [<-|H].
  - exists index. split; [lia|reflexivity].
  - apply IH in H as [k [Hk E]]. exists k. split; [lia|exact E].
Qed.

Lemma formatFrom_NoDup : forall items index,
  NoDup (map Hook.id (Hook.formatFrom index items)).
Proof.
  induction items as [|x items IH]; intros index; cbn [Hook.formatFrom map];
    constructor; [|apply IH].
  intros H. apply in_map_iff in H as [t [E Ht]].
  apply formatFrom_ids in Ht as [k [Hk Ek]]. rewrite Ek in E. cbn [Hook.id] in E.
  apply app_inv_head in E. apply indexToString_injective in E. lia.
Qed.

Lemma formatFrom_shape : forall items index,
  map Hook.content (Hook.formatFrom index items) = items
  /\ Forall (fun t => Hook.completed t = false) (Hook.formatFrom index items).
Proof.
  induction items as [|x items IH]; intros index; cbn [Hook.formatFrom map].
  - split; [reflexivity|constructor].
  - destruct (IH (S index)) as [E F]. split; [now rewrite E|].
    constructor; [reflexivity|exact F].
Qed.

Lemma formatFrom_nth : forall items index k,
  k < length items ->
  option_map Hook.id (nth_error (Hook.formatFrom index items) k)
  = Some (js "task-" ++ Hook.indexToString (index + k)).
Proof.
  induction items as [|x items IH]; intros index k H; [cbn in H; lia|].
  destruct k as [|k]; cbn [Hook.formatFrom nth_error option_map Hook.id].
  - now rewrite Nat.add_0_r.
  - rewrite IH by (cbn in H; lia). now rewrite Nat.add_succ_r.
Qed.

(** X15.  The tasks made from the answer of the route are as many as the items
    and carry them in order; none is completed; the task at position [k]
    is called [task-k], and no two tasks share an identifier. *)
Theorem formatTasks_identifies : forall items,
  map Hook.content (Hook.formatTasks items) = items
  /\ Forall (fun t => Hook.completed t = false) (Hook.formatTasks items)
  /\ NoDup (map Hook.id (Hook.formatTasks items))
  /\ (forall k, k < length items ->
        option_map Hook.id (nth_error (Hook.formatTasks items) k)
        = Some (js "task-" ++ Hook.indexToString k)).
Proof.
  intros items. unfold Hook.formatTasks.
  destruct (formatFrom_shape items 0) as [E F].
  split; [exact E|]. split; [exact F|]. split; [apply formatFrom_NoDup|].
  intros k Hk. now rewrite formatFrom_nth.
Qed.

(** ** Starting tasks *)

Lemma jsstring_eqb_refl : forall s, jsstring_eqb s s = true.
Proof. intros s. now apply jsstring_eqb_eq. Qed.

Lemma jsstring_eqb_neq : forall a b, a <> b -> jsstring_eqb a b = false.
Proof.
  intros a b H. destruct (jsstring_eqb a b) eqn:E; [|reflexivity].
  apply jsstring_eqb_eq in E. contradiction.
Qed.

Lemma find_unique : forall ts t,
  NoDup (map Hook.id ts) -> In t ts ->
  find (fun u => jsstring_eqb (Hook.id u) (Hook.id t)) ts = Some t.
Proof.
  induction ts as [|u ts IH]; intros t Hnd Hin; [destruct Hin|].
  cbn [find]. inversion Hnd as [|x l Hu Hts]; subst. destruct Hin as [->|Hin].
  - now rewrite jsstring_eqb_refl.
  - rewrite jsstring_eqb_neq; [now apply IH|].
    intros E. apply Hu. rewrite E. now apply in_map.
Qed.

Lemma mark_absent : forall taskId ts,
  (forall t, In t ts -> Hook.id t <> taskId) ->
  map (fun t => if jsstring_eqb (Hook.id t) taskId
                then Hook.mkTask (Hook.id t) (Hook.content t) true else t) ts
  = ts.
Proof.
  intros taskId. induction ts as [|u ts IH]; intros H; [reflexivity|].
  cbn [map]. rewrite jsstring_eqb_neq by (apply H; now left).
  rewrite IH by (intros; apply H; now right). reflexivity.
Qed.

(** Whatever the identifier, [startTask] marks the tasks that bear it. *)
Lemma startTask_marks : forall taskId ts,
  fst (Hook.startTask taskId ts)
  = map (fun t => if jsstring_eqb (Hook.id t) taskId
                  then Hook.mkTask (Hook.id t) (Hook.content t) true else t) ts.
Proof.
  intros taskId ts. unfold Hook.startTask.
  destruct (find _ ts) as [t|] eqn:E; [reflexivity|]. cbn [fst].
  symmetry. apply mark_absent. intros t Ht Hid.
  pose proof (find_none _ _ E t Ht) as H. cbv beta in H.
  rewrite Hid, jsstring_eqb_refl in H. discriminate.
Qed.

(** X16.  An identifier that no task bears changes nothing, and the input field
    is left alone. *)
Theorem startTask_unknown : forall taskId ts,
  (forall t, In t ts -> Hook.id t <> taskId) ->
  Hook.startTask taskId ts = (ts, None).
Proof.
  intros taskId ts H. unfold Hook.startTask.
  destruct (find _ ts) as [t|] eqn:E; [|reflexivity].
  apply find_some in E as [Hin Hid]. apply jsstring_eqb_eq in Hid.
  now apply H in Hin.
Qed.

Lemma startTask_unknown_witness :
  Hook.startTask (js "task-7") (Hook.formatTasks [JNull; JNull])
  = (Hook.formatTasks [JNull; JNull], None).
Proof.
  apply startTask_unknown. intros t Ht. cbn in Ht.
  destruct Ht as [<-|[<-|[]]]; intros E; vm_compute in E; discriminate.
Defined.

Lemma completed_count : forall taskId ts t,
  NoDup (map Hook.id ts) -> In t ts -> Hook.id t = taskId ->
  length (filter Hook.completed
            (map (fun u => if jsstring_eqb (Hook.id u) taskId
                           then Hook.mkTask (Hook.id u) (Hook.content u) true
                           else u) ts))
  = length (filter Hook.completed ts) + (if Hook.completed t then 0 else 1).
Proof.
  intros taskId. induction ts as [|u ts IH]; intros t Hnd Hin Hid; [destruct Hin|].
  inversion Hnd as [|x l Hu Hts]; subst. cbn [map filter].
  destruct Hin as [->|Hin].
  - rewrite jsstring_eqb_refl. cbn [Hook.completed filter].
    rewrite mark_absent.
    + destruct (Hook.completed t); cbn [length]; lia.
    + intros v Hv E. apply Hu. rewrite <- E. now apply in_map.
  - rewrite jsstring_eqb_neq.
    + destruct (Hook.completed u); cbn [length]; rewrite (IH t) by auto; lia.
    + intros E. apply Hu. rewrite E. now apply in_map.
Qed.

(** X17.  Starting a task of a list with distinct identifiers loads the content
    of that task into the input field and completes that task alone: the
    identifiers and contents stay, every other task is as before, no task
    that was completed is reset, and the number of completed tasks grows
    by one unless the task was completed already. *)
Theorem startTask_completes_one : forall ts t,
  NoDup (map Hook.id ts) -> In t ts ->
  let ts' := fst (Hook.startTask (Hook.id t) ts) in
  snd (Hook.startTask (Hook.id t) ts) = Some (Hook.content t)
  /\ map Hook.id ts' = map Hook.id ts
  /\ map Hook.content ts' = map Hook.content ts
  /\ In (Hook.mkTask (Hook.id t) (Hook.content t) true) ts'
  /\ (forall u, In u ts -> Hook.id u <> Hook.id t -> In u ts')
  /\ (forall u, In u ts -> Hook.completed u = true -> In u ts')
  /\ length (filter Hook.completed ts')
     = length (filter Hook.completed ts) + (if Hook.completed t then 0 else 1).
Proof.
  intros ts t Hnd Hin ts'. subst ts'. rewrite startTask_marks.
  split.
  { unfold Hook.startTask. now rewrite (find_unique ts t Hnd Hin). }
  split.
  { rewrite map_map. apply map_ext. intros u. now destruct (jsstring_eqb _ _). }
  split.
  { rewrite map_map. apply map_ext. intros u. now destruct (jsstring_eqb _ _). }
  split.
  { apply in_map_iff. exists t. now rewrite jsstring_eqb_refl. }
  split.
  { intros u Hu Hne. apply in_map_iff. exists u.
    now rewrite jsstring_eqb_neq. }
  split.
  { intros u Hu Hc. apply in_map_iff. exists u. split; [|exact Hu].
    destruct (jsstring_eqb _ _); [|reflexivity].
    destruct u as [i c d]. cbn in *. now rewrite Hc. }
  now apply completed_count.
Qed.

Lemma startTask_completes_one_witness :
  snd (Hook.startTask (js "task-1") (Hook.formatTasks [JNull; JBool true]))
  = Some (JBool true).
Proof.
  refine (proj1 (startTask_completes_one
                   (Hook.formatTasks [JNull; JBool true])
                   (Hook.mkTask (js "task-1") (JBool true) false) _ _)).
  - apply formatFrom_NoDup.
  - right. now left.
Defined.

(** X18.  Starting a task twice is starting it once, and the order in which two
    tasks are started does not matter. *)
Theorem startTask_idempotent_commutes : forall a b ts,
  fst (Hook.startTask a (fst (Hook.startTask a ts))) = fst (Hook.startTask a ts)
  /\ fst (Hook.startTask a (fst (Hook.startTask b ts)))
     = fst (Hook.startTask b (fst (Hook.startTask a ts))).
Proof.
  intros a b ts. rewrite !startTask_marks, !map_map. split.
  - apply map_ext. intros u. destruct (jsstring_eqb (Hook.id u) a) eqn:E;
      cbn [Hook.id]; rewrite E; reflexivity.
  - apply map_ext. intros u.
    destruct (jsstring_eqb (Hook.id u) a) eqn:Ea;
      destruct (jsstring_eqb (Hook.id u) b) eqn:Eb;
      cbn [Hook.id Hook.content]; rewrite ?Ea, ?Eb; reflexivity.
Qed.

Lemma startAll_marks : forall ids ts,
  fold_left (fun ts taskId => fst (Hook.startTask taskId ts)) ids ts
  = map (fun t => if existsb (jsstring_eqb (Hook.id t)) ids
                  then Hook.mkTask (Hook.id t) (Hook.content t) true else t) ts.
Proof.
  induction ids as [|i ids IH]; intros ts; cbn [fold_left existsb].
  - symmetry. apply map_id.
  - rewrite IH, startTask_marks, map_map. apply map_ext. intros u.
    destruct (jsstring_eqb (Hook.id u) i); cbn [Hook.id Hook.content orb];
      [now destruct (existsb _ ids)|reflexivity].
Qed.

(** X19.  Starting the tasks one after the other, in any order and as often as
    one likes, completes them all once each has been started. *)
Theorem starting_every_task_completes_all : forall ts ids,
  (forall t, In t ts -> In (Hook.id t) ids) ->
  Forall (fun t => Hook.completed t = true)
    (fold_left (fun ts taskId => fst (Hook.startTask taskId ts)) ids ts).
Proof.
  intros ts ids H. rewrite startAll_marks. apply Forall_forall. intros t Ht.
  apply in_map_iff in Ht as [u [<- Hu]].
  replace (existsb (jsstring_eqb (Hook.id u)) ids) with true; [reflexivity|].
  symmetry. apply existsb_exists. exists (Hook.id u).
  split; [now apply H|apply jsstring_eqb_refl].
Qed.

Lemma starting_every_task_completes_all_witness :
  Forall (fun t => Hook.completed t = true)
    (fold_left (fun ts taskId => fst (Hook.startTask taskId ts))
       [js "task-1"; js "task-0"] (Hook.formatTasks [JNull; JNull])).
Proof.
  apply starting_every_task_completes_all. intros t Ht. cbn in Ht.
  destruct Ht as [<-|[<-|[]]]; [right; now left|now left].
Defined.

(** ** The preference and its cookie *)

Lemma initialPreference_booleanToString : forall b,
  Hook.initialPreference true (Some (Hook.booleanToString b)) = b.
Proof. now intros []. Qed.

(** X20.  The cookie written by [toggleTaskBreakdown] brings the preference back
    when the module is loaded again; without a document, or with a cookie
    that does not read [true], the preference is off; toggling twice
    restores the preference, and toggling touches neither the tasks nor
    the busy flag. *)
Theorem preference_survives_reload : forall st,
  Hook.initialPreference true (Hook.cookie (Hook.toggleTaskBreakdown st))
  = Hook.taskBreakdownEnabled (Hook.toggleTaskBreakdown st)
  /\ Hook.taskBreakdownEnabled (Hook.toggleTaskBreakdown st)
     = negb (Hook.taskBreakdownEnabled st)
  /\ Hook.taskBreakdownEnabled (Hook.toggleTaskBreakdown (Hook.toggleTaskBreakdown st))
     = Hook.taskBreakdownEnabled st
  /\ Hook.tasks (Hook.toggleTaskBreakdown st) = Hook.tasks st
  /\ Hook.isBreakingDown (Hook.toggleTaskBreakdown st) = Hook.isBreakingDown st
  /\ (forall saved, Hook.initialPreference false saved = false)
  /\ (forall saved, saved <> Some (js "true") ->
                    Hook.initialPreference true saved = false).
Proof.
  intros st. split; [apply initialPreference_booleanToString|].
  split; [reflexivity|]. split; [apply negb_involutive|].
  split; [reflexivity|]. split; [reflexivity|]. split; [reflexivity|].
  intros [s|] H; [|reflexivity]. cbn [Hook.initialPreference].
  apply jsstring_eqb_neq. intros E. apply H. now rewrite E.
Qed.

(** * The hook and the route together *)

Lemma validItem_object : forall item,
  validItem item = true ->
  exists fields s, item = JObj fields /\ assoc (js "task") fields = Some (JStr s).
Proof.
  intros [| b | l | s | items | fields] H; try discriminate.
  cbn [validItem] in H.
  destruct (assoc (js "task") fields) as [[| b | l | s | items | fs]|] eqn:E;
    try discriminate.
  now exists fields, s.
Qed.

Lemma validTasks_items : forall tasks,
  validTasks tasks = true ->
  exists items, tasks = JArr items /\ items <> []
                /\ Forall (fun item => validItem item = true) items.
Proof.
  intros [| b | l | s | items | fields] H; try discriminate.
  cbn [validTasks] in H. apply andb_true_iff in H as [Hlen Hall].
  exists items. split; [reflexivity|]. split.
  - intros ->. discriminate.
  - apply Forall_forall. now apply forallb_forall.
Qed.

Lemma formatFrom_content : forall items index,
  map Hook.content (Hook.formatFrom index items) = items.
Proof.
  induction items as [|x items IH]; intros index; [reflexivity|].
  cbn [Hook.formatFrom map Hook.content]. now rewrite IH.
Qed.

Lemma responseTasks_delivered : forall items,
  Hook.responseTasks (JObj [(js "tasks", JArr items)]) = Some items.
Proof. reflexivity. Qed.

Lemma formatted_valid : forall items,
  items <> [] ->
  Forall (fun item => validItem item = true) items ->
  Hook.formatTasks items <> []
  /\ length (Hook.formatTasks items) = length items
  /\ NoDup (map Hook.id (Hook.formatTasks items))
  /\ Forall (fun t => Hook.completed t = false
                      /\ exists fields s,
                           Hook.content t = JObj fields
                           /\ assoc (js "task") fields = Some (JStr s))
            (Hook.formatTasks items).
Proof.
  intros items Hne Hall.
  pose proof (formatFrom_content items 0) as Hc. fold (Hook.formatTasks items) in Hc.
  split.
  { intros E. rewrite E in Hc. cbn in Hc. now apply Hne. }
  split.
  { rewrite <- Hc at 2. now rewrite length_map. }
  split; [apply formatFrom_NoDup|].
  apply Forall_forall. intros t Ht. split.
  - pose proof (proj2 (formatFrom_shape items 0)) as Hs.
    rewrite Forall_forall in Hs. now apply Hs.
  - apply validItem_object. rewrite Forall_forall in Hall. apply Hall.
    rewrite <- Hc. now apply in_map.
Qed.

(** X21.  Whatever request reaches the route and whatever the language model
    does, the hook that receives the answer ends idle with the preference
    untouched, and either the route answered with status 500, the hook's
    promise is rejected and no task is left, or the route answered with
    status 200 and the hook resolves with the tasks it stores: at least
    one, none completed, with distinct identifiers, and the content of
    each is the object the route sent, with its string [task], not a
    string. *)
Theorem hook_after_route : forall request llm st,
  exists resp st' out,
    action request llm = Some resp
    /\ Hook.breakdownPrompt (delivered resp) st = (st', out)
    /\ Hook.isBreakingDown st' = false
    /\ Hook.taskBreakdownEnabled st' = Hook.taskBreakdownEnabled st
    /\ Hook.cookie st' = Hook.cookie st
    /\ ((status resp = 500 /\ out = Rejected /\ Hook.tasks st' = [])
        \/ (status resp = 200 /\ out = Resolved (Hook.tasks st')
            /\ Hook.tasks st' <> []
            /\ NoDup (map Hook.id (Hook.tasks st'))
            /\ Forall (fun t => Hook.completed t = false
                                /\ exists fields s,
                                     Hook.content t = JObj fields
                                     /\ assoc (js "task") fields = Some (JStr s))
                      (Hook.tasks st'))).
Proof.
  intros request llm st.
  destruct (action_cases request llm) as [E|[tasks [E V]]].
  - exists ErrorResponse. eexists. eexists. split; [exact E|].
    split; [reflexivity|]. cbn. repeat split. left. now repeat split.
  - apply validTasks_items in V as [items [-> [Hne Hall]]].
    destruct (formatted_valid items Hne Hall) as [H1 [_ [H3 H4]]].
    exists (TasksResponse (JArr items)). eexists. eexists.
    split; [exact E|]. split.
    { unfold delivered, Hook.breakdownPrompt.
      rewrite responseTasks_delivered. reflexivity. }
    cbn [Hook.isBreakingDown Hook.taskBreakdownEnabled Hook.cookie Hook.tasks status].
    repeat split. right. repeat split; assumption.
Qed.

Lemma action_requestBody_eq : forall prompt model provider p apiKeys llm,
  provider = JStr p
  \/ (exists pf, provider = JObj pf /\ assoc (js "name") pf = Some (JStr p)) ->
  action (JsonResolved (requestBody prompt model provider apiKeys)) llm
  = (tasks <- breakdownPrompt (Some (JStr prompt)) llm ;;
     match tasks with
     | Resolved tasks => Some (TasksResponse tasks)
     | Rejected => Some ErrorResponse
     end).
Proof.
  intros prompt model provider p apiKeys llm Hprov.
  unfold action, requestBody. cbn [getProp app assoc].
  change (jsstring_eqb (js "message") (js "message")) with true.
  change (jsstring_eqb (js "model") (js "message")) with false.
  change (jsstring_eqb (js "model") (js "model")) with true.
  change (jsstring_eqb (js "provider") (js "message")) with false.
  change (jsstring_eqb (js "provider") (js "model")) with false.
  change (jsstring_eqb (js "provider") (js "provider")) with true.
  cbv iota.
  destruct Hprov as [->|[pf [-> Hn]]].
  - reflexivity.
  - cbn [providerNameOf getProp]. rewrite Hn. reflexivity.
Qed.

Lemma breakdownPrompt_fallback : forall prompt llm,
  (forall v, llm = Parsed v -> validTasks v = false) ->
  breakdownPrompt prompt llm = fallbackFor prompt.
Proof.
  intros prompt [| | | | v] H; try reflexivity.
  cbn [breakdownPrompt]. now rewrite (H v eq_refl).
Qed.

(** X22.  A prompt sent by the hook with a provider name, or a provider object
    that has a string [name], always comes back as tasks: the route
    answers with status 200 whatever the language model does, and the
    hook stores and resolves with one task per item of the answer, at
    least one, numbered [task-0], [task-1], ... in the order of the
    answer.  When the model gives no valid list, the items are the
    descriptors of [fallbackBreakdown] for the prompt. *)
Theorem hook_prompt_gets_tasks : forall prompt model provider p apiKeys llm st,
  provider = JStr p
  \/ (exists pf, provider = JObj pf /\ assoc (js "name") pf = Some (JStr p)) ->
  exists items,
    action (JsonResolved (requestBody prompt model provider apiKeys)) llm
    = Some (TasksResponse (JArr items))
    /\ items <> []
    /\ Hook.breakdownPrompt (delivered (TasksResponse (JArr items))) st
       = (Hook.mkState (Hook.taskBreakdownEnabled st) (Hook.cookie st)
            (Hook.formatTasks items) false,
          Resolved (Hook.formatTasks items))
    /\ map Hook.content (Hook.formatTasks items) = items
    /\ (forall k, k < length items ->
          option_map Hook.id (nth_error (Hook.formatTasks items) k)
          = Some (js "task-" ++ Hook.indexToString k))
    /\ ((forall v, llm = Parsed v -> validTasks v = false) ->
        exists ds, fallbackBreakdown prompt = Some ds
                   /\ items = map descriptorValue ds).
Proof.
  intros prompt model provider p apiKeys llm st Hprov.
  rewrite (action_requestBody_eq prompt model provider p apiKeys llm Hprov).
  destruct (breakdownPrompt_string prompt llm) as [tasks [E V]].
  apply validTasks_items in V as [items [-> [Hne Hall]]].
  exists items. split; [now rewrite E|]. split; [exact Hne|]. split.
  { unfold delivered, Hook.breakdownPrompt.
    rewrite responseTasks_delivered. reflexivity. }
  split; [apply formatFrom_content|]. split; [apply (formatFrom_nth items 0)|].
  intros Hllm. rewrite (breakdownPrompt_fallback _ _ Hllm) in E.
  cbn [fallbackFor] in E.
  destruct (fallbackBreakdown prompt) as [ds|]; [|discriminate].
  exists ds. split; [reflexivity|]. cbn in E. unfold tasksValue in E. congruence.
Qed.

Lemma hook_prompt_gets_tasks_witness :
  exists items,
    action (JsonResolved
              (requestBody promptHi (js "gpt") (JStr (js "OpenAI")) None))
           LlmError
    = Some (TasksResponse (JArr items))
    /\ items <> [].
Proof.
  destruct (hook_prompt_gets_tasks promptHi (js "gpt") (JStr (js "OpenAI"))
              (js "OpenAI") None LlmError
              (Hook.mkState false None [] false) (or_introl eq_refl))
    as [items [E [Hne _]]].
  exists items. split; [exact E|exact Hne].
Defined.
